(** * xiaozhi-esp32-server-golang: the per-session dialogue pipeline

    A shallow embedding of the parts of the server that the specification
    speaks about, followed by the properties proved of them:

    - [parseAgentID], [AddMessage] and the PostgreSQL memory store
      (package [pg_memory]);
    - the list branch after the tool-call-result node and the stream
      post-handler of the LLM node (package [chat], the graph file);
    - the TTS ingestion loop [SendTTSAudio] and the pacer
      [processFlowControl] (package [chat], the TTS manager);
    - the VAD window vote of [ProcessVadAudio] (package [common]).

    Go values are modelled as follows.  An [int] is a [Z] and integer
    division is [Z.quot] (Go truncates towards zero); where a value can
    leave the 64-bit range the wrap-around is written out with [int64].  A [string] is a Rocq [string] (a sequence
    of bytes), a [[]byte] is a [list Z] of byte values, a nil-able pointer
    is an [option].  A [map] is a [gmap], or the list of its entries.  A buffered channel is a bounded
    FIFO queue.  Wall-clock time is a [Z] of nanoseconds; the time an
    operation takes is an input of the model. *)

From Stdlib Require Import ZArith Lia String Ascii.
From stdpp Require Import base list strings gmap sorting.

Local Open Scope Z_scope.

(* ===================================================================== *)
(** * Part I: definitions *)
(* ===================================================================== *)

(** ** Go integers and strings *)

(** The value that an [int64] (and an [int]) keeps of a result. *)
Definition int64 (x : Z) : Z :=
  (x + 9223372036854775808) mod 18446744073709551616 - 9223372036854775808.

(** [s[:n]] for [n <= len(s)]. *)
Fixpoint slice_to (n : nat) (s : string) : string :=
  match n, s with
  | S n', String c s' => String c (slice_to n' s')
  | _, _ => EmptyString
  end.

(** [s[n:]] for [n <= len(s)]. *)
Fixpoint slice_from (n : nat) (s : string) : string :=
  match n, s with
  | S n', String _ s' => slice_from n' s'
  | _, _ => s
  end.

(** [s[i] == ':'] for an index in range. *)
Definition is_colon_at (i : nat) (s : string) : bool :=
  match String.get i s with
  | Some c => Ascii.eqb c ":"
  | None => false
  end.

(** Does the string hold a colon at all? *)
Fixpoint contains_colon (s : string) : bool :=
  match s with
  | EmptyString => false
  | String c s' => Ascii.eqb c ":" || contains_colon s'
  end.

(** [len(s) >= 6 && s[:6] == "[STOP]"]. *)
Definition has_stop_prefix (s : string) : bool :=
  (6 <=? String.length s)%nat && String.eqb (slice_to 6 s) "[STOP]".

(** ** pg_memory: parseAgentID *)

(** The loop [for i := len(agentID) - 1; i >= 0; i--] of [parseAgentID]:
    [n] is [i + 1]; the result is the index at which the loop breaks. *)
Fixpoint lastColonBelow (agentID : string) (n : nat) : option nat :=
  match n with
  | O => None
  | S i => if is_colon_at i agentID then Some i else lastColonBelow agentID i
  end.

(** [parseAgentID] returns [(deviceID, sessionID)]. *)
Definition parseAgentID (agentID : string) : string * string :=
  match lastColonBelow agentID (String.length agentID) with
  | Some i => (slice_to i agentID, slice_from (S i) agentID)
  | None => (agentID, agentID)
  end.

(** ** TTS manager: the pre-roll depth *)

(** [cacheFrameCount := 120 / t.clientState.OutputAudioFormat.FrameDuration];
    a zero frame duration panics (integer division by zero). *)
Definition cacheFrameCount (FrameDuration : Z) : option Z :=
  if FrameDuration =? 0 then None else Some (Z.quot 120 FrameDuration).

(** What the specification's words give: [ceil(120 / frameDuration)]. *)
Definition spec_cacheFrames (frameDuration : Z) : Z :=
  (120 + frameDuration - 1) / frameDuration.

(** ** common: the VAD window of ProcessVadAudio *)

(** [buf[a:b]] for [0 <= a <= b <= len(buf)]. *)
Definition goSlice {A} (a b : Z) (l : list A) : list A :=
  take (Z.to_nat (b - a)) (drop (Z.to_nat a) l).

(** [len(l)] as a Go [int]. *)
Definition len {A} (l : list A) : Z := Z.of_nat (length l).

Section Vad.
(** The VAD provider is an interface; an instance keeps internal state
    between calls.  [IsVAD] returns [(active, err)]. *)
Context {VadState : Type}.
Variable IsVAD : VadState -> list Z -> VadState * (bool * option string).

(** [for i := 0; i < frameCount; i++]: [n] iterations are left, the
    next index is [i].  A frame on which the provider fails is skipped
    ([continue]) and counts as not active. *)
Fixpoint vadFrameLoop (frameBytes : Z) (byteBuffer : list Z)
    (n : nat) (i : Z) (vad : VadState) (activeFrames : Z) : VadState * Z :=
  match n with
  | O => (vad, activeFrames)
  | S n' =>
      let start := i * frameBytes in
      let end_ := start + frameBytes in
      let frame := goSlice start end_ byteBuffer in
      let '(vad', (active, err)) := IsVAD vad frame in
      match err with
      | Some _ => vadFrameLoop frameBytes byteBuffer n' (i + 1) vad' activeFrames
      | None =>
          vadFrameLoop frameBytes byteBuffer n' (i + 1) vad'
            (if active then activeFrames + 1 else activeFrames)
      end
  end.

Record VadWindow := mkVadWindow {
  haveVoice : bool;
  activeFrames : Z;
  frameCount : Z;
  byteBuffer' : list Z;
  vadState' : VadState
}.

Inductive VadOutcome :=
| NotEnoughData                (* the guard on len(byteBuffer) fails *)
| DivideByZero                 (* len(byteBuffer) / frameBytes with frameBytes = 0 *)
| Window (w : VadWindow).

(** The block under [if len(byteBuffer) >= frameBytes*vadNeedGetCount]. *)
Definition vadDetect (frameBytes vadNeedGetCount : Z) (byteBuffer : list Z)
    (vad : VadState) : VadOutcome :=
  if len byteBuffer >=? frameBytes * vadNeedGetCount then
    if frameBytes =? 0 then DivideByZero else
    let frameCount := Z.quot (len byteBuffer) frameBytes in
    let '(vad', activeFrames) :=
      vadFrameLoop frameBytes byteBuffer (Z.to_nat frameCount) 0 vad 0 in
    let haveVoice := activeFrames >? Z.quot frameCount 2 in
    let byteBuffer' :=
      if frameCount >? 0
      then drop (Z.to_nat (frameCount * frameBytes)) byteBuffer
      else byteBuffer in
    Window (mkVadWindow haveVoice activeFrames frameCount byteBuffer' vad')
  else NotEnoughData.

(** The verdicts of the provider on the first [n] frames from index [i],
    in order: [true] for a frame reported active without error. *)
Fixpoint vadVerdicts (frameBytes : Z) (byteBuffer : list Z)
    (n : nat) (i : Z) (vad : VadState) : list bool :=
  match n with
  | O => []
  | S n' =>
      let frame := goSlice (i * frameBytes) (i * frameBytes + frameBytes) byteBuffer in
      let '(vad', (active, err)) := IsVAD vad frame in
      (match err with Some _ => false | None => active end)
        :: vadVerdicts frameBytes byteBuffer n' (i + 1) vad'
  end.
End Vad.

Arguments VadWindow : clear implicits.
Arguments VadOutcome : clear implicits.

(** [vadNeedGetCount := 60 / audioFormat.FrameDuration]; a zero frame
    duration panics (integer division by zero). *)
Definition vadNeedGetCount (FrameDuration : Z) : option Z :=
  if FrameDuration =? 0 then None else Some (Z.quot 60 FrameDuration).

(** [frameSize := (SampleRate * FrameDuration) / 1000] and
    [frameBytes := frameSize * 2], on [int]. *)
Definition vadFrameBytes (SampleRate FrameDuration : Z) : Z :=
  int64 (Z.quot (int64 (SampleRate * FrameDuration)) 1000 * 2).

(** ** chat: messages of the dialogue graph *)

Record FunctionCall := mkFunctionCall {
  fn_Name : string;
  fn_Arguments : string
}.

Record ToolCall := mkToolCall {
  tc_ID : string;
  tc_Type : string;
  tc_Function : FunctionCall
}.

(** [schema.Message], with the fields the server reads.  [MultiContent]
    parts are kept as [(type, text)]. *)
Record Message := mkMessage {
  Role : string;
  Content : string;
  MultiContent : list (string * string);
  ToolCalls : list ToolCall;
  ToolCallID : string
}.

(** The role constants of [schema]. *)
Definition Assistant : string := "assistant".
Definition User : string := "user".
Definition System : string := "system".
Definition Tool : string := "tool".

(** The node names of package [eino] and the two reserved names of
    [compose]. *)
Definition NodeChatTemplate : string := "chat_template".
Definition NodeLLM : string := "llm".
Definition NodeLLMSentence : string := "llm_sentence".
Definition NodeTTS : string := "tts".
Definition NodeTTS2Client : string := "tts2client".
Definition NodeToolCall : string := "tool_call".
Definition NodeToolCallResult : string := "tool_call_result".
Definition NodeLLMSentenceCollect : string := "llm_sentence_collect".
Definition NodePassThrough2 : string := "pass_through_2".
Definition START : string := "start".
Definition END : string := "end".

(** [msg.ToolCalls != nil && len(msg.ToolCalls) > 0]. *)
Definition hasToolCalls (msg : Message) : bool :=
  match ToolCalls msg with [] => false | _ :: _ => true end.

(** [msg.Role == schema.Tool && len(msg.Content) >= 6 && msg.Content[:6] == "[STOP]"]. *)
Definition isStopResult (msg : Message) : bool :=
  String.eqb (Role msg) Tool && has_stop_prefix (Content msg).

(** The single pass of the list branch over its input; a [nil] entry is
    skipped, a [STOP]-marked tool result returns at once. *)
Fixpoint branchLoop (input : list (option Message))
    (hasToolCall hasToolResult : bool) : string :=
  match input with
  | [] =>
      if hasToolCall then NodeLLM
      else if hasToolResult then NodeLLM
      else END
  | None :: rest => branchLoop rest hasToolCall hasToolResult
  | Some msg :: rest =>
      if isStopResult msg then END
      else
        branchLoop rest
          (if hasToolCalls msg then true else hasToolCall)
          (if String.eqb (Role msg) Tool then true else hasToolResult)
  end.

(** The branch after [tool_call_result] of [CreateLlmTtsGraph]. *)
Definition afterToolCallBranchCondition (input : list (option Message)) : string :=
  branchLoop input false false.

(** The same branch in the earlier [RunEinoGraph]. *)
Definition branchCondition (input : list (option Message)) : string :=
  branchLoop input false false.

(** The edges added by [CreateLlmTtsGraph], in the order of the source. *)
Definition graphEdges : list (string * string) :=
  [ (START, NodeChatTemplate);
    (NodeChatTemplate, NodeLLM);
    (NodeLLM, NodeLLMSentence);
    (NodeLLMSentence, NodeTTS);
    (NodeTTS, NodeTTS2Client);
    (NodeToolCall, NodeToolCallResult);
    (NodeLLMSentenceCollect, NodePassThrough2);
    (NodePassThrough2, END) ].

(** The nodes entered after [node] has produced its output: the targets of
    its edges, and the node its branch (if any) picks. *)
Definition edgeTargets (node : string) : list string :=
  map snd (filter (fun e => String.eqb (fst e) node = true) graphEdges).

Definition afterToolCallResult (output : list (option Message)) : list string :=
  edgeTargets NodeToolCallResult ++ [afterToolCallBranchCondition output].

(** ** chat: the tool-call-result node *)

Section ToolCallResult.
(** Tools are an interface of package [mcp]; [processToolCallResult]
    belongs to the LLM manager.  Both are taken as given:
    [processToolCallResult toolName content toolObj] returns
    [(processedResult, shouldStop)]. *)
Context {InvokableTool : Type}.
Variable processToolCallResult : string -> string -> InvokableTool -> string * bool.

(** One tool-result message whose tool call and tool were found. *)
Definition processResult (toolObj : InvokableTool) (toolName : string)
    (msg : Message) : Message :=
  let '(processedResult, shouldStop) :=
    processToolCallResult toolName (Content msg) toolObj in
  let processedMsg := mkMessage Tool processedResult [] [] (ToolCallID msg) in
  if shouldStop
  then mkMessage (Role processedMsg) ("[STOP]" +:+ Content processedMsg)
         (MultiContent processedMsg) (ToolCalls processedMsg)
         (ToolCallID processedMsg)
  else processedMsg.

(** [toolCallResultHandler] of [CreateLlmTtsGraph].  [mcpTools] is what
    [mcp.GetToolsByDeviceId] returned (the empty map when it failed); a
    map entry may hold a nil tool.  [toolCallMap] is created empty and
    nothing in this version stores into it. *)
Fixpoint toolCallResultLoop (mcpTools : gmap string (option InvokableTool))
    (toolCallMap : gmap string ToolCall)
    (input : list (option Message)) (messages : list (option Message))
    : list (option Message) :=
  match input with
  | [] => messages
  | None :: rest => toolCallResultLoop mcpTools toolCallMap rest messages
  | Some msg :: rest =>
      if String.eqb (Role msg) Tool && negb (String.eqb (ToolCallID msg) "") then
        match toolCallMap !! ToolCallID msg with
        | None => toolCallResultLoop mcpTools toolCallMap rest messages
        | Some toolCall =>
            let toolName := fn_Name (tc_Function toolCall) in
            match mcpTools !! toolName with
            | Some (Some toolObj) =>
                toolCallResultLoop mcpTools toolCallMap rest
                  (messages ++ [Some (processResult toolObj toolName msg)])
            | _ => toolCallResultLoop mcpTools toolCallMap rest messages
            end
        end
      else toolCallResultLoop mcpTools toolCallMap rest (messages ++ [Some msg])
  end.

Definition toolCallResultHandler (mcpTools : gmap string (option InvokableTool))
    (input : list (option Message)) : list (option Message) :=
  toolCallResultLoop mcpTools ∅ input [].

(** [toolCallResultTransform] of the earlier [RunEinoGraph]: a message
    with tool calls records them in [toolCallMap] and passes through; a
    tool result whose call or tool is unknown passes through as it is.
    The messages are written to a pipe in this order. *)
Fixpoint toolCallResultTransformLoop (mcpTools : gmap string (option InvokableTool))
    (toolCallMap : gmap string ToolCall)
    (input : list (option Message)) (sent : list (option Message))
    : list (option Message) :=
  match input with
  | [] => sent
  | None :: rest => toolCallResultTransformLoop mcpTools toolCallMap rest sent
  | Some msg :: rest =>
      if hasToolCalls msg then
        let toolCallMap' :=
          foldl (fun m tc => <[tc_ID tc := tc]> m) toolCallMap (ToolCalls msg) in
        toolCallResultTransformLoop mcpTools toolCallMap' rest (sent ++ [Some msg])
      else if String.eqb (Role msg) Tool && negb (String.eqb (ToolCallID msg) "") then
        match toolCallMap !! ToolCallID msg with
        | None => toolCallResultTransformLoop mcpTools toolCallMap rest (sent ++ [Some msg])
        | Some toolCall =>
            let toolName := fn_Name (tc_Function toolCall) in
            match mcpTools !! toolName with
            | Some (Some toolObj) =>
                toolCallResultTransformLoop mcpTools toolCallMap rest
                  (sent ++ [Some (processResult toolObj toolName msg)])
            | _ => toolCallResultTransformLoop mcpTools toolCallMap rest (sent ++ [Some msg])
            end
        end
      else toolCallResultTransformLoop mcpTools toolCallMap rest (sent ++ [Some msg])
  end.

Definition toolCallResultTransform (mcpTools : gmap string (option InvokableTool))
    (input : list (option Message)) : list (option Message) :=
  toolCallResultTransformLoop mcpTools ∅ input [].
End ToolCallResult.

(** ** chat: the stream post-handler of the LLM node *)

(** How a stream ends: [io.EOF] or another error. *)
Inductive StreamEnd :=
| EOF
| RecvError (err : string).

(** What [out.Recv()] yields, call after call. *)
Record StreamReader := mkStreamReader {
  chunks : list Message;
  ending : StreamEnd
}.

Inductive PostHandlerResult :=
| Returned (outputReader : list Message) (history : list Message)
| Failed (err : string) (history : list Message)
| Cancelled (history : list Message)
| BlockedOnSend (history : list Message).

(** [schema.Pipe[*schema.Message](10)]: a channel buffered for ten items.
    The reader end is handed out only by the final [return], so a [Send]
    that finds the buffer full has no receiver to wait for. *)
Definition pipeCapacity : nat := 10.

(** The zero value of [schema.Message]. *)
Definition zeroMessage : Message := mkMessage "" "" [] [] "".

(** The update of [finalMsg] by one chunk. *)
Definition aggregate (finalMsg msg : Message) : Message :=
  if String.eqb (Role msg) Assistant then
    mkMessage (Role finalMsg)
      (if String.eqb (Content msg) "" then Content finalMsg
       else Content finalMsg +:+ Content msg)
      (MultiContent finalMsg)
      (ToolCalls finalMsg ++ ToolCalls msg)
      (ToolCallID finalMsg)
  else finalMsg.

(** [finalMsg.Content != "" || len(finalMsg.ToolCalls) > 0]. *)
Definition worthRecording (finalMsg : Message) : bool :=
  negb (String.eqb (Content finalMsg) "") || hasToolCalls finalMsg.

(** The loop of the handler.  [ctxDoneAfter] is the number of loop
    iterations that still find the context alive ([None]: it is never
    cancelled); [pipe] is what has been sent so far. *)
Fixpoint postHandlerLoop (chunks : list Message) (ending : StreamEnd)
    (ctxDoneAfter : option nat) (pipe : list Message) (finalMsg : Message)
    (history : list Message) : PostHandlerResult :=
  match ctxDoneAfter with
  | Some O => Cancelled history
  | _ =>
      match chunks with
      | [] =>
          match ending with
          | EOF =>
              if worthRecording finalMsg
              then Returned pipe
                     (history ++ [mkMessage Assistant (Content finalMsg)
                                    (MultiContent finalMsg) (ToolCalls finalMsg)
                                    (ToolCallID finalMsg)])
              else Returned pipe history
          | RecvError err => Failed err history
          end
      | msg :: rest =>
          let finalMsg' := aggregate finalMsg msg in
          if (length pipe <? pipeCapacity)%nat
          then postHandlerLoop rest ending (Nat.pred <$> ctxDoneAfter)
                 (pipe ++ [msg]) finalMsg' history
          else BlockedOnSend history
      end
  end.

(** [WithStreamStatePostHandler(func(ctx, out, state) ...)]; [history] is
    [state.history] on entry. *)
Definition streamStatePostHandler (out : StreamReader) (ctxDoneAfter : option nat)
    (history : list Message) : PostHandlerResult :=
  postHandlerLoop (chunks out) (ending out) ctxDoneAfter [] zeroMessage history.

(** The history a result leaves in the graph state. *)
Definition historyOf (r : PostHandlerResult) : list Message :=
  match r with
  | Returned _ h | Failed _ h | Cancelled h | BlockedOnSend h => h
  end.

(** ** TTS manager: channels, the ingestion loop and the pacer *)

(** An opus frame, [[]byte]. *)
Definition Frame : Type := list Z.

(** A buffered channel [make(chan []byte, capacity)]. *)
Record Chan := mkChan {
  queue : list Frame;
  capacity : nat;
  closed : bool
}.

Definition makeChan (capacity : nat) : Chan := mkChan [] capacity false.

(** [select { case c <- frame: ... default: ... }]: the send succeeds
    when the buffer has room and fails at once otherwise.  No receiver is
    parked on these channels when the buffer is full. *)
Definition trySend (c : Chan) (frame : Frame) : Chan * bool :=
  if (length (queue c) <? capacity c)%nat
  then (mkChan (queue c ++ [frame]) (capacity c) (closed c), true)
  else (c, false).

Definition closeChan (c : Chan) : Chan := mkChan (queue c) (capacity c) true.

(** A receive by the consumer of the channel. *)
Definition recvChan (c : Chan) : Chan * option Frame :=
  match queue c with
  | [] => (c, None)
  | frame :: rest => (mkChan rest (capacity c) (closed c), Some frame)
  end.

Inductive LogLine :=
| DebugMetaAudioChanFull       (* "metaAudioChan 已满，跳过帧" *)
| WarnFlowControlChanFull      (* "flowControlChan 已满，可能影响流控" *)
| DebugContextDone
| DebugAudioChanClosed.

Record Ingest := mkIngest {
  metaAudioChan : Chan;
  flowControlChan : Chan;
  logs : list LogLine;
  returned : bool
}.

(** The two non-blocking sends done for one frame read from [audioChan]. *)
Definition dispatchFrame (st : Ingest) (frame : Frame) : Ingest :=
  let '(meta, okMeta) := trySend (metaAudioChan st) frame in
  let logs1 := if okMeta then logs st else logs st ++ [DebugMetaAudioChanFull] in
  let '(flow, okFlow) := trySend (flowControlChan st) frame in
  let logs2 := if okFlow then logs1 else logs1 ++ [WarnFlowControlChanFull] in
  mkIngest meta flow logs2 (returned st).

(** What the main loop of [SendTTSAudio] can observe, and the one thing
    that can happen to its channels behind its back: the digital-human
    goroutine taking a frame.  (The pacer goroutine never receives, see
    [processFlowControl].) *)
Inductive IngestEvent :=
| FrameArrives (frame : Frame)
| AudioChanClosed
| ContextDone
| MetaHumanReceives.

Definition finishIngest (st : Ingest) (line : LogLine) : Ingest :=
  mkIngest (closeChan (metaAudioChan st)) (closeChan (flowControlChan st))
    (logs st ++ [line]) true.

Fixpoint ingestLoop (events : list IngestEvent) (st : Ingest) : Ingest :=
  match events with
  | [] => st
  | ev :: rest =>
      match ev with
      | ContextDone => finishIngest st DebugContextDone
      | AudioChanClosed => finishIngest st DebugAudioChanClosed
      | FrameArrives frame => ingestLoop rest (dispatchFrame st frame)
      | MetaHumanReceives =>
          ingestLoop rest
            (mkIngest (fst (recvChan (metaAudioChan st))) (flowControlChan st)
               (logs st) (returned st))
      end
  end.

(** The state in which the main loop of [SendTTSAudio] starts: both
    channels are made with room for 1000 frames. *)
Definition ingestStart : Ingest :=
  mkIngest (makeChan 1000) (makeChan 1000) [] false.

(** What the pacer does to the outside world. *)
Inductive PacerAction :=
| Sleep (duration : Z)
| SendAudio (n : Z) (at_ : Z) (frame : Frame)
| WgDone.

(** [time.Millisecond], in the nanoseconds of [time.Duration]. *)
Definition Millisecond : Z := 1000000.

(** What the pacer finds when it tries to receive: a frame, after
    [recvWait] ns, whose [SendAudio] then succeeds or fails; or a cancelled
    context.  [overSleep] is by how much a [time.Sleep] before this receive
    overshoots.  The channel being closed is the end of the list. *)
Inductive PacerStep :=
| TakeFrame (frame : Frame) (overSleep recvWait sendTook : Z) (sendOk : bool)
| SeesContextDone (overSleep : Z).

(** The head of one iteration: [nextFrameTime] is computed from the
    counter, and the pacer sleeps when the clock has not reached it.  The
    result is what it did and the clock afterwards. *)
Definition pacerWait (startTime frameDuration cacheFrameCount : Z)
    (now totalFrames overSleep : Z) : list PacerAction * Z :=
  let nextFrameTime := startTime + (totalFrames - cacheFrameCount) * frameDuration in
  if now <? nextFrameTime
  then ([Sleep (nextFrameTime - now)], nextFrameTime + overSleep)
  else ([], now).

(** The loop written after the [return] of [processFlowControl]: the
    absolute-time schedule.  [now] is the clock, [totalFrames] the counter
    shared with [SendTTSAudio]; [closeOverSleep] and [closeWait] are the
    delays of the last iteration, which finds the channel closed. *)
Fixpoint flowControlLoop (startTime frameDuration cacheFrameCount : Z)
    (steps : list PacerStep) (closeOverSleep closeWait : Z)
    (now totalFrames : Z) : list PacerAction * Z :=
  match steps with
  | [] =>
      let '(slept, now1) :=
        pacerWait startTime frameDuration cacheFrameCount now totalFrames closeOverSleep in
      let now2 := now1 + closeWait in
      let elapsed := now2 - startTime in
      let totalDuration := totalFrames * frameDuration in
      if totalDuration >? elapsed
      then (slept ++ [Sleep (totalDuration - elapsed)], totalFrames)
      else (slept, totalFrames)
  | SeesContextDone overSleep :: _ =>
      let '(slept, _) :=
        pacerWait startTime frameDuration cacheFrameCount now totalFrames overSleep in
      (slept, totalFrames)
  | TakeFrame frame overSleep recvWait sendTook sendOk :: rest =>
      let '(slept, now1) :=
        pacerWait startTime frameDuration cacheFrameCount now totalFrames overSleep in
      let now2 := now1 + recvWait in
      if sendOk then
        let '(acts, total) :=
          flowControlLoop startTime frameDuration cacheFrameCount rest
            closeOverSleep closeWait (now2 + sendTook) (totalFrames + 1) in
        (slept ++ SendAudio totalFrames now2 frame :: acts, total)
      else (slept, totalFrames)
  end.

(** The body that the early [return] makes unreachable. *)
Definition processFlowControl_unreachable (FrameDuration cacheFrameCount : Z)
    (steps : list PacerStep) (closeOverSleep closeWait : Z)
    (startTime totalFrames : Z) : list PacerAction * Z :=
  let frameDuration := FrameDuration * Millisecond in
  let '(acts, total) :=
    flowControlLoop startTime frameDuration cacheFrameCount steps
      closeOverSleep closeWait startTime totalFrames in
  (acts ++ [WgDone], total).

(** [processFlowControl] as it is written: [defer wg.Done()], then
    [return].  Nothing is received from [flowControlChan], nothing is sent
    to the client, [totalFrames] is left as it was. *)
Definition processFlowControl (FrameDuration cacheFrameCount : Z)
    (steps : list PacerStep) (closeOverSleep closeWait : Z)
    (startTime totalFrames : Z) : list PacerAction * Z :=
  ([WgDone], totalFrames).

(** The frames a run of the pacer hands to [serverTransport.SendAudio]. *)
Definition framesSent (acts : list PacerAction) : list (Z * Z * Frame) :=
  omap (fun a => match a with SendAudio n t f => Some (n, t, f) | _ => None end) acts.

Definition sleeps (acts : list PacerAction) : list Z :=
  omap (fun a => match a with Sleep d => Some d | _ => None end) acts.

(** ** unicode/utf8 and encoding/json, as far as the store relies on them *)

(** The value of a byte of a string. *)
Definition byteOf (c : ascii) : Z := Z.of_N (N_of_ascii c).

Definition RuneError : Z := 65533.
Definition RuneSelf : Z := 128.

(** The tables [first] and [acceptRanges] of package [unicode/utf8]: what
    a leading byte announces.  [LeadByte size lo hi] starts an encoding
    of [size] bytes whose second byte lies in [lo .. hi]. *)
Inductive FirstByte :=
| AsciiByte
| InvalidByte
| LeadByte (size : nat) (lo hi : Z).

Definition first (s0 : Z) : FirstByte :=
  if s0 <? 128 then AsciiByte
  else if s0 <? 194 then InvalidByte
  else if s0 <? 224 then LeadByte 2 128 191
  else if s0 =? 224 then LeadByte 3 160 191
  else if s0 <? 237 then LeadByte 3 128 191
  else if s0 =? 237 then LeadByte 3 128 159
  else if s0 <? 240 then LeadByte 3 128 191
  else if s0 =? 240 then LeadByte 4 144 191
  else if s0 <? 244 then LeadByte 4 128 191
  else if s0 =? 244 then LeadByte 4 128 143
  else InvalidByte.

(** A continuation byte: [locb <= b <= hicb]. *)
Definition isContinuation (b : Z) : bool := (128 <=? b) && (b <=? 191).

(** [utf8.DecodeRuneInString(s)]: the rune and its width.  A string that
    ends before the announced width ([n < sz] in the source) and a byte
    out of its range both give [(RuneError, 1)]. *)
Definition DecodeRuneInString (s : string) : Z * nat :=
  match s with
  | EmptyString => (RuneError, 0%nat)
  | String c0 rest0 =>
      let s0 := byteOf c0 in
      match first s0 with
      | AsciiByte => (s0, 1%nat)
      | InvalidByte => (RuneError, 1%nat)
      | LeadByte sz lo hi =>
          match rest0 with
          | EmptyString => (RuneError, 1%nat)
          | String c1 rest1 =>
              let s1 := byteOf c1 in
              if (s1 <? lo) || (hi <? s1) then (RuneError, 1%nat) else
              if (sz <=? 2)%nat
              then (Z.lor (Z.shiftl (Z.land s0 31) 6) (Z.land s1 63), 2%nat)
              else
                match rest1 with
                | EmptyString => (RuneError, 1%nat)
                | String c2 rest2 =>
                    let s2 := byteOf c2 in
                    if negb (isContinuation s2) then (RuneError, 1%nat) else
                    if (sz <=? 3)%nat
                    then (Z.lor (Z.lor (Z.shiftl (Z.land s0 15) 12)
                                   (Z.shiftl (Z.land s1 63) 6))
                            (Z.land s2 63), 3%nat)
                    else
                      match rest2 with
                      | EmptyString => (RuneError, 1%nat)
                      | String c3 _ =>
                          let s3 := byteOf c3 in
                          if negb (isContinuation s3) then (RuneError, 1%nat) else
                          (Z.lor (Z.lor (Z.lor (Z.shiftl (Z.land s0 7) 18)
                                           (Z.shiftl (Z.land s1 63) 12))
                                    (Z.shiftl (Z.land s2 63) 6))
                             (Z.land s3 63), 4%nat)
                      end
                end
          end
      end
  end.

(** The decoder has met a byte that starts no well-formed encoding. *)
Definition isInvalidRune (decoded : Z * nat) : bool :=
  (fst decoded =? RuneError) && (snd decoded =? 1)%nat.

(** [utf8.ValidString(s)].  [skip] counts the bytes of the rune decoded
    last that are still to be passed over. *)
Fixpoint validLoop (s : string) (skip : nat) : bool :=
  match s with
  | EmptyString => true
  | String c rest =>
      match skip with
      | S k => validLoop rest k
      | O =>
          if byteOf c <? RuneSelf then validLoop rest 0
          else if isInvalidRune (DecodeRuneInString s) then false
          else validLoop rest (snd (DecodeRuneInString s) - 1)
      end
  end.

Definition ValidString (s : string) : bool := validLoop s 0.

(** U+FFFD in UTF-8: the bytes EF BF BD. *)
Definition replacementCharacter : string :=
  String (ascii_of_nat 239) (String (ascii_of_nat 191) (String (ascii_of_nat 189) "")).

(** The value of the JSON string that [json.Marshal] writes for a Go
    string (the loop of [appendString]), and likewise the Go string that
    [json.Unmarshal] reads from a JSON string (the loop of [unquote]):
    the escapes that the one writes the other undoes, and every byte at
    which the decoder reports [(RuneError, 1)] is replaced by U+FFFD. *)
Fixpoint jsonStringLoop (s : string) (skip : nat) : string :=
  match s with
  | EmptyString => EmptyString
  | String c rest =>
      match skip with
      | S k => String c (jsonStringLoop rest k)
      | O =>
          if byteOf c <? RuneSelf then String c (jsonStringLoop rest 0)
          else if isInvalidRune (DecodeRuneInString s)
          then replacementCharacter +:+ jsonStringLoop rest 0
          else String c (jsonStringLoop rest (snd (DecodeRuneInString s) - 1))
      end
  end.

Definition jsonString (s : string) : string := jsonStringLoop s 0.

(** A value of type [interface{}] as this package builds and reads it.
    A [map[string]interface{}] is the list of its entries, whose keys are
    pairwise different.  A [float64] occurs in nothing the package writes
    and is left out. *)
#[local] Set Warnings "-register-all".
Inductive Any :=
| AString (s : string)
| ABool (b : bool)
| AMap (m : list (string * Any))
| AArray (l : list Any)
| ANil.

(** A JSON document, as a jsonb column holds it. *)
Inductive Json :=
| JNull
| JBool (b : bool)
| JString (s : string)
| JArray (l : list Json)
| JObject (members : list (string * Json)).

(** [m[key]] on a [map[string]interface{}]. *)
Fixpoint mapGet (key : string) (m : list (string * Any)) : option Any :=
  match m with
  | [] => None
  | (k, v) :: rest => if String.eqb k key then Some v else mapGet key rest
  end.

(** [m[key] = v]. *)
Fixpoint mapSet (key : string) (v : Any) (m : list (string * Any)) : list (string * Any) :=
  match m with
  | [] => [(key, v)]
  | (k, x) :: rest =>
      if String.eqb k key then (k, v) :: rest else (k, x) :: mapSet key v rest
  end.

(** [v, ok := x.(string)]. *)
Definition asString (x : option Any) : option string :=
  match x with Some (AString s) => Some s | _ => None end.

(** The members of an object in the order in which [json.Marshal] writes
    a map: sorted by key. *)
Fixpoint insertMember (member : string * Json) (sorted : list (string * Json))
    : list (string * Json) :=
  match sorted with
  | [] => [member]
  | m :: rest =>
      if String.leb (fst member) (fst m) then member :: sorted
      else m :: insertMember member rest
  end.

Definition sortMembers (members : list (string * Json)) : list (string * Json) :=
  foldr insertMember [] members.

(** [json.Marshal(v)]: keys are sorted as they stand and written, like
    every string, by [appendString]. *)
Fixpoint Marshal (v : Any) : Json :=
  match v with
  | ANil => JNull
  | ABool b => JBool b
  | AString s => JString (jsonString s)
  | AArray l => JArray (Marshal <$> l)
  | AMap m =>
      JObject ((fun member => (jsonString (fst member), snd member))
                 <$> sortMembers ((fun entry => (fst entry, Marshal (snd entry))) <$> m))
  end.

(** [json.Unmarshal] into an [interface{}]: of two members with one
    name the later one stays. *)
Fixpoint Unmarshal (j : Json) : Any :=
  match j with
  | JNull => ANil
  | JBool b => ABool b
  | JString s => AString (jsonString s)
  | JArray l => AArray (Unmarshal <$> l)
  | JObject members =>
      AMap (foldl (fun m entry => mapSet (fst entry) (snd entry) m) []
              ((fun member => (jsonString (fst member), Unmarshal (snd member)))
                 <$> members))
  end.

(** [JSONBArray], a [[]interface{}]; the empty list stands for nil,
    and the code only looks at length and elements. *)
Definition JSONBArray : Type := list Any.

(** [JSONBArray.Value]: nil gives NULL. *)
Definition JSONBArray_Value (j : JSONBArray) : option Json :=
  match j with
  | [] => None
  | _ :: _ => Some (JArray (Marshal <$> j))
  end.

(** [JSONBArray.Scan]: NULL gives nil; a document that is no array (and
    not [null]) cannot be unmarshalled into the slice. *)
Definition JSONBArray_Scan (value : option Json) : option JSONBArray :=
  match value with
  | None => Some []
  | Some JNull => Some []
  | Some (JArray l) => Some (Unmarshal <$> l)
  | Some _ => None
  end.

(** ** pg_memory: the database *)

(** What a statement can fail with. *)
Inductive DbError :=
| ContextErr                    (* [ctx.Err()]: the context is done *)
| ServerFault (text : string)   (* connection or server, see [Faults] *)
| InvalidByteSequence           (* a text value is not UTF-8 or holds a zero byte *)
| UnsupportedUnicodeEscape      (* a jsonb value holds the escape of a zero byte *)
| ValueTooLong                  (* [varchar(n)] *)
| DuplicateKey                  (* a unique index *)
| ScanFailed.                   (* a column cannot be scanned into its field *)

(** An [error] of the package: a database error, wrapped by
    [fmt.Errorf(prefix + ": %w", err)] any number of times. *)
Inductive Error :=
| DbFailure (e : DbError)
| Errorf (prefix : string) (err : Error).

(** A [context.Context] as the statements of one call see it:
    [Some k] is done from the call's statement [k] on (and stays done),
    [None] stays alive.  The statements of a function are numbered from 0
    in the order of the source. *)
Definition Context : Type := option nat.

Definition background : Context := None.

Definition ctxDone (ctx : Context) (k : nat) : bool :=
  match ctx with
  | Some n => (n <=? k)%nat
  | None => false
  end.

(** What the connection or the server does to the statements of one
    call apart from what context, tables and column types decide: the
    text of the error with which statement [k] fails, if it does. *)
Definition Faults : Type := nat -> option string.

Definition noFaults : Faults := fun _ => None.

(** A statement is not carried out at all. *)
Definition stmtError (ctx : Context) (faults : Faults) (k : nat) : option DbError :=
  if ctxDone ctx k then Some ContextErr else ServerFault <$> faults k.

(** *** Values as PostgreSQL takes them (a database in encoding UTF8) *)

Fixpoint hasZeroByte (s : string) : bool :=
  match s with
  | EmptyString => false
  | String c rest => (byteOf c =? 0) || hasZeroByte rest
  end.

(** A text value is taken when it is well-formed UTF-8 without a zero
    byte. *)
Definition pgText (s : string) : bool := ValidString s && negb (hasZeroByte s).

(** The number of characters of well-formed UTF-8: its bytes other than
    continuation bytes. *)
Fixpoint charLength (s : string) : nat :=
  match s with
  | EmptyString => 0%nat
  | String c rest =>
      if isContinuation (byteOf c) then charLength rest else S (charLength rest)
  end.

Fixpoint allSpaces (s : string) : bool :=
  match s with
  | EmptyString => true
  | String c rest => Ascii.eqb c " " && allSpaces rest
  end.

(** Storing a text value into a [varchar(n)] column: a value of more
    than [n] characters is refused, unless the characters in excess are
    all spaces, in which case they are cut off. *)
Definition pgVarchar (n : nat) (s : string) : string + DbError :=
  if (charLength s <=? n)%nat then inl s else
  let cut := (String.length s - (charLength s - n))%nat in
  if allSpaces (slice_from cut s) then inl (slice_to cut s) else inr ValueTooLong.

(** A jsonb value is taken when no string or name in it holds a zero
    byte, which [json.Marshal] writes as an escape that jsonb cannot
    keep.  (jsonb orders the members of an object anew; with the names
    pairwise different this changes nothing that [Unmarshal] returns.) *)
Fixpoint jsonHasZeroByte (j : Json) : bool :=
  match j with
  | JNull => false
  | JBool _ => false
  | JString s => hasZeroByte s
  | JArray l => existsb jsonHasZeroByte l
  | JObject members =>
      existsb (fun member => hasZeroByte (fst member) || jsonHasZeroByte (snd member))
        members
  end.

Definition pgJsonb (value : option Json) : bool :=
  match value with
  | None => true
  | Some j => negb (jsonHasZeroByte j)
  end.

(** Sequencing of checks that can fail. *)
Definition andThen {A B : Type} (r : A + DbError) (k : A -> B + DbError) : B + DbError :=
  match r with
  | inl a => k a
  | inr e => inr e
  end.

#[local] Notation "'bind' x ':=' r 'in' k" := (andThen r (fun x => k))
  (at level 10, x name, r at level 100, k at level 200, only parsing).

Definition ensure (ok : bool) (e : DbError) : unit + DbError :=
  if ok then inl tt else inr e.

(** *** The tables *)

(** [ConversationSession], also as a row of [conversation_sessions]. *)
Record ConversationSession := mkSession {
  cs_SessionID : string;
  cs_DeviceID : string;
  cs_AgentID : string;
  cs_Status : string;
  cs_StartedAt : Z
}.

(** The Go struct [ConversationMessage]. *)
Record ConversationMessage := mkConversationMessage {
  cm_SessionID : string;
  cm_DeviceID : string;
  cm_MessageID : string;
  cm_SequenceNum : Z;
  cm_Role : string;
  cm_Content : string;
  cm_MultiContent : JSONBArray;
  cm_ToolCalls : JSONBArray;
  cm_ToolCallID : string;
  cm_CreatedAt : Z
}.

(** A row of [conversation_messages]; the serial primary key is left to
    the database and not kept here.  Instants are in the resolution of
    the column. *)
Record MessageRow := mkRow {
  col_session_id : string;
  col_device_id : string;
  col_message_id : string;
  col_sequence_num : Z;
  col_role : string;
  col_content : string;
  col_multi_content : option Json;
  col_tool_calls : option Json;
  col_tool_call_id : string;
  col_created_at : Z
}.

(** The two tables, rows in insertion order. *)
Record DB := mkDB {
  conversation_sessions : list ConversationSession;
  conversation_messages : list MessageRow
}.

Definition emptyDB : DB := mkDB [] [].

(** The row that an INSERT of a session stores: the parameters are
    checked when they are bound, the lengths when the row is formed. *)
Definition pgSessionRow (s : ConversationSession) : ConversationSession + DbError :=
  bind _ := ensure (pgText (cs_SessionID s)) InvalidByteSequence in
  bind _ := ensure (pgText (cs_DeviceID s)) InvalidByteSequence in
  bind _ := ensure (pgText (cs_AgentID s)) InvalidByteSequence in
  bind _ := ensure (pgText (cs_Status s)) InvalidByteSequence in
  bind sessionID := pgVarchar 64 (cs_SessionID s) in
  bind deviceID := pgVarchar 128 (cs_DeviceID s) in
  bind agentID := pgVarchar 128 (cs_AgentID s) in
  bind status := pgVarchar 20 (cs_Status s) in
  inl (mkSession sessionID deviceID agentID status (cs_StartedAt s)).

(** The row that an INSERT of a message stores; the jsonb columns hold
    what [JSONBArray.Value] returns. *)
Definition pgMessageRow (m : ConversationMessage) : MessageRow + DbError :=
  let multiContent := JSONBArray_Value (cm_MultiContent m) in
  let toolCalls := JSONBArray_Value (cm_ToolCalls m) in
  bind _ := ensure (pgText (cm_SessionID m)) InvalidByteSequence in
  bind _ := ensure (pgText (cm_DeviceID m)) InvalidByteSequence in
  bind _ := ensure (pgText (cm_MessageID m)) InvalidByteSequence in
  bind _ := ensure (pgText (cm_Role m)) InvalidByteSequence in
  bind _ := ensure (pgText (cm_Content m)) InvalidByteSequence in
  bind _ := ensure (pgJsonb multiContent) UnsupportedUnicodeEscape in
  bind _ := ensure (pgJsonb toolCalls) UnsupportedUnicodeEscape in
  bind _ := ensure (pgText (cm_ToolCallID m)) InvalidByteSequence in
  bind sessionID := pgVarchar 64 (cm_SessionID m) in
  bind deviceID := pgVarchar 128 (cm_DeviceID m) in
  bind messageID := pgVarchar 64 (cm_MessageID m) in
  bind role := pgVarchar 20 (cm_Role m) in
  bind toolCallID := pgVarchar 64 (cm_ToolCallID m) in
  inl (mkRow sessionID deviceID messageID (cm_SequenceNum m) role (cm_Content m)
         multiContent toolCalls toolCallID (cm_CreatedAt m)).

(** The struct that [Find] fills from a row. *)
Definition scanRow (row : MessageRow) : option ConversationMessage :=
  match JSONBArray_Scan (col_multi_content row), JSONBArray_Scan (col_tool_calls row) with
  | Some multiContent, Some toolCalls =>
      Some (mkConversationMessage (col_session_id row) (col_device_id row) (col_message_id row)
              (col_sequence_num row) (col_role row) (col_content row) multiContent toolCalls
              (col_tool_call_id row) (col_created_at row))
  | _, _ => None
  end.

(** A statement with text parameters is not carried out, or refused
    when the parameters are bound. *)
Definition queryError (ctx : Context) (faults : Faults) (k : nat)
    (params : list string) : option DbError :=
  match stmtError ctx faults k with
  | Some e => Some e
  | None => if forallb pgText params then None else Some InvalidByteSequence
  end.

(** [WHERE session_id = ?] on [conversation_messages]. *)
Definition messagesOf (sessionID : string) (db : DB) : list MessageRow :=
  filter (fun row => col_session_id row = sessionID) (conversation_messages db).

Definition sequenceNums (sessionID : string) (db : DB) : list Z :=
  col_sequence_num <$> messagesOf sessionID db.

(** [MAX(sequence_num)]: NULL over no rows. *)
Definition sqlMax (l : list Z) : option Z :=
  match l with
  | [] => None
  | x :: rest => Some (foldl Z.max x rest)
  end.

(** [COALESCE(MAX(sequence_num), 0)] over the rows of a session. *)
Definition maxSequenceNum (sessionID : string) (db : DB) : Z :=
  default 0 (sqlMax (sequenceNums sessionID db)).

(** ** pg_memory: AddMessage *)

(** [p.db.WithContext(ctx).Create(newSession).Error], statement 1 of
    [AddMessage]; [session_id] has a unique index. *)
Definition createSession (ctx : Context) (faults : Faults) (db : DB)
    (newSession : ConversationSession) : DB * option DbError :=
  match stmtError ctx faults 1 with
  | Some e => (db, Some e)
  | None =>
      match pgSessionRow newSession with
      | inr e => (db, Some e)
      | inl row =>
          if decide (cs_SessionID row ∈ cs_SessionID <$> conversation_sessions db)
          then (db, Some DuplicateKey)
          else (mkDB (conversation_sessions db ++ [row]) (conversation_messages db), None)
      end
  end.

(** [ensureSession]: statement 0 looks the session up; when no row has
    this [session_id] the session is created. *)
Definition ensureSession (ctx : Context) (faults : Faults) (db : DB)
    (sessionID deviceID agentID : string) (now : Z) : DB * option Error :=
  match queryError ctx faults 0 [sessionID] with
  | Some e => (db, Some (Errorf "failed to query session" (DbFailure e)))
  | None =>
      if decide (sessionID ∈ cs_SessionID <$> conversation_sessions db)
      then (db, None)
      else
        match createSession ctx faults db (mkSession sessionID deviceID agentID "active" now) with
        | (db', Some e) => (db', Some (Errorf "failed to create session" (DbFailure e)))
        | (db', None) => (db', None)
        end
  end.

(** [SELECT COALESCE(MAX(sequence_num), 0) ... Scan(&maxSeq)], statement
    2: the error of the statement is not looked at, so that [maxSeq]
    keeps its zero value when the statement fails. *)
Definition selectMaxSeq (ctx : Context) (faults : Faults) (sessionID : string) (db : DB) : Z :=
  match queryError ctx faults 2 [sessionID] with
  | Some _ => 0
  | None => maxSequenceNum sessionID db
  end.

(** The [multiContent] and [toolCalls] arrays that [AddMessage] builds. *)
Definition encodeMultiContent (parts : list (string * string)) : JSONBArray :=
  (fun c => AMap [("type", AString (fst c)); ("text", AString (snd c))]) <$> parts.

Definition encodeToolCalls (toolCalls : list ToolCall) : JSONBArray :=
  (fun tc =>
     AMap [("id", AString (tc_ID tc));
           ("type", AString (tc_Type tc));
           ("function",
            AMap [("name", AString (fn_Name (tc_Function tc)));
                  ("arguments", AString (fn_Arguments (tc_Function tc)))])])
    <$> toolCalls.

(** The [message] that [AddMessage] builds, given the [maxSeq] it read;
    [SequenceNum] is an [int64]. *)
Definition buildMessage (sessionID deviceID uuid : string) (maxSeq : Z)
    (msg : Message) (now : Z) : ConversationMessage :=
  mkConversationMessage sessionID deviceID uuid (int64 (maxSeq + 1)) (Role msg)
    (Content msg) (encodeMultiContent (MultiContent msg))
    (encodeToolCalls (ToolCalls msg)) (ToolCallID msg) now.

(** [p.db.WithContext(ctx).Create(message).Error], statement 3;
    [message_id] has a unique index. *)
Definition createMessage (ctx : Context) (faults : Faults) (db : DB)
    (message : ConversationMessage) : DB * option DbError :=
  match stmtError ctx faults 3 with
  | Some e => (db, Some e)
  | None =>
      match pgMessageRow message with
      | inr e => (db, Some e)
      | inl row =>
          if decide (col_message_id row ∈ col_message_id <$> conversation_messages db)
          then (db, Some DuplicateKey)
          else (mkDB (conversation_sessions db) (conversation_messages db ++ [row]), None)
      end
  end.

(** [AddMessage(ctx, agentID, msg)].  [uuid] is what [uuid.New().String()]
    returns in this call and [now] what [time.Now()] returns; the
    statements are run one after the other against the database, none of
    them inside a transaction. *)
Definition AddMessage (ctx : Context) (faults : Faults) (db : DB) (agentID : string)
    (msg : Message) (uuid : string) (now : Z) : DB * option Error :=
  let '(deviceID, sessionID) := parseAgentID agentID in
  match ensureSession ctx faults db sessionID deviceID agentID now with
  | (db1, Some err) => (db1, Some (Errorf "failed to ensure session" err))
  | (db1, None) =>
      let maxSeq := selectMaxSeq ctx faults sessionID db1 in
      match createMessage ctx faults db1
              (buildMessage sessionID deviceID uuid maxSeq msg now) with
      | (db2, Some e) => (db2, Some (Errorf "failed to create message" (DbFailure e)))
      | (db2, None) => (db2, None)
      end
  end.

(** One call of [AddMessage], as the caller and the database see it. *)
Record Append := mkAppend {
  ap_ctx : Context;
  ap_faults : Faults;
  ap_agentID : string;
  ap_msg : Message;
  ap_uuid : string;
  ap_now : Z
}.

Definition runAppend (db : DB) (c : Append) : DB * option Error :=
  AddMessage (ap_ctx c) (ap_faults c) db (ap_agentID c) (ap_msg c) (ap_uuid c) (ap_now c).

Definition addMessages (db : DB) (calls : list Append) : DB :=
  foldl (fun db c => fst (runAppend db c)) db calls.

(** *** Overlapping calls

    The add-message jobs are run by a pool of ten workers, so two calls
    can overlap.  A call in flight is between two of its statements. *)
Inductive Progress :=
| AtEnsureSession
| AtSelectMax
| AtCreate (maxSeq : Z)
| Finished (err : option Error).

Record Call := mkCall {
  call_args : Append;
  call_at : Progress
}.

Definition startCall (a : Append) : Call := mkCall a AtEnsureSession.

(** The next statement of a call, run against the database as it is
    now.  ([ensureSession] is taken as one step.) *)
Definition stepCall (db : DB) (c : Call) : DB * Call :=
  let a := call_args c in
  let '(deviceID, sessionID) := parseAgentID (ap_agentID a) in
  match call_at c with
  | AtEnsureSession =>
      match ensureSession (ap_ctx a) (ap_faults a) db sessionID deviceID
              (ap_agentID a) (ap_now a) with
      | (db', Some err) =>
          (db', mkCall a (Finished (Some (Errorf "failed to ensure session" err))))
      | (db', None) => (db', mkCall a AtSelectMax)
      end
  | AtSelectMax =>
      (db, mkCall a (AtCreate (selectMaxSeq (ap_ctx a) (ap_faults a) sessionID db)))
  | AtCreate maxSeq =>
      match createMessage (ap_ctx a) (ap_faults a) db
              (buildMessage sessionID deviceID (ap_uuid a) maxSeq (ap_msg a) (ap_now a)) with
      | (db', Some e) =>
          (db', mkCall a (Finished (Some (Errorf "failed to create message" (DbFailure e)))))
      | (db', None) => (db', mkCall a (Finished None))
      end
  | Finished _ => (db, c)
  end.

(** A schedule names, step after step, the call that runs next. *)
Fixpoint runSchedule (db : DB) (calls : list Call) (schedule : list nat) : DB * list Call :=
  match schedule with
  | [] => (db, calls)
  | i :: rest =>
      match calls !! i with
      | None => runSchedule db calls rest
      | Some c =>
          let '(db', c') := stepCall db c in
          runSchedule db' (<[i := c']> calls) rest
      end
  end.

(** ** pg_memory: the other operations of the store *)

(** [ResetMemory(ctx, agentID)]: statement 0 deletes the messages of the
    session, statement 1 sets the status of its session row to [reset]. *)
Definition ResetMemory (ctx : Context) (faults : Faults) (db : DB) (agentID : string)
    : DB * option Error :=
  let sessionID := snd (parseAgentID agentID) in
  match queryError ctx faults 0 [sessionID] with
  | Some e => (db, Some (Errorf "failed to delete messages" (DbFailure e)))
  | None =>
      let db1 :=
        mkDB (conversation_sessions db)
          (filter (fun row => col_session_id row <> sessionID) (conversation_messages db)) in
      match queryError ctx faults 1 [sessionID] with
      | Some e => (db1, Some (Errorf "failed to update session status" (DbFailure e)))
      | None =>
          (mkDB
             ((fun s =>
                 if decide (cs_SessionID s = sessionID)
                 then mkSession (cs_SessionID s) (cs_DeviceID s) (cs_AgentID s) "reset"
                        (cs_StartedAt s)
                 else s) <$> conversation_sessions db1)
             (conversation_messages db1),
           None)
      end
  end.

(** [CleanupOldMessages(ctx)].  [AddDate t days] stands for
    [t.AddDate(0, 0, days)] of package [time]; [now] is [time.Now()]. *)
Definition CleanupOldMessages (AddDate : Z -> Z -> Z) (MessageRetentionDays : Z)
    (ctx : Context) (faults : Faults) (now : Z) (db : DB) : DB * option Error :=
  if MessageRetentionDays <=? 0 then (db, None) else
  let cutoffTime := AddDate now (- MessageRetentionDays) in
  match stmtError ctx faults 0 with
  | Some e => (db, Some (DbFailure e))
  | None =>
      (mkDB (conversation_sessions db)
         (filter (fun row => ~ col_created_at row < cutoffTime) (conversation_messages db)),
       None)
  end.

(** [ORDER BY]: the rows sorted by a key.  SQL leaves the order of rows
    with equal keys open; this sort keeps them as they come. *)
Fixpoint insertBy (le : MessageRow -> MessageRow -> bool)
    (row : MessageRow) (sorted : list MessageRow) : list MessageRow :=
  match sorted with
  | [] => [row]
  | r :: rest => if le row r then row :: sorted else r :: insertBy le row rest
  end.

Definition orderBy (le : MessageRow -> MessageRow -> bool)
    (rows : list MessageRow) : list MessageRow :=
  foldr (insertBy le) [] rows.

(** [ORDER BY sequence_num ASC] and [ORDER BY sequence_num DESC]. *)
Definition sequenceAsc (a b : MessageRow) : bool := col_sequence_num a <=? col_sequence_num b.
Definition sequenceDesc (a b : MessageRow) : bool := col_sequence_num b <=? col_sequence_num a.

(** [Find(&messages)], statement 0 of a read: the rows are scanned into
    structs one after the other; a row that cannot be scanned fails the
    statement. *)
Definition find (ctx : Context) (faults : Faults) (params : list string)
    (rows : list MessageRow) : list ConversationMessage + DbError :=
  match queryError ctx faults 0 params with
  | Some e => inr e
  | None =>
      match mapM scanRow rows with
      | Some messages => inl messages
      | None => inr ScanFailed
      end
  end.

(** [GetSessionMessages(ctx, sessionID)]. *)
Definition GetSessionMessages (ctx : Context) (faults : Faults) (db : DB)
    (sessionID : string) : list ConversationMessage + Error :=
  match find ctx faults [sessionID] (orderBy sequenceAsc (messagesOf sessionID db)) with
  | inr e => inr (Errorf "failed to get session messages" (DbFailure e))
  | inl messages => inl messages
  end.

(** One element of the [MultiContent] loop of [convertToSchemaMessage]:
    an element that is not a map is skipped, a missing or ill-typed key
    leaves the zero value. *)
Definition decodePart (c : Any) : option (string * string) :=
  match c with
  | AMap contentMap =>
      Some (default "" (asString (mapGet "type" contentMap)),
            default "" (asString (mapGet "text" contentMap)))
  | _ => None
  end.

(** One element of its [ToolCalls] loop. *)
Definition decodeToolCall (tc : Any) : option ToolCall :=
  match tc with
  | AMap tcMap =>
      let fn :=
        match mapGet "function" tcMap with
        | Some (AMap fnMap) =>
            mkFunctionCall (default "" (asString (mapGet "name" fnMap)))
              (default "" (asString (mapGet "arguments" fnMap)))
        | _ => mkFunctionCall "" ""
        end in
      Some (mkToolCall (default "" (asString (mapGet "id" tcMap)))
              (default "" (asString (mapGet "type" tcMap))) fn)
  | _ => None
  end.

(** [convertToSchemaMessage(msg)]. *)
Definition convertToSchemaMessage (msg : ConversationMessage) : Message :=
  mkMessage (cm_Role msg) (cm_Content msg) (omap decodePart (cm_MultiContent msg))
    (omap decodeToolCall (cm_ToolCalls msg)) (cm_ToolCallID msg).

Section GetMessages.
(** What [Limit(count)] of the ORM does for a count that is not positive
    depends on its version and is left open. *)
Variable limitNotPositive : Z -> list MessageRow -> list MessageRow.

Definition sqlLimit (count : Z) (rows : list MessageRow) : list MessageRow :=
  if 0 <? count then take (Z.to_nat count) rows else limitNotPositive count rows.

(** [GetMessages(ctx, agentID, count)]: the newest [count] rows are
    fetched in descending order, converted, and written into the result
    back to front. *)
Definition GetMessages (ctx : Context) (faults : Faults) (db : DB) (agentID : string)
    (count : Z) : list Message + Error :=
  let sessionID := snd (parseAgentID agentID) in
  match find ctx faults [sessionID]
          (sqlLimit count (orderBy sequenceDesc (messagesOf sessionID db))) with
  | inr e => inr (Errorf "failed to get messages" (DbFailure e))
  | inl messages => inl (reverse (convertToSchemaMessage <$> messages))
  end.
End GetMessages.

(** A run of the store: appends, resets and clean-ups in any order, one
    call at a time. *)
Inductive MemoryOp :=
| DoAddMessage (a : Append)
| DoResetMemory (ctx : Context) (faults : Faults) (agentID : string)
| DoCleanupOldMessages (ctx : Context) (faults : Faults) (now : Z).

Definition runMemoryOp (AddDate : Z -> Z -> Z) (MessageRetentionDays : Z)
    (db : DB) (op : MemoryOp) : DB :=
  match op with
  | DoAddMessage a => fst (runAppend db a)
  | DoResetMemory ctx faults agentID => fst (ResetMemory ctx faults db agentID)
  | DoCleanupOldMessages ctx faults now =>
      fst (CleanupOldMessages AddDate MessageRetentionDays ctx faults now db)
  end.

Definition runMemoryOps (AddDate : Z -> Z -> Z) (MessageRetentionDays : Z)
    (db : DB) (ops : list MemoryOp) : DB :=
  foldl (runMemoryOp AddDate MessageRetentionDays) db ops.

(** ** The vocabulary of the properties *)

(** The number of frames of a window that the provider found active. *)
Definition countActive (verdicts : list bool) : Z :=
  len (filter (fun b => b = true) verdicts).

(** Some entry of the list is a [STOP]-marked tool result. *)
Definition anyStopResult (input : list (option Message)) : bool :=
  existsb (fun o => match o with Some msg => isStopResult msg | None => false end) input.

(** Some entry of the list carries tool calls or is a tool result. *)
Definition anyToolTraffic (input : list (option Message)) : bool :=
  existsb (fun o => match o with
                    | Some msg => hasToolCalls msg || String.eqb (Role msg) Tool
                    | None => false
                    end) input.

(** The condition in the words of the specification: some entry is a
    tool-call or tool-result message that is not [STOP]-marked. *)
Definition spec_anyUnstoppedToolTraffic (input : list (option Message)) : bool :=
  existsb (fun o => match o with
                    | Some msg =>
                        (hasToolCalls msg || String.eqb (Role msg) Tool)
                        && negb (isStopResult msg)
                    | None => false
                    end) input.

(** A message that is not a tool result with a call id. *)
Definition passesThrough (o : option Message) : bool :=
  match o with
  | Some msg => negb (String.eqb (Role msg) Tool && negb (String.eqb (ToolCallID msg) ""))
  | None => false
  end.

(** The chunks the handler aggregates: those of role assistant. *)
Definition assistantDeltas (deltas : list Message) : list Message :=
  filter (fun msg => Role msg = Assistant) deltas.

(** Their text, concatenated in stream order. *)
Definition textOf (deltas : list Message) : string :=
  foldr (fun msg acc => Content msg +:+ acc) "" (assistantDeltas deltas).

(** Their tool calls, concatenated in stream order. *)
Definition toolCallsOf (deltas : list Message) : list ToolCall :=
  concat (ToolCalls <$> assistantDeltas deltas).

(** The context stays alive for the [k + 1] iterations of the loop over
    [k] chunks. *)
Definition ctxAliveFor (ctxDoneAfter : option nat) (k : nat) : Prop :=
  match ctxDoneAfter with
  | None => True
  | Some n => (k < n)%nat
  end.

(** What the graph history gains when the stream ends in EOF. *)
Definition recorded (finalMsg : Message) : list Message :=
  if worthRecording finalMsg
  then [mkMessage Assistant (Content finalMsg) (MultiContent finalMsg)
          (ToolCalls finalMsg) (ToolCallID finalMsg)]
  else [].

(** The frames the loop reads from [audioChan] before it returns. *)
Fixpoint framesRead (events : list IngestEvent) : list Frame :=
  match events with
  | [] => []
  | FrameArrives frame :: rest => frame :: framesRead rest
  | MetaHumanReceives :: rest => framesRead rest
  | (AudioChanClosed | ContextDone) :: _ => []
  end.

(** The buffer of the channel is not full. *)
Definition hasRoom (c : Chan) : bool := (length (queue c) <? capacity c)%nat.

(** The [message_id] column. *)
Definition messageIDs (db : DB) : list string :=
  col_message_id <$> conversation_messages db.

(** The [session_id] column of [conversation_sessions]. *)
Definition sessionIDs (db : DB) : list string :=
  cs_SessionID <$> conversation_sessions db.

(** The sequence numbers of every session are 1, 2, ..., n. *)
Definition contiguous (db : DB) : Prop :=
  forall sessionID,
    sequenceNums sessionID db = seqZ 1 (len (messagesOf sessionID db)).

(** The delays of a step are not negative. *)
Definition stepDelaysOk (step : PacerStep) : Prop :=
  match step with
  | TakeFrame _ overSleep recvWait sendTook _ => 0 <= overSleep /\ 0 <= recvWait /\ 0 <= sendTook
  | SeesContextDone overSleep => 0 <= overSleep
  end.


(** ** The vocabulary of the store properties *)

(** The session keys of the store have at most 64 characters, and every
    message belongs to a session that has a row. *)
Definition sessionsSound (db : DB) : Prop :=
  Forall (fun sessionID => (charLength sessionID <= 64)%nat) (sessionIDs db) /\
  Forall (fun row => col_session_id row ∈ sessionIDs db) (conversation_messages db).

(** Connection and server answer the call's query for the maximum. *)
Definition maxQueryAnswered (c : Append) : Prop := ap_faults c 2%nat = None.

(** The strings of a message as a jsonb column returns them. *)
Definition jsonParts (parts : list (string * string)) : list (string * string) :=
  (fun c => (jsonString (fst c), jsonString (snd c))) <$> parts.

Definition jsonToolCalls (toolCalls : list ToolCall) : list ToolCall :=
  (fun tc =>
     mkToolCall (jsonString (tc_ID tc)) (jsonString (tc_Type tc))
       (mkFunctionCall (jsonString (fn_Name (tc_Function tc)))
          (jsonString (fn_Arguments (tc_Function tc))))) <$> toolCalls.

(** The strings of the parts and tool calls of a message are UTF-8. *)
Definition validPart (c : string * string) : Prop :=
  ValidString (fst c) = true /\ ValidString (snd c) = true.

Definition validToolCall (tc : ToolCall) : Prop :=
  ValidString (tc_ID tc) = true /\ ValidString (tc_Type tc) = true /\
  ValidString (fn_Name (tc_Function tc)) = true /\
  ValidString (fn_Arguments (tc_Function tc)) = true.

(** The state in which appends that do not overlap keep the store. *)
Definition storeSound (db : DB) : Prop := contiguous db /\ sessionsSound db.

(** The sequence numbers of every session grow strictly in insertion
    order and start above zero, and no message id occurs twice. *)
Definition wellNumbered (db : DB) : Prop :=
  (forall sessionID, StronglySorted Z.lt (sequenceNums sessionID db)) /\
  (forall sessionID, Forall (fun n => 1 <= n) (sequenceNums sessionID db)) /\
  NoDup (messageIDs db).

(** Connection and server answer the query for the maximum of every
    append of a run. *)
Definition opMaxQueryAnswered (op : MemoryOp) : Prop :=
  match op with
  | DoAddMessage a => maxQueryAnswered a
  | _ => True
  end.

(** Every row of the store can be scanned into its struct. *)
Definition scannable (db : DB) : Prop :=
  Forall (fun row => is_Some (scanRow row)) (conversation_messages db).

(** What a run of appends, resets and clean-ups keeps of the store;
    [bound] is at least every sequence number. *)
Definition storeKept (bound : Z) (db : DB) : Prop :=
  wellNumbered db /\ sessionsSound db /\ scannable db /\
  Forall (fun row => col_sequence_num row <= bound) (conversation_messages db).

(** A value as it comes back from a jsonb column. *)
Definition roundTrip (v : Any) : Any := Unmarshal (Marshal v).
(* ===================================================================== *)
(** * Part I, continued: the rest of the cited files *)
(* ===================================================================== *)

(** ** TTS manager: getAlignedDuration *)

(** [d.Milliseconds()] of a [time.Duration] [d] (nanoseconds). *)
Definition Milliseconds (d : Z) : Z := Z.quot d Millisecond.

(** [getAlignedDuration(startTime, frameDuration)]; [elapsed] is what
    [time.Since(startTime)] returns.  A frame duration below one
    millisecond divides by zero.  The arithmetic is that of [int64]: the
    last product leaves its range for an [elapsed] close to the largest
    duration. *)
Definition getAlignedDuration (elapsed frameDuration : Z) : option Z :=
  if Milliseconds frameDuration =? 0 then None else
  let alignedMs :=
    int64 (int64 (Z.quot (int64 (int64 (Milliseconds elapsed + Milliseconds frameDuration) - 1))
                    (Milliseconds frameDuration))
           * Milliseconds frameDuration) in
  Some (int64 (alignedMs * Millisecond)).

(** ** common: the sample conversions of ProcessVadAudio *)

(** The conversions [int16(x)], [int32(x)] and [byte(x)] of Go: the value
    is cut to the width and read back in two's complement. *)
Definition int16 (x : Z) : Z := (x + 32768) mod 65536 - 32768.
Definition int32 (x : Z) : Z := (x + 2147483648) mod 4294967296 - 2147483648.
Definition byte (x : Z) : Z := x mod 256.

(** The inner loop of [convertToMono],
    [for c := 0; c < channels; c++ { sum += int32(data[i*channels+c]) }]:
    [n] iterations are left, the next channel is [c].  An index out of
    range panics. *)
Fixpoint monoSum (data : list Z) (i channels : Z) (n : nat) (c : Z) (sum : Z) : option Z :=
  match n with
  | O => Some sum
  | S n' =>
      if (0 <=? i * channels + c) then
        match data !! Z.to_nat (i * channels + c) with
        | Some v => monoSum data i channels n' (c + 1) (int32 (sum + int32 v))
        | None => None
        end
      else None
  end.

(** The outer loop, [for i := 0; i < len(mono); i++]; the division
    [sum / int32(channels)] panics when the divisor is zero. *)
Fixpoint monoLoop (data : list Z) (channels : Z) (n : nat) (i : Z) : option (list Z) :=
  match n with
  | O => Some []
  | S n' =>
      match monoSum data i channels (Z.to_nat channels) 0 0 with
      | None => None
      | Some sum =>
          if int32 channels =? 0 then None else
          match monoLoop data channels n' (i + 1) with
          | None => None
          | Some rest => Some (int16 (Z.quot sum (int32 channels)) :: rest)
          end
      end
  end.

(** [convertToMono(data, channels)]; [None] is a panic (division by zero,
    a negative length for [make], an index out of range). *)
Definition convertToMono (data : list Z) (channels : Z) : option (list Z) :=
  if channels =? 1 then Some data else
  if channels =? 0 then None else
  let monoLen := Z.quot (len data) channels in
  if monoLen <? 0 then None else
  monoLoop data channels (Z.to_nat monoLen) 0.

(** [int16ToBytes(data)]: two bytes per sample, low byte first. *)
Definition int16ToBytes (data : list Z) : list Z :=
  data ≫= (fun v => [byte v; byte (Z.shiftr v 8)]).

(** ** common: RecvAudio *)

(** [OpusAudioBuffer: make(chan []byte, 100)] of [GenClientState]. *)
Definition newOpusAudioBuffer : Chan := makeChan 100.

(** [RecvAudio(clientState, data)]: the frame is queued when the buffer
    has room and dropped, with a warning, when it is full. *)
Definition RecvAudio (OpusAudioBuffer : Chan) (data : Frame) : Chan * bool :=
  trySend OpusAudioBuffer data.

(** A burst of frames from the transport reader, none of them taken out
    by the decoder in the meantime: the buffer afterwards and the results
    of the calls. *)
Fixpoint recvAudioBurst (OpusAudioBuffer : Chan) (frames : list Frame) : Chan * list bool :=
  match frames with
  | [] => (OpusAudioBuffer, [])
  | data :: rest =>
      let '(buffer, ok) := RecvAudio OpusAudioBuffer data in
      let '(buffer', oks) := recvAudioBurst buffer rest in
      (buffer', ok :: oks)
  end.

(** ** chat: the stream branch, the collecting nodes and the pre-handler *)

(** What a branch condition or a collecting node returns besides its
    value: no error, the error of the stream, or [ctx.Err()]. *)
Inductive NodeError :=
| NoError
| StreamError (err : string)
| ContextError.

(** The loop of [afterLlmSentenceBranchCondition] (and of
    [toolCallBranchCondition] in the earlier graph, up to the name of the
    second target): the stream is read to its end, a [nil] chunk is
    skipped, and the target is chosen after EOF.  On an error the target
    is the empty string. *)
Fixpoint streamBranchLoop (otherwise : string) (chunks : list (option Message))
    (ending : StreamEnd) (ctxDoneAfter : option nat) (hasToolCall : bool)
    : string * NodeError :=
  match ctxDoneAfter with
  | Some O => ("", ContextError)
  | _ =>
      match chunks with
      | [] =>
          match ending with
          | EOF => (if hasToolCall then NodeToolCall else otherwise, NoError)
          | RecvError err => ("", StreamError err)
          end
      | msg :: rest =>
          streamBranchLoop otherwise rest ending (Nat.pred <$> ctxDoneAfter)
            (match msg with
             | Some m => if hasToolCalls m then true else hasToolCall
             | None => hasToolCall
             end)
      end
  end.

Definition afterLlmSentenceBranchCondition (chunks : list (option Message))
    (ending : StreamEnd) (ctxDoneAfter : option nat) : string * NodeError :=
  streamBranchLoop NodeLLMSentenceCollect chunks ending ctxDoneAfter false.

(** The loop shared by [llmSentenceCollectHandler] and [mergeTransform]:
    the chunks that are not [nil] are appended to [messages]; an error
    returns what was collected so far together with the error. *)
Fixpoint collectLoop (chunks : list (option Message)) (ending : StreamEnd)
    (ctxDoneAfter : option nat) (messages : list Message)
    : list Message * NodeError :=
  match ctxDoneAfter with
  | Some O => (messages, ContextError)
  | _ =>
      match chunks with
      | [] =>
          match ending with
          | EOF => (messages, NoError)
          | RecvError err => (messages, StreamError err)
          end
      | msg :: rest =>
          collectLoop rest ending (Nat.pred <$> ctxDoneAfter)
            (match msg with Some m => messages ++ [m] | None => messages end)
      end
  end.

Definition llmSentenceCollectHandler (chunks : list (option Message))
    (ending : StreamEnd) (ctxDoneAfter : option nat) : list Message * NodeError :=
  collectLoop chunks ending ctxDoneAfter [].

Definition mergeTransform (chunks : list (option Message))
    (ending : StreamEnd) (ctxDoneAfter : option nat) : list Message * NodeError :=
  collectLoop chunks ending ctxDoneAfter [].

(** [WithStatePreHandler(func(ctx, in, state) ...)]: the input is
    appended to [state.history], and the whole history is what the model
    is called with.  The result is [(input of the model, state.history)]. *)
Definition statePreHandler (in_ : list Message) (history : list Message)
    : list Message * list Message :=
  let history' := history ++ in_ in
  (history', history').

(** One pass through the LLM node: pre-handler, the chat model (an
    interface; [chatModel] is the stream it answers with), post-handler.
    The result is the input the model saw and the outcome of the
    post-handler. *)
Definition llmNode (chatModel : list Message -> StreamReader) (in_ : list Message)
    (ctxDoneAfter : option nat) (history : list Message)
    : list Message * PostHandlerResult :=
  let '(input, history') := statePreHandler in_ history in
  (input, streamStatePostHandler (chatModel input) ctxDoneAfter history').

(** ** TTS manager: SendAudioToMetaHuman *)

(** [bufferSize := 16000 * 2 * 2]. *)
Definition metaBufferSize : Z := 16000 * 2 * 2.

(** What the goroutine finds on [audioChan]. *)
Inductive MetaHumanEvent :=
| OpusFrameArrives (opusFrame : Frame)
| MetaChanClosed
| MetaContextDone.

(** How a run stands: the [RPush] calls made so far, in order, the bytes
    still in [audioBuffer], whether the function has returned and with
    which error. *)
Record MetaHumanRun := mkMetaHumanRun {
  pushed : list (list Z);
  audioBuffer : list Z;
  metaReturned : bool;
  metaError : option string
}.

(** [writeBuffer]: whatever is buffered goes out in one piece. *)
Definition writeBuffer (pushed : list (list Z)) (audioBuffer : list Z)
    : list (list Z) * list Z :=
  match audioBuffer with
  | [] => (pushed, audioBuffer)
  | _ :: _ => (pushed ++ [audioBuffer], [])
  end.

(** [writeExactBuffer]: exactly [bufferSize] bytes go out, the rest
    stays. *)
Definition writeExactBuffer (pushed : list (list Z)) (audioBuffer : list Z)
    : list (list Z) * list Z :=
  if metaBufferSize <=? len audioBuffer
  then (pushed ++ [goSlice 0 metaBufferSize audioBuffer],
        drop (Z.to_nat metaBufferSize) audioBuffer)
  else (pushed, audioBuffer).

Section MetaHuman.
(** The opus decoder is an interface with internal state.
    [decodeFrame] stands for [audioProcesser.DecoderFloat32] followed by
    [util.Float32ToPCMBytes]: the PCM bytes of a frame, or an error. *)
Context {Decoder : Type}.
Variable decodeFrame : Decoder -> Frame -> Decoder * option (list Z).

Fixpoint metaHumanLoop (events : list MetaHumanEvent) (decoder : Decoder)
    (pushed : list (list Z)) (audioBuffer : list Z) : MetaHumanRun :=
  match events with
  | [] => mkMetaHumanRun pushed audioBuffer false None
  | (MetaContextDone | MetaChanClosed) :: _ =>
      let '(pushed', audioBuffer') := writeBuffer pushed audioBuffer in
      mkMetaHumanRun pushed' audioBuffer' true None
  | OpusFrameArrives opusFrame :: rest =>
      match decodeFrame decoder opusFrame with
      | (_, None) => mkMetaHumanRun pushed audioBuffer true (Some "decode failed")
      | (decoder', Some pcmBytes) =>
          let audioBuffer1 := audioBuffer ++ pcmBytes in
          let '(pushed', audioBuffer') :=
            if metaBufferSize <=? len audioBuffer1
            then writeExactBuffer pushed audioBuffer1
            else (pushed, audioBuffer1) in
          metaHumanLoop rest decoder' pushed' audioBuffer'
      end
  end.

(** [SendAudioToMetaHuman]: without a redis client or without a decoder
    it returns an error at once. *)
Definition SendAudioToMetaHuman (redisClient : bool) (audioProcesser : option Decoder)
    (events : list MetaHumanEvent) : MetaHumanRun :=
  if redisClient then
    match audioProcesser with
    | Some decoder => metaHumanLoop events decoder [] []
    | None => mkMetaHumanRun [] [] true (Some "no audio processor")
    end
  else mkMetaHumanRun [] [] true (Some "no redis client").

(** The PCM bytes of the frames that are read and decoded before the
    function returns, one after the other. *)
Fixpoint decodedBytes (events : list MetaHumanEvent) (decoder : Decoder) : list Z :=
  match events with
  | OpusFrameArrives opusFrame :: rest =>
      match decodeFrame decoder opusFrame with
      | (decoder', Some pcmBytes) => pcmBytes ++ decodedBytes rest decoder'
      | (_, None) => []
      end
  | _ => []
  end.
End MetaHuman.

(** ** client: the audio collector *)

Record AudioCollector := mkAudioCollector {
  userAudioData : list Z;
  userEnabled : bool;
  ttsAudioData : list Z;
  ttsEnabled : bool;
  ac_deviceID : string;
  ac_sessionID : string
}.

(** [eventbus.AudioSaveEvent]. *)
Record AudioSaveEvent := mkAudioSaveEvent {
  ev_DeviceID : string;
  ev_SessionID : string;
  ev_MessageID : string;
  ev_AudioData : list Z;
  ev_AudioType : string;
  ev_SourceType : string;
  ev_SampleRate : Z;
  ev_Channels : Z
}.

Definition NewAudioCollector (deviceID sessionID : string) : AudioCollector :=
  mkAudioCollector [] true [] true deviceID sessionID.

Definition SetEnabled (c : AudioCollector) (userEnabled ttsEnabled : bool) : AudioCollector :=
  mkAudioCollector (userAudioData c) userEnabled (ttsAudioData c) ttsEnabled
    (ac_deviceID c) (ac_sessionID c).

Definition AddUserAudio (c : AudioCollector) (data : list Z) : AudioCollector :=
  if negb (userEnabled c) || (len data =? 0) then c else
  mkAudioCollector (userAudioData c ++ data) (userEnabled c) (ttsAudioData c)
    (ttsEnabled c) (ac_deviceID c) (ac_sessionID c).

Definition AddTTSAudio (c : AudioCollector) (data : list Z) : AudioCollector :=
  if negb (ttsEnabled c) || (len data =? 0) then c else
  mkAudioCollector (userAudioData c) (userEnabled c) (ttsAudioData c ++ data)
    (ttsEnabled c) (ac_deviceID c) (ac_sessionID c).

(** [GetUserAudio] and [GetTTSAudio]: the data is handed out and the
    buffer starts anew. *)
Definition GetUserAudio (c : AudioCollector) : AudioCollector * list Z :=
  (mkAudioCollector [] (userEnabled c) (ttsAudioData c) (ttsEnabled c)
     (ac_deviceID c) (ac_sessionID c),
   userAudioData c).

Definition GetTTSAudio (c : AudioCollector) : AudioCollector * list Z :=
  (mkAudioCollector (userAudioData c) (userEnabled c) [] (ttsEnabled c)
     (ac_deviceID c) (ac_sessionID c),
   ttsAudioData c).

(** [SaveUserAudio] and [SaveTTSAudio]: the result holds the event that
    is published on the save-audio topic, if any. *)
Definition SaveUserAudio (c : AudioCollector) (messageID : string)
    (sampleRate channels : Z) : AudioCollector * option AudioSaveEvent :=
  let '(c', data) := GetUserAudio c in
  if len data =? 0 then (c', None)
  else (c', Some (mkAudioSaveEvent (ac_deviceID c) (ac_sessionID c) messageID data
                    "opus" "user" sampleRate channels)).

Definition SaveTTSAudio (c : AudioCollector) (messageID : string)
    (sampleRate channels : Z) : AudioCollector * option AudioSaveEvent :=
  let '(c', data) := GetTTSAudio c in
  if len data =? 0 then (c', None)
  else (c', Some (mkAudioSaveEvent (ac_deviceID c) (ac_sessionID c) messageID data
                    "opus" "tts" sampleRate channels)).

(** The audio that reaches the collector, in the order of arrival. *)
Inductive AudioArrival :=
| UserAudio (data : list Z)
| TTSAudio (data : list Z).

Definition collect (c : AudioCollector) (arrivals : list AudioArrival) : AudioCollector :=
  foldl (fun c a => match a with
                    | UserAudio data => AddUserAudio c data
                    | TTSAudio data => AddTTSAudio c data
                    end) c arrivals.

(** ** vad: the resource pool *)

(** A VAD instance is known by its address. *)
Definition VADInstance : Type := nat.

(** [VADResourcePool]: the channel of free instances ([None]: a nil
    channel) with its capacity, and the keys of the map of instances
    handed out. *)
Record VADResourcePool := mkPool {
  availableVADs : option (list VADInstance);
  availableCap : nat;
  allocatedVADs : gset VADInstance;
  maxSize : Z;
  pool_initialized : bool
}.

Inductive PoolError :=
| PoolNotInitialized
| PoolClosed
| AcquireTimedOut.

(** [AcquireVAD]: the first free instance is taken and marked as handed
    out.  With no free instance the call waits for [acquireTimeout]; the
    result here is that of a wait during which nothing is released.  The
    channel only ever holds instances that are not nil, and [Close] clears
    [initialized] under the same lock that closes the channel, so calls
    that do not overlap with [Close] never meet [PoolClosed]. *)
Definition AcquireVAD (p : VADResourcePool) : VADResourcePool * (VADInstance + PoolError) :=
  if negb (pool_initialized p) then (p, inr PoolNotInitialized) else
  match availableVADs p with
  | Some (vad :: rest) =>
      (mkPool (Some rest) (availableCap p) ({[vad]} ∪ allocatedVADs p) (maxSize p)
         (pool_initialized p),
       inl vad)
  | _ => (p, inr AcquireTimedOut)
  end.

(** [ReleaseVAD]: an instance that this pool handed out is taken off
    the map and put back when the channel has room (and closed
    otherwise); anything else is ignored.  [None] is a nil instance. *)
Definition ReleaseVAD (p : VADResourcePool) (vad : option VADInstance) : VADResourcePool :=
  match vad with
  | None => p
  | Some vad =>
      if negb (pool_initialized p) then p else
      if decide (vad ∈ allocatedVADs p) then
        let allocated := allocatedVADs p ∖ {[vad]} in
        match availableVADs p with
        | None => mkPool None (availableCap p) allocated (maxSize p) (pool_initialized p)
        | Some free =>
            if (length free <? availableCap p)%nat
            then mkPool (Some (free ++ [vad])) (availableCap p) allocated (maxSize p)
                   (pool_initialized p)
            else mkPool (Some free) (availableCap p) allocated (maxSize p)
                   (pool_initialized p)
        end
      else p
  end.

(** [GetAvailableCount] and [GetActiveCount]. *)
Definition GetAvailableCount (p : VADResourcePool) : Z :=
  match availableVADs p with
  | None => 0
  | Some free => len free
  end.

Definition GetActiveCount (p : VADResourcePool) : Z :=
  Z.of_nat (size (allocatedVADs p)).

(** What the users of the pool do, one call at a time. *)
Inductive PoolOp :=
| Acquire
| Release (vad : option VADInstance).

Definition runPoolOp (p : VADResourcePool) (op : PoolOp) : VADResourcePool :=
  match op with
  | Acquire => fst (AcquireVAD p)
  | Release vad => ReleaseVAD p vad
  end.

Definition runPoolOps (p : VADResourcePool) (ops : list PoolOp) : VADResourcePool :=
  foldl runPoolOp p ops.

(** ** The vocabulary of the further properties *)

(** A sample fits [int16]. *)
Definition isInt16 (v : Z) : Prop := -32768 <= v <= 32767.

(** The sum of a list of samples. *)
Definition sumZ (l : list Z) : Z := foldr Z.add 0 l.

(** The samples of all channels at sample position [i] of interleaved
    [data]. *)
Definition frameOf (data : list Z) (channels i : Z) : list Z :=
  goSlice (i * channels) (i * channels + channels) data.

(** Reading little-endian byte pairs back as [int16] samples. *)
Fixpoint bytesToInt16 (buf : list Z) : list Z :=
  match buf with
  | lo :: hi :: rest => int16 (lo + 256 * hi) :: bytesToInt16 rest
  | _ => []
  end.

(** An entry that is not [nil]. *)
Definition nonNil (o : option Message) : bool :=
  match o with Some _ => true | None => false end.

(** Some chunk of the stream carries tool calls. *)
Definition anyToolCallChunk (chunks : list (option Message)) : bool :=
  existsb (fun o => match o with Some m => hasToolCalls m | None => false end) chunks.

(** The pool as [initialize] leaves it: initialized, the channel made for
    as many instances as it holds, every instance once, and every
    instance either free or handed out. *)
Definition poolSound (p : VADResourcePool) : Prop :=
  pool_initialized p = true /\
  exists free,
    availableVADs p = Some free /\
    NoDup free /\
    (forall vad, vad ∈ free -> vad ∉ allocatedVADs p) /\
    (length free + size (allocatedVADs p) <= availableCap p)%nat.

(** All instances of the pool, free or handed out. *)
Definition poolInstances (p : VADResourcePool) : gset VADInstance :=
  list_to_set (default [] (availableVADs p)) ∪ allocatedVADs p.

(** The bytes a collector run must hold for one source. *)
Definition userBytes (arrivals : list AudioArrival) : list Z :=
  arrivals ≫= (fun a => match a with UserAudio data => data | TTSAudio _ => [] end).

Definition ttsBytes (arrivals : list AudioArrival) : list Z :=
  arrivals ≫= (fun a => match a with TTSAudio data => data | UserAudio _ => [] end).


(** The frames the pacer loop hands over: those of the leading steps
    whose send succeeds. *)
Fixpoint sentPrefix (steps : list PacerStep) : list Frame :=
  match steps with
  | TakeFrame frame _ _ _ true :: rest => frame :: sentPrefix rest
  | _ => []
  end.

(** How often the log says that the pacer channel was full. *)
Definition pacerDrops (lines : list LogLine) : nat :=
  length (omap (fun line => match line with
                            | WarnFlowControlChanFull => Some line
                            | _ => None
                            end) lines).

(** The pushes made by a run: pieces of exactly [bufferSize] bytes,
    followed by at most one last piece. *)
Definition exactThenRest (before after : list (list Z)) : Prop :=
  exists chunks final,
    after = before ++ chunks ++ final /\
    Forall (fun piece => len piece = metaBufferSize) chunks /\
    (length final <= 1)%nat.
(* ===================================================================== *)
(** * Part II: properties *)
(* ===================================================================== *)

(** ** Go strings *)

Lemma length_append (s t : string) :
  String.length (s +:+ t) = (String.length s + String.length t)%nat.
Proof. induction s as [|c s IH]; simpl; [reflexivity | now rewrite IH]. Qed.

Lemma slice_to_append (s t : string) : slice_to (String.length s) (s +:+ t) = s.
Proof. induction s as [|c s IH]; simpl; [now destruct t | now rewrite IH]. Qed.

Lemma slice_from_append (s t : string) : slice_from (String.length s) (s +:+ t) = t.
Proof. induction s as [|c s IH]; simpl; [now destruct t | exact IH]. Qed.

Lemma slice_from_after (s : string) (c : ascii) (t : string) :
  slice_from (S (String.length s)) (s +:+ String c t) = t.
Proof. induction s as [|d s IH]; simpl; [now destruct t | exact IH]. Qed.

Lemma slice_to_stop (s : string) : slice_to 6 ("[STOP]" +:+ s) = "[STOP]".
Proof. apply (slice_to_append "[STOP]" s). Qed.

Lemma has_stop_prefix_marked (s : string) : has_stop_prefix ("[STOP]" +:+ s) = true.
Proof. unfold has_stop_prefix. now rewrite slice_to_stop. Qed.

Lemma is_colon_at_append_l (s t : string) (i : nat) :
  is_colon_at (String.length s + i) (s +:+ t) = is_colon_at i t.
Proof. induction s as [|c s IH]; simpl; [reflexivity | exact IH]. Qed.

Lemma is_colon_at_absent (s : string) (i : nat) :
  contains_colon s = false -> is_colon_at i s = false.
Proof.
  revert i. induction s as [|c s IH]; intros i H; [reflexivity|].
  simpl in H. apply orb_false_elim in H as [Hc Hs].
  destruct i as [|i]; unfold is_colon_at; simpl; [exact Hc | apply (IH i Hs)].
Qed.

(** ** parseAgentID *)

Lemma lastColonBelow_absent (s : string) (n : nat) :
  contains_colon s = false -> lastColonBelow s n = None.
Proof.
  intros H. induction n as [|n IH]; simpl; [reflexivity|].
  now rewrite (is_colon_at_absent s n H).
Qed.

Lemma is_colon_at_S (c : ascii) (s : string) (i : nat) :
  is_colon_at (S i) (String c s) = is_colon_at i s.
Proof. reflexivity. Qed.

Lemma lastColonBelow_last (pre suf : string) (k : nat) :
  contains_colon suf = false ->
  lastColonBelow (pre +:+ ":" +:+ suf) (S (String.length pre + k)) = Some (String.length pre).
Proof.
  intros H. induction k as [|k IH].
  - cbn [lastColonBelow]. rewrite is_colon_at_append_l.
    change (is_colon_at 0 (":" +:+ suf)) with true. cbn iota. f_equal. lia.
  - cbn [lastColonBelow]. rewrite is_colon_at_append_l.
    change (":" +:+ suf) with (String ":" suf). rewrite is_colon_at_S.
    rewrite (is_colon_at_absent suf k H).
    replace (String.length pre + S k)%nat with (S (String.length pre + k)) by lia.
    exact IH.
Qed.

Lemma parseAgentID_colon (pre suf : string) :
  contains_colon suf = false -> parseAgentID (pre +:+ ":" +:+ suf) = (pre, suf).
Proof.
  intros H. unfold parseAgentID.
  rewrite length_append. change (String.length (":" +:+ suf)) with (S (String.length suf)).
  replace (String.length pre + S (String.length suf))%nat
    with (S (String.length pre + String.length suf)) by lia.
  rewrite (lastColonBelow_last pre suf _ H).
  rewrite slice_to_append. change (":" +:+ suf) with (String ":" suf).
  now rewrite slice_from_after.
Qed.

Lemma contains_colon_split (s : string) :
  contains_colon s = true ->
  exists pre suf, s = pre +:+ ":" +:+ suf /\ contains_colon suf = false.
Proof.
  induction s as [|c s IH]; [discriminate|].
  intros H. destruct (contains_colon s) eqn:Hs.
  - destruct (IH eq_refl) as (pre & suf & -> & Hsuf).
    exists (String c pre), suf. split; [reflexivity | exact Hsuf].
  - simpl in H. rewrite Hs, orb_false_r in H.
    apply Ascii.eqb_eq in H. subst c.
    exists "", s. split; [reflexivity | exact Hs].
Qed.

Lemma parseAgentID_bare (agentID : string) :
  contains_colon agentID = false -> parseAgentID agentID = (agentID, agentID).
Proof. intros H. unfold parseAgentID. now rewrite lastColonBelow_absent. Qed.

(** C10. [parseAgentID] splits at the last colon: an id [pre:suf] whose
    [suf] holds no colon gives device id [pre] and session id [suf]; an id
    without a colon is both the device id and the session id, and
    [AddMessage] on such an id works on the session of that very name. *)
Theorem parseAgentID_splits_at_last_colon (agentID : string) :
  (forall pre suf, agentID = pre +:+ ":" +:+ suf -> contains_colon suf = false ->
     parseAgentID agentID = (pre, suf)) /\
  (contains_colon agentID = true ->
     exists pre suf, agentID = pre +:+ ":" +:+ suf /\ contains_colon suf = false /\
                     parseAgentID agentID = (pre, suf)) /\
  (contains_colon agentID = false ->
     parseAgentID agentID = (agentID, agentID) /\
     forall ctx faults db msg uuid now,
       AddMessage ctx faults db agentID msg uuid now =
       match ensureSession ctx faults db agentID agentID agentID now with
       | (db1, Some err) => (db1, Some (Errorf "failed to ensure session" err))
       | (db1, None) =>
           match createMessage ctx faults db1
                   (buildMessage agentID agentID uuid
                      (selectMaxSeq ctx faults agentID db1) msg now) with
           | (db2, Some e) =>
               (db2, Some (Errorf "failed to create message" (DbFailure e)))
           | (db2, None) => (db2, None)
           end
       end).
Proof.
  split; [|split].
  - intros pre suf -> H. now apply parseAgentID_colon.
  - intros H. destruct (contains_colon_split agentID H) as (pre & suf & -> & Hsuf).
    exists pre, suf. split; [reflexivity|]. split; [exact Hsuf|].
    now apply parseAgentID_colon.
  - intros H. split; [now apply parseAgentID_bare|].
    intros ctx faults db msg uuid now. unfold AddMessage.
    now rewrite (parseAgentID_bare agentID H).
Qed.

Lemma parseAgentID_splits_at_last_colon_witness :
  parseAgentID "esp32-01:a:b" = ("esp32-01:a", "b") /\
  parseAgentID "esp32-01" = ("esp32-01", "esp32-01").
Proof.
  split.
  - apply (proj1 (parseAgentID_splits_at_last_colon "esp32-01:a:b") "esp32-01:a" "b");
      reflexivity.
  - apply (proj2 (proj2 (parseAgentID_splits_at_last_colon "esp32-01"))). reflexivity.
Defined.

(** ** The pre-roll depth *)

Lemma cacheFrameCount_floor (FrameDuration : Z) :
  0 < FrameDuration ->
  exists n, cacheFrameCount FrameDuration = Some n /\
    n = 120 / FrameDuration /\
    n * FrameDuration <= 120 < (n + 1) * FrameDuration.
Proof.
  intros H. exists (120 / FrameDuration). unfold cacheFrameCount.
  destruct (Z.eqb_spec FrameDuration 0) as [?|_]; [lia|].
  rewrite Z.quot_div_nonneg by lia. split; [reflexivity|]. split; [reflexivity|].
  pose proof (Z.mul_div_le 120 FrameDuration H).
  pose proof (Z.mul_succ_div_gt 120 FrameDuration H). lia.
Qed.

(** C8, as the code has it.  The pre-roll depth is the integer quotient
    [120 / FrameDuration], rounded down: the largest [n] with
    [n * FrameDuration <= 120].  A frame duration of 25 ms gives 4 and
    one of 20 ms gives 6; it equals the rounded-up quotient exactly when
    the frame duration divides 120. *)
Theorem cacheFrameCount_rounds_down (FrameDuration : Z) :
  0 < FrameDuration ->
  exists n, cacheFrameCount FrameDuration = Some n /\
    n * FrameDuration <= 120 < (n + 1) * FrameDuration /\
    (n = spec_cacheFrames FrameDuration <-> (FrameDuration | 120)) /\
    cacheFrameCount 25 = Some 4 /\ cacheFrameCount 20 = Some 6.
Proof.
  intros H. destruct (cacheFrameCount_floor FrameDuration H) as (n & Hn & Hq & Hb).
  exists n. split; [exact Hn|]. split; [exact Hb|].
  split; [|split; reflexivity].
  split.
  - intros Heq. unfold spec_cacheFrames in Heq.
    exists n.
    assert (Hc : FrameDuration * ((120 + FrameDuration - 1) / FrameDuration)
                 <= 120 + FrameDuration - 1) by (apply Z.mul_div_le; lia).
    assert (Hd : 120 + FrameDuration - 1
                 < FrameDuration * Z.succ ((120 + FrameDuration - 1) / FrameDuration))
      by (apply Z.mul_succ_div_gt; lia).
    rewrite <- Heq in Hc, Hd. nia.
  - intros [k Hk]. unfold spec_cacheFrames. subst n. rewrite Hk.
    rewrite Z.div_mul by lia.
    replace (k * FrameDuration + FrameDuration - 1)
      with (FrameDuration - 1 + k * FrameDuration) by lia.
    rewrite Z.div_add by lia. rewrite Z.div_small by lia. lia.
Qed.

Lemma cacheFrameCount_rounds_down_witness :
  exists n, cacheFrameCount 25 = Some n /\
    n * 25 <= 120 < (n + 1) * 25 /\
    (n = spec_cacheFrames 25 <-> (25 | 120)) /\
    cacheFrameCount 25 = Some 4 /\ cacheFrameCount 20 = Some 6.
Proof. apply (cacheFrameCount_rounds_down 25). lia. Defined.

(** C8 as stated fails: at 25 ms the code computes 4 frames where the
    rounded-up quotient is 5. *)
Lemma cacheFrameCount_is_not_ceiling :
  cacheFrameCount 25 = Some 4 /\ spec_cacheFrames 25 = 5 /\
  ~ (forall FrameDuration, 0 < FrameDuration ->
       cacheFrameCount FrameDuration = Some (spec_cacheFrames FrameDuration)).
Proof.
  split; [reflexivity|]. split; [reflexivity|].
  intros H. specialize (H 25 ltac:(lia)). discriminate H.
Qed.

(** ** The VAD window *)

Section VadProperties.
Context {VadState : Type}.
Variable IsVAD : VadState -> list Z -> VadState * (bool * option string).

Lemma vadVerdicts_length frameBytes byteBuffer n i vad :
  length (vadVerdicts IsVAD frameBytes byteBuffer n i vad) = n.
Proof.
  revert i vad. induction n as [|n IH]; intros i vad; simpl; [reflexivity|].
  destruct (IsVAD vad _) as [vad' [active err]]. simpl. now rewrite IH.
Qed.

Lemma countActive_bounds (verdicts : list bool) :
  0 <= countActive verdicts <= len verdicts.
Proof.
  unfold countActive, len. pose proof (length_filter (fun b => b = true) verdicts). lia.
Qed.

Lemma countActive_cons (b : bool) (verdicts : list bool) :
  countActive (b :: verdicts) = (if b then 1 else 0) + countActive verdicts.
Proof.
  unfold countActive, len. rewrite filter_cons.
  destruct b; destruct (decide _) as [?|?]; try congruence; simpl length; lia.
Qed.

Lemma vadFrameLoop_counts frameBytes byteBuffer n i vad acc :
  snd (vadFrameLoop IsVAD frameBytes byteBuffer n i vad acc) =
  acc + countActive (vadVerdicts IsVAD frameBytes byteBuffer n i vad).
Proof.
  revert i vad acc. induction n as [|n IH]; intros i vad acc; simpl.
  - unfold countActive, len. simpl. lia.
  - destruct (IsVAD vad _) as [vad' [active err]].
    rewrite countActive_cons.
    destruct err as [e|]; [|destruct active]; rewrite IH; lia.
Qed.

(** C6. A window of [N] frames of which [k] were found active is voice
    exactly when [k] is a strict majority ([2k > N]; a tie is not
    voice), and the [N] processed frames are cut off the front of the
    VAD-feed buffer, which keeps less than one frame. *)
Theorem vad_window_strict_majority (frameBytes vadNeedGetCount : Z)
    (byteBuffer : list Z) (vad : VadState) :
  0 < frameBytes ->
  frameBytes * vadNeedGetCount <= len byteBuffer ->
  exists w,
    vadDetect IsVAD frameBytes vadNeedGetCount byteBuffer vad = Window w /\
    frameCount w = len byteBuffer / frameBytes /\
    activeFrames w =
      countActive (vadVerdicts IsVAD frameBytes byteBuffer
                     (Z.to_nat (frameCount w)) 0 vad) /\
    0 <= activeFrames w <= frameCount w /\
    (haveVoice w = true <-> 2 * activeFrames w > frameCount w) /\
    (2 * activeFrames w = frameCount w -> haveVoice w = false) /\
    byteBuffer' w = drop (Z.to_nat (frameCount w * frameBytes)) byteBuffer /\
    len (byteBuffer' w) < frameBytes.
Proof.
  intros Hfb Hguard. unfold vadDetect.
  destruct (Z.geb_spec (len byteBuffer) (frameBytes * vadNeedGetCount)) as [_|?]; [|lia].
  destruct (Z.eqb_spec frameBytes 0) as [?|_]; [lia|].
  assert (Hlen : 0 <= len byteBuffer) by (unfold len; lia).
  rewrite Z.quot_div_nonneg by lia.
  set (N := len byteBuffer / frameBytes).
  assert (HN : 0 <= N) by (apply Z.div_pos; lia).
  pose proof (vadFrameLoop_counts frameBytes byteBuffer (Z.to_nat N) 0 vad 0) as Hk.
  destruct (vadFrameLoop IsVAD frameBytes byteBuffer (Z.to_nat N) 0 vad 0)
    as [vad' k] eqn:Hloop.
  simpl in Hk. eexists. split; [reflexivity|]. simpl.
  pose proof (countActive_bounds
                (vadVerdicts IsVAD frameBytes byteBuffer (Z.to_nat N) 0 vad)) as Hb.
  unfold len in Hb. rewrite vadVerdicts_length in Hb.
  rewrite Z.quot_div_nonneg by lia.
  assert (Hrest :
    (if N >? 0 then drop (Z.to_nat (N * frameBytes)) byteBuffer else byteBuffer)
    = drop (Z.to_nat (N * frameBytes)) byteBuffer).
  { destruct (Z.gtb_spec N 0) as [_|Hz]; [reflexivity|].
    assert (N = 0) as -> by lia. reflexivity. }
  rewrite Hrest.
  pose proof (Z.mul_div_le (len byteBuffer) frameBytes Hfb) as Hlo.
  pose proof (Z.mul_succ_div_gt (len byteBuffer) frameBytes Hfb) as Hhi.
  fold N in Hlo, Hhi.
  split; [reflexivity|]. clearbody N.
  pose proof (Z.mul_div_le N 2 ltac:(lia)) as Hhalf.
  pose proof (Z.mul_succ_div_gt N 2 ltac:(lia)) as Hhalf'.
  split; [lia|]. split; [lia|].
  split; [|split; [|split; [reflexivity|]]].
  - destruct (Z.gtb_spec k (N / 2)) as [Hgt|Hle]; split; intros;
      try reflexivity; try discriminate; try lia; exfalso; lia.
  - intros Htie. destruct (Z.gtb_spec k (N / 2)) as [Hgt|Hle]; [lia | reflexivity].
  - unfold len in *. rewrite length_drop. lia.
Qed.
End VadProperties.

Lemma vad_window_strict_majority_witness :
  exists w,
    vadDetect (fun (vad : unit) frame => (vad, (bool_decide (frame = [1; 1]), None)))
      2 3 [1; 1; 0; 0; 1; 1; 0; 0; 7] tt = Window w /\
    frameCount w = 4 /\ activeFrames w = 2 /\ haveVoice w = false /\
    byteBuffer' w = [7].
Proof.
  destruct (vad_window_strict_majority
              (fun (vad : unit) frame => (vad, (bool_decide (frame = [1; 1]), None)))
              2 3 [1; 1; 0; 0; 1; 1; 0; 0; 7] tt ltac:(lia) ltac:(vm_compute; discriminate))
    as (w & Hw & HN & Hk & _ & _ & Htie & Hrest & _).
  exists w. split; [exact Hw|].
  assert (HN' : frameCount w = 4) by (rewrite HN; reflexivity).
  assert (Hk' : activeFrames w = 2) by (rewrite Hk, HN'; reflexivity).
  split; [exact HN'|]. split; [exact Hk'|].
  split; [apply Htie; rewrite Hk', HN'; reflexivity|].
  rewrite Hrest, HN'. reflexivity.
Defined.

(** ** The list branch after the tool-call-result node *)

Lemma branchLoop_stops (input : list (option Message)) (hasToolCall hasToolResult : bool) :
  anyStopResult input = true -> branchLoop input hasToolCall hasToolResult = END.
Proof.
  revert hasToolCall hasToolResult.
  induction input as [|[msg|] rest IH]; intros c r H; simpl in *.
  - discriminate.
  - destruct (isStopResult msg); [reflexivity | now apply IH].
  - now apply IH.
Qed.

Lemma branchLoop_continues (input : list (option Message)) (hasToolCall hasToolResult : bool) :
  anyStopResult input = false ->
  branchLoop input hasToolCall hasToolResult =
  if hasToolCall || hasToolResult || anyToolTraffic input then NodeLLM else END.
Proof.
  revert hasToolCall hasToolResult.
  induction input as [|[msg|] rest IH]; intros c r H; simpl in *.
  - now destruct c, r.
  - apply orb_false_elim in H as [Hm Hrest]. rewrite Hm, (IH _ _ Hrest).
    destruct (hasToolCalls msg), (String.eqb (Role msg) Tool), c, r; reflexivity.
  - now apply IH.
Qed.

Lemma anyStopResult_elem (input : list (option Message)) (msg : Message) :
  Some msg ∈ input -> isStopResult msg = true -> anyStopResult input = true.
Proof.
  intros Hin Hstop. unfold anyStopResult. apply existsb_exists.
  exists (Some msg). split; [now apply list_elem_of_In | exact Hstop].
Qed.

Lemma edgeTargets_ToolCallResult : edgeTargets NodeToolCallResult = [].
Proof. reflexivity. Qed.

(** The tool-call-result node marks the result of a tool that asks to
    stop, and the mark is the one the branch looks for. *)
Lemma processResult_marks_stop {InvokableTool : Type}
    (processToolCallResult : string -> string -> InvokableTool -> string * bool)
    (toolObj : InvokableTool) (toolName : string) (msg : Message) :
  snd (processToolCallResult toolName (Content msg) toolObj) = true ->
  isStopResult (processResult processToolCallResult toolObj toolName msg) = true.
Proof.
  unfold processResult. destruct (processToolCallResult _ _ _) as [result stop].
  simpl. intros ->. unfold isStopResult. simpl. apply has_stop_prefix_marked.
Qed.

(** In [CreateLlmTtsGraph] the map of tool calls stays empty, so the node
    passes on exactly the messages that are not tool results with a call
    id; no result is processed or marked there. *)
Lemma toolCallResultHandler_passes_through {InvokableTool : Type}
    (processToolCallResult : string -> string -> InvokableTool -> string * bool)
    (mcpTools : gmap string (option InvokableTool)) (input : list (option Message)) :
  toolCallResultHandler processToolCallResult mcpTools input =
  List.filter passesThrough input.
Proof.
  unfold toolCallResultHandler.
  assert (H : forall messages,
             toolCallResultLoop processToolCallResult mcpTools ∅ input messages
             = messages ++ List.filter passesThrough input).
  { induction input as [|[msg|] rest IH]; intros messages; simpl.
    - now rewrite app_nil_r.
    - destruct (String.eqb (Role msg) Tool && negb (String.eqb (ToolCallID msg) ""));
        simpl; [rewrite lookup_empty; apply IH|].
      rewrite IH, <- app_assoc. reflexivity.
    - apply IH. }
  apply (H []).
Qed.

(** C2. Once the list handed to the branch after the tool-call-result
    node holds a [STOP]-marked tool result, the branch returns END (in
    both versions of the graph); END is then the only successor of the
    node, and the LLM node, whose only other way in is the edge from the
    chat template at the start of the run, is not entered again. *)
Theorem stop_result_ends_graph_run (input : list (option Message)) (msg : Message) :
  Some msg ∈ input ->
  Role msg = Tool ->
  has_stop_prefix (Content msg) = true ->
  afterToolCallBranchCondition input = END /\
  branchCondition input = END /\
  afterToolCallResult input = [END] /\
  (NodeLLM ∉ afterToolCallResult input) /\
  (forall node, (node, NodeLLM) ∈ graphEdges -> node = NodeChatTemplate) /\
  (forall node, (node, NodeChatTemplate) ∈ graphEdges -> node = START) /\
  (forall node, (node, START) ∉ graphEdges).
Proof.
  intros Hin Hrole Hstop.
  assert (Hany : anyStopResult input = true).
  { apply (anyStopResult_elem input msg Hin). unfold isStopResult.
    now rewrite Hrole, Hstop. }
  assert (Hend : afterToolCallBranchCondition input = END)
    by now apply branchLoop_stops.
  split; [exact Hend|]. split; [now apply branchLoop_stops|].
  unfold afterToolCallResult. rewrite edgeTargets_ToolCallResult, Hend. simpl.
  split; [reflexivity|]. split.
  - intros Hel. apply list_elem_of_singleton in Hel. discriminate Hel.
  - unfold graphEdges. repeat split; intros node;
      rewrite ?elem_of_cons, elem_of_nil; intros H;
      repeat (destruct H as [H|H]; [try discriminate H; now inversion H|]);
      try contradiction.
Qed.

Lemma stop_result_ends_graph_run_witness :
  afterToolCallBranchCondition
    [Some (mkMessage Tool "sunny, 25 degrees" [] [] "call_1");
     Some (mkMessage Tool "[STOP]playing" [] [] "call_2")] = END.
Proof.
  apply (stop_result_ends_graph_run
           [Some (mkMessage Tool "sunny, 25 degrees" [] [] "call_1");
            Some (mkMessage Tool "[STOP]playing" [] [] "call_2")]
           (mkMessage Tool "[STOP]playing" [] [] "call_2")).
  - apply list_elem_of_In. simpl. right. left. reflexivity.
  - reflexivity.
  - reflexivity.
Defined.

(** C3, as the code has it.  The branch goes back to the LLM node exactly
    when no entry of the list is a [STOP]-marked tool result and some
    entry carries tool calls or is a tool result; in every other case it
    goes to END.  One [STOP]-marked result therefore ends the run
    whatever else the list holds. *)
Theorem afterToolCallBranch_routes (input : list (option Message)) :
  (afterToolCallBranchCondition input = NodeLLM <->
     anyStopResult input = false /\ anyToolTraffic input = true) /\
  (afterToolCallBranchCondition input = END <->
     anyStopResult input = true \/ anyToolTraffic input = false) /\
  branchCondition input = afterToolCallBranchCondition input.
Proof.
  unfold branchCondition, afterToolCallBranchCondition.
  destruct (anyStopResult input) eqn:Hstop.
  - rewrite (branchLoop_stops input false false Hstop).
    repeat split; try discriminate; intuition (try discriminate; auto).
  - rewrite (branchLoop_continues input false false Hstop). simpl.
    destruct (anyToolTraffic input);
      repeat split; try discriminate; intuition (try discriminate; auto).
Qed.

(** C3 as stated fails: a list with an ordinary tool result and a
    [STOP]-marked one holds a tool result that is not [STOP]-marked, yet
    the branch goes to END.  The list is what the tool-call-result node of
    [RunEinoGraph] produces for two tool calls of which the second asks
    to stop; the node of [CreateLlmTtsGraph] hands on such a pair of
    results when they carry no call id. *)
Lemma afterToolCallBranch_stop_overrides :
  let call (id name : string) := mkToolCall id "function" (mkFunctionCall name "{}") in
  let request := mkMessage Assistant "" [] [call "call_1" "get_weather"; call "call_2" "play_music"] "" in
  let tools : gmap string (option unit) :=
    <["get_weather" := Some tt]> (<["play_music" := Some tt]> ∅) in
  let process (toolName content : string) (_ : unit) :=
    (content, String.eqb toolName "play_music") in
  let output :=
    [Some request;
     Some (mkMessage Tool "sunny" [] [] "call_1");
     Some (mkMessage Tool "[STOP]playing" [] [] "call_2")] in
  toolCallResultTransform process tools
    [Some request;
     Some (mkMessage Tool "sunny" [] [] "call_1");
     Some (mkMessage Tool "playing" [] [] "call_2")] = output /\
  spec_anyUnstoppedToolTraffic output = true /\
  afterToolCallBranchCondition output = END /\
  afterToolCallBranchCondition output <> NodeLLM /\
  (let passed :=
     [Some (mkMessage Tool "sunny" [] [] ""); Some (mkMessage Tool "[STOP]playing" [] [] "")] in
   toolCallResultHandler process tools passed = passed /\
   spec_anyUnstoppedToolTraffic passed = true /\
   afterToolCallBranchCondition passed = END) /\
  ~ (forall input, afterToolCallBranchCondition input = NodeLLM <->
                   spec_anyUnstoppedToolTraffic input = true).
Proof.
  intros call request tools process output.
  assert (Hout : afterToolCallBranchCondition output = END) by reflexivity.
  assert (Hspec : spec_anyUnstoppedToolTraffic output = true) by reflexivity.
  split; [vm_compute; reflexivity|]. split; [exact Hspec|]. split; [exact Hout|].
  split; [rewrite Hout; discriminate|].
  split; [repeat split; vm_compute; reflexivity|].
  intros H. apply (H output) in Hspec. rewrite Hout in Hspec. discriminate Hspec.
Qed.

(** ** The stream post-handler *)

Lemma append_nil_right (s : string) : s +:+ "" = s.
Proof.
  induction s as [|c s IH]; [reflexivity|].
  change (String c (s +:+ "") = String c s). now rewrite IH.
Qed.

Lemma append_associative (s t u : string) : (s +:+ t) +:+ u = s +:+ t +:+ u.
Proof.
  induction s as [|c s IH]; [reflexivity|].
  change (String c ((s +:+ t) +:+ u) = String c (s +:+ t +:+ u)). now rewrite IH.
Qed.

Lemma assistantDeltas_cons (msg : Message) (deltas : list Message) :
  assistantDeltas (msg :: deltas) =
  if String.eqb (Role msg) Assistant
  then msg :: assistantDeltas deltas else assistantDeltas deltas.
Proof.
  unfold assistantDeltas. rewrite filter_cons.
  destruct (String.eqb_spec (Role msg) Assistant) as [E|E];
    destruct (decide _) as [D|D]; congruence.
Qed.

Lemma textOf_single (msg : Message) :
  textOf [msg] = if String.eqb (Role msg) Assistant then Content msg else "".
Proof.
  unfold textOf. rewrite assistantDeltas_cons.
  destruct (String.eqb (Role msg) Assistant); [|reflexivity].
  change (Content msg +:+ "" = Content msg). apply append_nil_right.
Qed.

Lemma toolCallsOf_single (msg : Message) :
  toolCallsOf [msg] = if String.eqb (Role msg) Assistant then ToolCalls msg else [].
Proof.
  unfold toolCallsOf. rewrite assistantDeltas_cons.
  destruct (String.eqb (Role msg) Assistant); [|reflexivity].
  change (ToolCalls msg ++ [] = ToolCalls msg). apply app_nil_r.
Qed.

Lemma aggregate_fields (finalMsg msg : Message) :
  aggregate finalMsg msg =
  mkMessage (Role finalMsg)
    (Content finalMsg +:+ textOf [msg])
    (MultiContent finalMsg)
    (ToolCalls finalMsg ++ toolCallsOf [msg])
    (ToolCallID finalMsg).
Proof.
  unfold aggregate. rewrite textOf_single, toolCallsOf_single.
  destruct (String.eqb (Role msg) Assistant).
  - destruct (String.eqb_spec (Content msg) "") as [->|_];
      [now rewrite append_nil_right | reflexivity].
  - rewrite append_nil_right, app_nil_r. now destruct finalMsg.
Qed.

Lemma textOf_cons (msg : Message) (deltas : list Message) :
  textOf (msg :: deltas) = textOf [msg] +:+ textOf deltas.
Proof.
  rewrite textOf_single. unfold textOf. rewrite assistantDeltas_cons.
  destruct (String.eqb (Role msg) Assistant); reflexivity.
Qed.

Lemma toolCallsOf_cons (msg : Message) (deltas : list Message) :
  toolCallsOf (msg :: deltas) = toolCallsOf [msg] ++ toolCallsOf deltas.
Proof.
  rewrite toolCallsOf_single. unfold toolCallsOf. rewrite assistantDeltas_cons.
  destruct (String.eqb (Role msg) Assistant); reflexivity.
Qed.

Lemma postHandlerLoop_returns (deltas : list Message) (ctxDoneAfter : option nat)
    (pipe : list Message) (finalMsg : Message) (history : list Message) :
  (length pipe + length deltas <= pipeCapacity)%nat ->
  ctxAliveFor ctxDoneAfter (length deltas) ->
  postHandlerLoop deltas EOF ctxDoneAfter pipe finalMsg history =
  Returned (pipe ++ deltas)
    (history ++ recorded (mkMessage (Role finalMsg)
                            (Content finalMsg +:+ textOf deltas)
                            (MultiContent finalMsg)
                            (ToolCalls finalMsg ++ toolCallsOf deltas)
                            (ToolCallID finalMsg))).
Proof.
  revert ctxDoneAfter pipe finalMsg.
  induction deltas as [|msg rest IH]; intros ctx pipe finalMsg Hcap Halive.
  - assert (Hfinal : mkMessage (Role finalMsg) (Content finalMsg +:+ textOf [])
                       (MultiContent finalMsg) (ToolCalls finalMsg ++ toolCallsOf [])
                       (ToolCallID finalMsg) = finalMsg).
    { unfold textOf, toolCallsOf. simpl. rewrite append_nil_right, app_nil_r.
      now destruct finalMsg. }
    rewrite Hfinal, app_nil_r. unfold recorded.
    destruct ctx as [[|n]|]; simpl in *; try lia;
      destruct (worthRecording finalMsg); simpl; now rewrite ?app_nil_r.
  - assert (Hroom : (length pipe <? pipeCapacity)%nat = true)
      by (apply Nat.ltb_lt; simpl in Hcap; lia).
    assert (Hstep :
      postHandlerLoop (msg :: rest) EOF ctx pipe finalMsg history =
      postHandlerLoop rest EOF (Nat.pred <$> ctx) (pipe ++ [msg])
        (aggregate finalMsg msg) history).
    { destruct ctx as [[|n]|]; simpl in *; try lia; now rewrite Hroom. }
    rewrite Hstep, IH.
    + rewrite aggregate_fields. simpl.
      rewrite <- app_assoc. simpl.
      rewrite (textOf_cons msg rest), (toolCallsOf_cons msg rest).
      now rewrite append_associative, <- app_assoc.
    + rewrite length_app. simpl in *. lia.
    + destruct ctx as [n|]; simpl in *; [lia | exact I].
Qed.

(** C5, as the code has it.  For a stream that ends in EOF and has no
    more chunks than the output pipe holds, read while the context stays
    alive, the handler forwards every chunk, unchanged and in order, and
    leaves the history with at most one message more: the assistant
    message whose content is the concatenated text of the assistant chunks
    and whose tool calls are their concatenated tool calls, appended
    exactly when that text is not empty or there is some tool call. *)
Theorem post_handler_records_aggregate (out : StreamReader)
    (ctxDoneAfter : option nat) (history : list Message) :
  ending out = EOF ->
  (length (chunks out) <= pipeCapacity)%nat ->
  ctxAliveFor ctxDoneAfter (length (chunks out)) ->
  let finalMsg :=
    mkMessage Assistant (textOf (chunks out)) [] (toolCallsOf (chunks out)) "" in
  streamStatePostHandler out ctxDoneAfter history =
  Returned (chunks out)
    (if negb (String.eqb (textOf (chunks out)) "")
        || negb (bool_decide (toolCallsOf (chunks out) = []))
     then history ++ [finalMsg] else history).
Proof.
  intros Hend Hcap Halive finalMsg. unfold streamStatePostHandler. rewrite Hend.
  rewrite postHandlerLoop_returns by (simpl; assumption). simpl.
  change ("" +:+ textOf (chunks out)) with (textOf (chunks out)).
  f_equal. unfold recorded, worthRecording, hasToolCalls. simpl.
  subst finalMsg.
  destruct (String.eqb (textOf (chunks out)) ""); simpl.
  - destruct (toolCallsOf (chunks out)) as [|tc tcs] eqn:Htc; simpl.
    + now rewrite app_nil_r.
    + reflexivity.
  - reflexivity.
Qed.

Lemma post_handler_records_aggregate_witness :
  streamStatePostHandler
    (mkStreamReader
       [mkMessage Assistant "Bei" [] [] ""; mkMessage Assistant "jing" [] [] "";
        mkMessage Assistant "" []
          [mkToolCall "call_1" "function" (mkFunctionCall "get_weather" "{}")] ""]
       EOF)
    (Some 4%nat) [mkMessage User "weather?" [] [] ""] =
  Returned
    [mkMessage Assistant "Bei" [] [] ""; mkMessage Assistant "jing" [] [] "";
     mkMessage Assistant "" []
       [mkToolCall "call_1" "function" (mkFunctionCall "get_weather" "{}")] ""]
    [mkMessage User "weather?" [] [] "";
     mkMessage Assistant "Beijing" []
       [mkToolCall "call_1" "function" (mkFunctionCall "get_weather" "{}")] ""].
Proof.
  apply (post_handler_records_aggregate
           (mkStreamReader
              [mkMessage Assistant "Bei" [] [] ""; mkMessage Assistant "jing" [] [] "";
               mkMessage Assistant "" []
                 [mkToolCall "call_1" "function" (mkFunctionCall "get_weather" "{}")] ""]
              EOF)
           (Some 4%nat) [mkMessage User "weather?" [] [] ""]).
  - reflexivity.
  - vm_compute. lia.
  - vm_compute. lia.
Defined.

(** C5 as stated fails: a stream that closes without any text or tool
    call leaves the history as it was, so no assistant message is
    appended. *)
Lemma post_handler_appends_nothing_for_empty_reply :
  let history := [mkMessage User "hello" [] [] ""] in
  streamStatePostHandler (mkStreamReader [] EOF) None history = Returned [] history /\
  streamStatePostHandler (mkStreamReader [mkMessage Assistant "" [] [] ""] EOF) None history
    = Returned [mkMessage Assistant "" [] [] ""] history /\
  ~ (forall out, ending out = EOF ->
       exists reply, historyOf (streamStatePostHandler out None history)
                     = history ++ [reply]).
Proof.
  intros history. split; [reflexivity|]. split; [reflexivity|].
  intros H. destruct (H (mkStreamReader [] EOF) eq_refl) as [reply Hreply].
  apply (f_equal length) in Hreply. cbv in Hreply. discriminate Hreply.
Qed.

(** A stream that ends in an error, or a context cancelled while the
    stream is read, leaves the history as it was. *)
Lemma post_handler_keeps_history_on_failure (out : StreamReader)
    (ctxDoneAfter : option nat) (history : list Message) :
  (forall reader h, streamStatePostHandler out ctxDoneAfter history <> Returned reader h) ->
  historyOf (streamStatePostHandler out ctxDoneAfter history) = history.
Proof.
  unfold streamStatePostHandler. generalize (@nil Message) as pipe.
  generalize zeroMessage as finalMsg. revert ctxDoneAfter.
  induction (chunks out) as [|msg rest IH]; intros ctx finalMsg pipe Hnot.
  - destruct ctx as [[|n]|]; simpl in *; try reflexivity;
      destruct (ending out); try reflexivity;
      destruct (worthRecording finalMsg); exfalso; eapply Hnot; reflexivity.
  - destruct ctx as [[|n]|]; simpl in *; try reflexivity;
      destruct (length pipe <? pipeCapacity)%nat; try reflexivity;
      apply IH; exact Hnot.
Qed.

(** The eleventh chunk finds the pipe full: the handler has not returned
    the reader yet, and the send does not come back. *)
Lemma post_handler_blocks_beyond_pipe (out : StreamReader) (history : list Message) :
  (pipeCapacity < length (chunks out))%nat ->
  streamStatePostHandler out None history = BlockedOnSend history.
Proof.
  unfold streamStatePostHandler.
  assert (H : forall deltas pipe finalMsg,
             (pipeCapacity < length pipe + length deltas)%nat ->
             (length pipe <= pipeCapacity)%nat ->
             postHandlerLoop deltas (ending out) None pipe finalMsg history
             = BlockedOnSend history).
  { induction deltas as [|msg rest IH]; intros pipe finalMsg Hlong Hpipe; simpl in *.
    - lia.
    - destruct (Nat.ltb_spec (length pipe) pipeCapacity) as [Hlt|Hge]; [|reflexivity].
      apply IH; rewrite length_app; simpl; lia. }
  intros Hlong. apply H; simpl; [exact Hlong | unfold pipeCapacity; lia].
Qed.

(** ** The ingestion loop of SendTTSAudio *)

Lemma dispatchFrame_effect (st : Ingest) (frame : Frame) :
  flowControlChan (dispatchFrame st frame) = fst (trySend (flowControlChan st) frame) /\
  metaAudioChan (dispatchFrame st frame) = fst (trySend (metaAudioChan st) frame) /\
  logs (dispatchFrame st frame) =
    logs st
    ++ (if hasRoom (metaAudioChan st) then [] else [DebugMetaAudioChanFull])
    ++ (if hasRoom (flowControlChan st) then [] else [WarnFlowControlChanFull]).
Proof.
  unfold dispatchFrame, trySend, hasRoom.
  destruct (length (queue (metaAudioChan st)) <? capacity (metaAudioChan st))%nat;
    destruct (length (queue (flowControlChan st)) <? capacity (flowControlChan st))%nat;
    simpl; rewrite ?app_nil_r, <- ?app_assoc; auto.
Qed.

Lemma trySend_queue (c : Chan) (frame : Frame) :
  queue (fst (trySend c frame)) = (if hasRoom c then queue c ++ [frame] else queue c) /\
  capacity (fst (trySend c frame)) = capacity c.
Proof. unfold trySend, hasRoom. now destruct (_ <? _)%nat. Qed.

Lemma ingestLoop_flow_queue (events : list IngestEvent) (st : Ingest) :
  (length (queue (flowControlChan st)) <= capacity (flowControlChan st))%nat ->
  queue (flowControlChan (ingestLoop events st)) =
  queue (flowControlChan st)
  ++ take (capacity (flowControlChan st) - length (queue (flowControlChan st)))
       (framesRead events).
Proof.
  revert st. induction events as [|ev rest IH]; intros st Hle; simpl.
  - now rewrite take_nil, app_nil_r.
  - destruct ev as [frame| | |]; simpl.
    + destruct (dispatchFrame_effect st frame) as (Hflow & _ & _).
      destruct (trySend_queue (flowControlChan st) frame) as (Hq & Hc).
      rewrite IH; rewrite Hflow, Hq, Hc; unfold hasRoom in *;
        destruct (Nat.ltb_spec (length (queue (flowControlChan st)))
                    (capacity (flowControlChan st))) as [Hlt|Hge];
        rewrite ?length_app; simpl; try lia.
      * rewrite <- app_assoc. simpl. f_equal.
        destruct (capacity (flowControlChan st) - length (queue (flowControlChan st)))%nat
          as [|k] eqn:Hk; [lia|]. simpl. do 2 f_equal. lia.
      * replace (capacity (flowControlChan st) - length (queue (flowControlChan st)))%nat
          with 0%nat by lia. reflexivity.
    + now rewrite take_nil, app_nil_r.
    + now rewrite take_nil, app_nil_r.
    + rewrite IH; simpl; [reflexivity | exact Hle].
Qed.

(** C9, as the code has it.  Each frame read from the TTS audio channel is
    offered to both channels by a send that cannot block.  The digital-
    human channel's fate does not touch the pacer channel.  A frame that
    finds the pacer channel with room is appended to it; one that finds it
    full is discarded with the warning.  So over a whole run the pacer
    channel holds, in order, the first 1000 frames read and no later
    one. *)
Theorem ingest_offers_each_frame (events : list IngestEvent) (st : Ingest) (frame : Frame) :
  queue (flowControlChan (ingestLoop events ingestStart)) = take 1000 (framesRead events) /\
  queue (flowControlChan (dispatchFrame st frame)) =
    (if hasRoom (flowControlChan st)
     then queue (flowControlChan st) ++ [frame]
     else queue (flowControlChan st)) /\
  queue (metaAudioChan (dispatchFrame st frame)) =
    (if hasRoom (metaAudioChan st)
     then queue (metaAudioChan st) ++ [frame]
     else queue (metaAudioChan st)) /\
  logs (dispatchFrame st frame) =
    logs st
    ++ (if hasRoom (metaAudioChan st) then [] else [DebugMetaAudioChanFull])
    ++ (if hasRoom (flowControlChan st) then [] else [WarnFlowControlChanFull]).
Proof.
  split.
  - rewrite ingestLoop_flow_queue by (simpl; lia). reflexivity.
  - destruct (dispatchFrame_effect st frame) as (Hflow & Hmeta & Hlogs).
    rewrite Hflow, Hmeta, Hlogs.
    destruct (trySend_queue (flowControlChan st) frame) as (-> & _).
    destruct (trySend_queue (metaAudioChan st) frame) as (-> & _).
    auto.
Qed.

(** C9 as stated fails: the frame that arrives when 1000 frames wait in
    the pacer channel is not delivered to the pacer. *)
Lemma pacer_channel_overflow_drops_frame :
  let events := repeat (FrameArrives [0]) 1000 ++ [FrameArrives [1]] in
  let st := ingestLoop events ingestStart in
  ([1] ∈ framesRead events) /\
  ([1] ∉ queue (flowControlChan st)) /\
  queue (flowControlChan st) = repeat [0] 1000 /\
  logs st = [DebugMetaAudioChanFull; WarnFlowControlChanFull].
Proof.
  intros events st.
  assert (Hq : queue (flowControlChan st) = repeat [0] 1000) by (vm_compute; reflexivity).
  split; [|split; [|split]].
  - assert (Hr : framesRead events = repeat [0] 1000 ++ [[1]])
      by (vm_compute; reflexivity).
    rewrite Hr. apply elem_of_app. right. now apply list_elem_of_singleton.
  - rewrite Hq. intros Hin. apply list_elem_of_In, repeat_spec in Hin. discriminate Hin.
  - exact Hq.
  - vm_compute. reflexivity.
Qed.

(** ** Go integers, UTF-8 and JSON *)

Lemma int64_small (x : Z) :
  -9223372036854775808 <= x < 9223372036854775808 -> int64 x = x.
Proof. intros H. unfold int64. rewrite Z.mod_small; lia. Qed.

Lemma validLoop_cons (c : ascii) (rest : string) (skip : nat) :
  validLoop (String c rest) skip =
  match skip with
  | S k => validLoop rest k
  | O =>
      if byteOf c <? RuneSelf then validLoop rest 0
      else if isInvalidRune (DecodeRuneInString (String c rest)) then false
      else validLoop rest (snd (DecodeRuneInString (String c rest)) - 1)
  end.
Proof. reflexivity. Qed.

Lemma jsonStringLoop_cons (c : ascii) (rest : string) (skip : nat) :
  jsonStringLoop (String c rest) skip =
  match skip with
  | S k => String c (jsonStringLoop rest k)
  | O =>
      if byteOf c <? RuneSelf then String c (jsonStringLoop rest 0)
      else if isInvalidRune (DecodeRuneInString (String c rest))
      then replacementCharacter +:+ jsonStringLoop rest 0
      else String c (jsonStringLoop rest (snd (DecodeRuneInString (String c rest)) - 1))
  end.
Proof. reflexivity. Qed.

(** A string that is UTF-8 is written and read back as it is. *)
Lemma jsonStringLoop_valid (s : string) (skip : nat) :
  validLoop s skip = true -> jsonStringLoop s skip = s.
Proof.
  revert skip. induction s as [|c rest IH]; intros skip H; [reflexivity|].
  rewrite validLoop_cons in H. rewrite jsonStringLoop_cons.
  destruct skip as [|k]; [|now rewrite IH].
  destruct (byteOf c <? RuneSelf); [now rewrite IH|].
  destruct (isInvalidRune _); [discriminate|]. now rewrite IH.
Qed.

(** The decoder looks at no more bytes than the rune it finds, and the
    loop copies these. *)
Lemma DecodeRuneInString_copied (c : ascii) (rest : string) :
  isInvalidRune (DecodeRuneInString (String c rest)) = false ->
  DecodeRuneInString
    (String c (jsonStringLoop rest (snd (DecodeRuneInString (String c rest)) - 1)))
  = DecodeRuneInString (String c rest).
Proof.
  unfold DecodeRuneInString, isInvalidRune.
  destruct (first (byteOf c)) as [| |sz lo hi]; [reflexivity | reflexivity |].
  destruct rest as [|c1 rest1]; [reflexivity|].
  destruct ((byteOf c1 <? lo) || (hi <? byteOf c1)) eqn:H1; [discriminate|].
  destruct (sz <=? 2)%nat eqn:Hsz2.
  { intros _. cbn [snd Nat.sub]. rewrite jsonStringLoop_cons. cbv beta iota zeta.
    now rewrite H1. }
  destruct rest1 as [|c2 rest2]; [discriminate|].
  destruct (negb (isContinuation (byteOf c2))) eqn:H2; [discriminate|].
  destruct (sz <=? 3)%nat eqn:Hsz3.
  { intros _. cbn [snd Nat.sub]. rewrite !jsonStringLoop_cons. cbv beta iota zeta.
    now rewrite H1, H2. }
  destruct rest2 as [|c3 rest3]; [discriminate|].
  destruct (negb (isContinuation (byteOf c3))) eqn:H3; [discriminate|].
  intros _. cbn [snd Nat.sub]. rewrite !jsonStringLoop_cons. cbv beta iota zeta.
  now rewrite H1, H2, H3.
Qed.

(** What is written is UTF-8. *)
Lemma jsonStringLoop_is_valid (s : string) (skip : nat) :
  validLoop (jsonStringLoop s skip) skip = true.
Proof.
  revert skip. induction s as [|c rest IH]; intros skip; [reflexivity|].
  rewrite jsonStringLoop_cons. destruct skip as [|k]; [|rewrite validLoop_cons; apply IH].
  destruct (byteOf c <? RuneSelf) eqn:Hc.
  { rewrite validLoop_cons, Hc. apply IH. }
  destruct (isInvalidRune (DecodeRuneInString (String c rest))) eqn:Hd.
  - change (replacementCharacter +:+ jsonStringLoop rest 0)
      with (String (ascii_of_nat 239) (String (ascii_of_nat 191)
              (String (ascii_of_nat 189) (jsonStringLoop rest 0)))).
    rewrite validLoop_cons.
    change (byteOf (ascii_of_nat 239) <? RuneSelf) with false. cbv iota.
    change (DecodeRuneInString
              (String (ascii_of_nat 239) (String (ascii_of_nat 191)
                 (String (ascii_of_nat 189) (jsonStringLoop rest 0)))))
      with (65533, 3%nat).
    change (isInvalidRune (65533, 3%nat)) with false. cbv iota.
    cbn [snd Nat.sub]. rewrite !validLoop_cons. apply IH.
  - rewrite validLoop_cons, Hc, (DecodeRuneInString_copied c rest Hd), Hd. apply IH.
Qed.

Lemma jsonString_valid (s : string) : ValidString s = true -> jsonString s = s.
Proof. apply jsonStringLoop_valid. Qed.

Lemma jsonString_is_valid (s : string) : ValidString (jsonString s) = true.
Proof. apply jsonStringLoop_is_valid. Qed.

Lemma jsonString_idempotent (s : string) : jsonString (jsonString s) = jsonString s.
Proof. apply jsonString_valid, jsonString_is_valid. Qed.

(** *** Text and varchar values *)

Lemma charLength_slice (n : nat) (s : string) :
  charLength s = (charLength (slice_to n s) + charLength (slice_from n s))%nat.
Proof.
  revert s. induction n as [|n IH]; intros s; [reflexivity|].
  destruct s as [|c s]; [reflexivity|]. cbn [slice_to slice_from charLength].
  rewrite (IH s). destruct (isContinuation (byteOf c)); lia.
Qed.

Lemma length_slice_from (n : nat) (s : string) :
  String.length (slice_from n s) = (String.length s - n)%nat.
Proof.
  revert s. induction n as [|n IH]; intros s; cbn [slice_from]; [lia|].
  destruct s as [|c s]; [reflexivity|]. cbn [String.length]. now rewrite IH.
Qed.

Lemma charLength_le_length (s : string) : (charLength s <= String.length s)%nat.
Proof.
  induction s as [|c s IH]; cbn [charLength String.length]; [lia|].
  destruct (isContinuation (byteOf c)); lia.
Qed.

Lemma allSpaces_charLength (s : string) :
  allSpaces s = true -> charLength s = String.length s.
Proof.
  induction s as [|c s IH]; [reflexivity|]. cbn [allSpaces charLength String.length].
  intros H. apply andb_prop in H as [Hc Hs]. apply Ascii.eqb_eq in Hc. subst c.
  change (isContinuation (byteOf " ")) with false. cbv iota. now rewrite IH.
Qed.

Lemma pgVarchar_fits (n : nat) (s : string) :
  (charLength s <= n)%nat -> pgVarchar n s = inl s.
Proof.
  intros H. unfold pgVarchar. destruct (Nat.leb_spec (charLength s) n); [reflexivity | lia].
Qed.

Lemma pgVarchar_same (n : nat) (s t : string) :
  pgVarchar n s = inl t -> (charLength s <= n)%nat -> t = s.
Proof. intros H Hfit. rewrite (pgVarchar_fits n s Hfit) in H. congruence. Qed.

(** What a [varchar(n)] column holds has at most [n] characters. *)
Lemma pgVarchar_charLength (n : nat) (s t : string) :
  pgVarchar n s = inl t -> (charLength t <= n)%nat.
Proof.
  unfold pgVarchar. destruct (Nat.leb_spec (charLength s) n) as [Hfit|Hlong].
  - intros H. injection H as <-. exact Hfit.
  - set (cut := (String.length s - (charLength s - n))%nat).
    destruct (allSpaces (slice_from cut s)) eqn:Hsp; [|discriminate].
    intros H. injection H as <-.
    pose proof (charLength_slice cut s) as Hsplit.
    pose proof (allSpaces_charLength _ Hsp) as Htail.
    rewrite length_slice_from in Htail.
    pose proof (charLength_le_length s). unfold cut in *. lia.
Qed.

(** ** The memory store *)

Ltac split_checks H :=
  repeat match type of H with
         | context [if ?b then _ else _] =>
             let E := fresh "Hcheck" in destruct b eqn:E; cbn beta iota in H
         | context [match ?r with inl _ => _ | inr _ => _ end] =>
             let E := fresh "Hfit" in destruct r eqn:E; cbn beta iota in H
         end; try discriminate H.

Lemma pgSessionRow_inl (s row : ConversationSession) :
  pgSessionRow s = inl row ->
  pgVarchar 64 (cs_SessionID s) = inl (cs_SessionID row).
Proof.
  unfold pgSessionRow, andThen, ensure. intros H. split_checks H.
  injection H as <-. reflexivity.
Qed.

(** What the stored row of a message holds. *)
Lemma pgMessageRow_inl (m : ConversationMessage) (row : MessageRow) :
  pgMessageRow m = inl row ->
  pgVarchar 64 (cm_SessionID m) = inl (col_session_id row) /\
  pgVarchar 128 (cm_DeviceID m) = inl (col_device_id row) /\
  pgVarchar 64 (cm_MessageID m) = inl (col_message_id row) /\
  col_sequence_num row = cm_SequenceNum m /\
  pgVarchar 20 (cm_Role m) = inl (col_role row) /\
  col_content row = cm_Content m /\
  col_multi_content row = JSONBArray_Value (cm_MultiContent m) /\
  col_tool_calls row = JSONBArray_Value (cm_ToolCalls m) /\
  pgVarchar 64 (cm_ToolCallID m) = inl (col_tool_call_id row) /\
  col_created_at row = cm_CreatedAt m.
Proof.
  unfold pgMessageRow, andThen, ensure. intros H. split_checks H.
  injection H as <-. cbn. repeat split; reflexivity.
Qed.

Lemma ctxDone_later (ctx : Context) (k k' : nat) :
  (k <= k')%nat -> ctxDone ctx k = true -> ctxDone ctx k' = true.
Proof.
  unfold ctxDone. destruct ctx as [n|]; [|discriminate].
  intros Hk H. apply Nat.leb_le in H. apply Nat.leb_le. lia.
Qed.

(** A statement that the context lets through is failed by connection
    or server only. *)
Lemma stmtError_answered (ctx : Context) (faults : Faults) (k k' : nat) :
  (k <= k')%nat -> faults k = None -> stmtError ctx faults k' = None ->
  stmtError ctx faults k = None.
Proof.
  unfold stmtError. intros Hk Hf H'.
  destruct (ctxDone ctx k) eqn:Hd.
  - rewrite (ctxDone_later ctx k k' Hk Hd) in H'. discriminate.
  - now rewrite Hf.
Qed.

Lemma queryError_None (ctx : Context) (faults : Faults) (k : nat) (param : string) :
  queryError ctx faults k [param] = None <->
  stmtError ctx faults k = None /\ pgText param = true.
Proof.
  unfold queryError. destruct (stmtError ctx faults k); cbn [forallb].
  - split; [discriminate | intros [? _]; discriminate].
  - rewrite andb_true_r. destruct (pgText param); split; auto; try discriminate.
    intros [_ ?]; discriminate.
Qed.

(** [ensureSession] never touches the messages; it leaves the sessions
    as they are or adds the row of the session it was asked for. *)
Lemma ensureSession_cases (ctx : Context) (faults : Faults) (db : DB)
    (sessionID deviceID agentID : string) (now : Z) :
  let result := ensureSession ctx faults db sessionID deviceID agentID now in
  conversation_messages (fst result) = conversation_messages db /\
  match snd result with
  | Some _ => fst result = db
  | None =>
      queryError ctx faults 0 [sessionID] = None /\
      (((sessionID ∈ sessionIDs db) /\ fst result = db) \/
       ((sessionID ∉ sessionIDs db) /\
        exists row,
          pgVarchar 64 sessionID = inl (cs_SessionID row) /\
          (cs_SessionID row ∉ sessionIDs db) /\
          conversation_sessions (fst result) = conversation_sessions db ++ [row]))
  end.
Proof.
  unfold ensureSession, createSession, sessionIDs. cbn zeta.
  destruct (queryError ctx faults 0 [sessionID]) as [e|] eqn:Hq; [now split|].
  destruct (decide (sessionID ∈ cs_SessionID <$> conversation_sessions db)) as [Hin|Hout].
  { cbn. split; [reflexivity|]. split; [reflexivity|]. now left. }
  destruct (stmtError ctx faults 1); [now split|].
  destruct (pgSessionRow _) as [row|e] eqn:Hrow; [|now split].
  destruct (decide (cs_SessionID row ∈ cs_SessionID <$> conversation_sessions db))
    as [Hdup|Hnew]; [now split|].
  cbn. split; [reflexivity|]. split; [reflexivity|]. right. split; [exact Hout|].
  exists row. apply pgSessionRow_inl in Hrow. now cbn in Hrow.
Qed.

Lemma createMessage_cases (ctx : Context) (faults : Faults) (db : DB)
    (message : ConversationMessage) :
  let result := createMessage ctx faults db message in
  match snd result with
  | Some _ => fst result = db
  | None =>
      stmtError ctx faults 3 = None /\
      exists row,
        pgMessageRow message = inl row /\
        (col_message_id row ∉ messageIDs db) /\
        fst result = mkDB (conversation_sessions db) (conversation_messages db ++ [row])
  end.
Proof.
  unfold createMessage, messageIDs. cbn zeta.
  destruct (stmtError ctx faults 3); [reflexivity|].
  destruct (pgMessageRow message) as [row|e]; [|reflexivity].
  destruct (decide _) as [Hdup|Hnew]; [reflexivity|].
  cbn. split; [reflexivity|]. now exists row.
Qed.

Lemma maxSequenceNum_messages (sessionID : string) (db db' : DB) :
  conversation_messages db' = conversation_messages db ->
  maxSequenceNum sessionID db' = maxSequenceNum sessionID db.
Proof. intros H. unfold maxSequenceNum, sequenceNums, messagesOf. now rewrite H. Qed.

Lemma selectMaxSeq_messages (ctx : Context) (faults : Faults) (sessionID : string)
    (db db' : DB) :
  conversation_messages db' = conversation_messages db ->
  selectMaxSeq ctx faults sessionID db' = selectMaxSeq ctx faults sessionID db.
Proof.
  intros H. unfold selectMaxSeq. now rewrite (maxSequenceNum_messages _ _ _ H).
Qed.

(** What one call of [AddMessage] does.  A call that returns an error
    has stored no message; a call that returns none has stored exactly
    the row of the message it built, under an id that was not stored. *)
Lemma AddMessage_cases (ctx : Context) (faults : Faults) (db : DB) (agentID : string)
    (msg : Message) (uuid : string) (now : Z) :
  let deviceID := fst (parseAgentID agentID) in
  let sessionID := snd (parseAgentID agentID) in
  let ensured := ensureSession ctx faults db sessionID deviceID agentID now in
  let message :=
    buildMessage sessionID deviceID uuid (selectMaxSeq ctx faults sessionID db) msg now in
  let result := AddMessage ctx faults db agentID msg uuid now in
  conversation_sessions (fst result) = conversation_sessions (fst ensured) /\
  match snd result with
  | Some _ => conversation_messages (fst result) = conversation_messages db
  | None =>
      snd ensured = None /\
      stmtError ctx faults 3 = None /\
      exists row,
        pgMessageRow message = inl row /\
        (col_message_id row ∉ messageIDs db) /\
        conversation_messages (fst result) = conversation_messages db ++ [row]
  end.
Proof.
  unfold AddMessage. destruct (parseAgentID agentID) as [deviceID sessionID]. cbn [fst snd].
  pose proof (ensureSession_cases ctx faults db sessionID deviceID agentID now) as [Hmsgs _].
  destruct (ensureSession ctx faults db sessionID deviceID agentID now) as [db1 [err|]];
    cbn [fst snd] in *; [now split|].
  rewrite (selectMaxSeq_messages ctx faults sessionID db db1 Hmsgs).
  pose proof (createMessage_cases ctx faults db1
                (buildMessage sessionID deviceID uuid
                   (selectMaxSeq ctx faults sessionID db) msg now)) as Hc.
  cbn zeta in Hc.
  destruct (createMessage ctx faults db1 _) as [db2 [e|]]; cbn [fst snd] in *.
  - subst db2. now split.
  - destruct Hc as (H3 & row & Hrow & Hnew & ->). cbn. split; [reflexivity|].
    split; [reflexivity|]. split; [exact H3|]. exists row.
    unfold messageIDs in *. rewrite Hmsgs in *. now split.
Qed.

(** When the call returns no error. *)
Lemma AddMessage_succeeds (ctx : Context) (faults : Faults) (db : DB) (agentID : string)
    (msg : Message) (uuid : string) (now : Z) (row : MessageRow) :
  let deviceID := fst (parseAgentID agentID) in
  let sessionID := snd (parseAgentID agentID) in
  snd (ensureSession ctx faults db sessionID deviceID agentID now) = None ->
  stmtError ctx faults 3 = None ->
  pgMessageRow (buildMessage sessionID deviceID uuid
                  (selectMaxSeq ctx faults sessionID db) msg now) = inl row ->
  col_message_id row ∉ messageIDs db ->
  snd (AddMessage ctx faults db agentID msg uuid now) = None.
Proof.
  unfold AddMessage. destruct (parseAgentID agentID) as [deviceID sessionID]. cbn [fst snd].
  pose proof (ensureSession_cases ctx faults db sessionID deviceID agentID now) as [Hmsgs _].
  destruct (ensureSession ctx faults db sessionID deviceID agentID now) as [db1 [err|]];
    cbn [fst snd] in *; [discriminate|].
  intros _ H3 Hrow Hnew.
  rewrite (selectMaxSeq_messages ctx faults sessionID db db1 Hmsgs).
  unfold createMessage. rewrite H3, Hrow. unfold messageIDs in Hnew. rewrite Hmsgs.
  destruct (decide _); [contradiction | reflexivity].
Qed.

Lemma sqlMax_snoc (l : list Z) (x : Z) :
  sqlMax (l ++ [x]) =
  Some (match sqlMax l with None => x | Some m => Z.max m x end).
Proof. destruct l as [|y l]; simpl; [reflexivity | now rewrite foldl_app]. Qed.

Lemma sqlMax_contiguous (n : nat) :
  default 0 (sqlMax (seqZ 1 (Z.of_nat n))) = Z.of_nat n.
Proof.
  induction n as [|n IH]; [reflexivity|].
  rewrite seqZ_S, sqlMax_snoc.
  destruct (sqlMax (seqZ 1 (Z.of_nat n))) as [m|]; simpl in *; lia.
Qed.

Lemma maxSequenceNum_contiguous (db : DB) (sessionID : string) :
  contiguous db -> maxSequenceNum sessionID db = len (messagesOf sessionID db).
Proof.
  intros H. unfold maxSequenceNum. rewrite (H sessionID). apply sqlMax_contiguous.
Qed.

(** A session without a row has no messages. *)
Lemma messagesOf_unknown (db : DB) (sessionID : string) :
  sessionsSound db -> sessionID ∉ sessionIDs db -> messagesOf sessionID db = [].
Proof.
  intros [_ Hrows] Hout. unfold messagesOf.
  induction (conversation_messages db) as [|row rows IH]; [reflexivity|].
  apply Forall_cons in Hrows as [Hrow Hrows]. rewrite filter_cons.
  destruct (decide (col_session_id row = sessionID)) as [Heq|_]; [|now apply IH].
  rewrite Heq in Hrow. contradiction.
Qed.

(** After [ensureSession] has returned no error the session that the
    message will be stored under has a row.  It is the session asked for
    when that one had a row already, and a session new to the store
    otherwise. *)
Lemma ensureSession_sound (ctx : Context) (faults : Faults) (db : DB)
    (sessionID deviceID agentID : string) (now : Z) :
  let result := ensureSession ctx faults db sessionID deviceID agentID now in
  Forall (fun s => (charLength s <= 64)%nat) (sessionIDs db) ->
  Forall (fun s => (charLength s <= 64)%nat) (sessionIDs (fst result)) /\
  (forall s, s ∈ sessionIDs db -> s ∈ sessionIDs (fst result)) /\
  (snd result = None ->
   pgText sessionID = true /\
   exists stored,
     pgVarchar 64 sessionID = inl stored /\
     (stored ∈ sessionIDs (fst result)) /\
     (((sessionID ∈ sessionIDs db) /\ stored = sessionID) \/
      ((sessionID ∉ sessionIDs db) /\ (stored ∉ sessionIDs db)))).
Proof.
  intros result Hlen. subst result.
  pose proof (ensureSession_cases ctx faults db sessionID deviceID agentID now) as [_ Hc].
  cbn zeta in Hc.
  destruct (snd (ensureSession ctx faults db sessionID deviceID agentID now)) as [err|].
  { rewrite Hc. split; [exact Hlen|]. split; [auto | discriminate]. }
  destruct Hc as (Hq & [[Hin ->]|(Hout & row & Hfit & Hnew & Hrows)]).
  - split; [exact Hlen|]. split; [auto|]. intros _.
    apply queryError_None in Hq as [_ Htext]. split; [exact Htext|].
    exists sessionID. rewrite Forall_forall in Hlen.
    split; [apply pgVarchar_fits, Hlen, Hin|]. split; [exact Hin|]. now left.
  - assert (Hids : sessionIDs (fst (ensureSession ctx faults db sessionID deviceID agentID now))
                   = sessionIDs db ++ [cs_SessionID row]).
    { unfold sessionIDs. rewrite Hrows, fmap_app. reflexivity. }
    rewrite Hids. split; [|split].
    + apply Forall_app. split; [exact Hlen|]. apply Forall_singleton.
      apply (pgVarchar_charLength 64 sessionID _ Hfit).
    + intros s Hs. apply elem_of_app. now left.
    + intros _. apply queryError_None in Hq as [_ Htext]. split; [exact Htext|].
      exists (cs_SessionID row). split; [exact Hfit|]. split.
      * apply elem_of_app. right. now apply list_elem_of_singleton.
      * right. now split.
Qed.

(** One call on a store with sound sessions whose query for the maximum
    is answered.  The sessions stay sound.  A call that returns no error
    has stored the row of the message built from the maximum of the
    session asked for; the row lies in that session, or in a session
    that, like the one asked for, had no messages. *)
Lemma AddMessage_row (ctx : Context) (faults : Faults) (db : DB) (agentID : string)
    (msg : Message) (uuid : string) (now : Z) :
  let deviceID := fst (parseAgentID agentID) in
  let sessionID := snd (parseAgentID agentID) in
  let result := AddMessage ctx faults db agentID msg uuid now in
  sessionsSound db -> faults 2%nat = None ->
  sessionsSound (fst result) /\
  match snd result with
  | Some _ => conversation_messages (fst result) = conversation_messages db
  | None =>
      exists row,
        conversation_messages (fst result) = conversation_messages db ++ [row] /\
        pgMessageRow (buildMessage sessionID deviceID uuid
                        (maxSequenceNum sessionID db) msg now) = inl row /\
        (col_message_id row ∉ messageIDs db) /\
        pgVarchar 64 sessionID = inl (col_session_id row) /\
        (col_session_id row = sessionID \/
         (messagesOf (col_session_id row) db = [] /\ messagesOf sessionID db = []))
  end.
Proof.
  intros deviceID sessionID result [Hlen Hrows] Hmax. subst result.
  pose proof (AddMessage_cases ctx faults db agentID msg uuid now) as [Hsess Hc].
  cbn zeta in Hsess, Hc. fold sessionID deviceID in Hsess, Hc.
  pose proof (ensureSession_sound ctx faults db sessionID deviceID agentID now Hlen)
    as (Hlen' & Hsub & Hok).
  cbn zeta in Hlen', Hsub, Hok.
  set (ensured := ensureSession ctx faults db sessionID deviceID agentID now) in *.
  assert (Hids : sessionIDs (fst (AddMessage ctx faults db agentID msg uuid now))
                 = sessionIDs (fst ensured)).
  { unfold sessionIDs. now rewrite Hsess. }
  destruct (snd (AddMessage ctx faults db agentID msg uuid now)) as [err|].
  - split; [|exact Hc]. split; rewrite Hids; [exact Hlen'|]. rewrite Hc.
    eapply Forall_impl; [exact Hrows|]. intros row Hrow. now apply Hsub.
  - destruct Hc as (Hens & H3 & row & Hrow & Hnew & Hmsgs).
    destruct (Hok Hens) as (Htext & stored & Hfit & Hstored & Hcase).
    assert (Hsel : selectMaxSeq ctx faults sessionID db = maxSequenceNum sessionID db).
    { unfold selectMaxSeq.
      assert (Hq : queryError ctx faults 2 [sessionID] = None).
      { apply queryError_None. split; [|exact Htext].
        apply (stmtError_answered ctx faults 2 3); [lia | exact Hmax | exact H3]. }
      now rewrite Hq. }
    rewrite Hsel in Hrow.
    pose proof (pgMessageRow_inl _ _ Hrow) as (Hsid & _).
    cbn [buildMessage cm_SessionID] in Hsid.
    assert (Hrowsid : col_session_id row = stored) by congruence.
    split.
    + split; rewrite Hids; [exact Hlen'|]. rewrite Hmsgs. apply Forall_app. split.
      * eapply Forall_impl; [exact Hrows|]. intros r Hr. now apply Hsub.
      * apply Forall_singleton. now rewrite Hrowsid.
    + exists row. split; [exact Hmsgs|]. split; [exact Hrow|]. split; [exact Hnew|].
      split; [exact Hsid|]. rewrite Hrowsid.
      destruct Hcase as [[Hin ->]|[Hout Hout']]; [now left | right].
      split; apply messagesOf_unknown; try assumption; now split.
Qed.

(** On a sound store the row of a call that returns no error carries
    the number of messages of its session plus one. *)
Lemma AddMessage_numbers (ctx : Context) (faults : Faults) (db : DB) (agentID : string)
    (msg : Message) (uuid : string) (now : Z) :
  let sessionID := snd (parseAgentID agentID) in
  let result := AddMessage ctx faults db agentID msg uuid now in
  storeSound db -> faults 2%nat = None ->
  len (conversation_messages db) < 9223372036854775807 ->
  sessionsSound (fst result) /\
  match snd result with
  | Some _ => conversation_messages (fst result) = conversation_messages db
  | None =>
      exists row,
        conversation_messages (fst result) = conversation_messages db ++ [row] /\
        pgVarchar 64 sessionID = inl (col_session_id row) /\
        col_sequence_num row = len (messagesOf (col_session_id row) db) + 1 /\
        (col_message_id row ∉ messageIDs db)
  end.
Proof.
  intros sessionID result [Hcont Hsound] Hmax Hbound. subst result.
  destruct (AddMessage_row ctx faults db agentID msg uuid now Hsound Hmax) as [Hsound' Hc].
  fold sessionID in Hc. split; [exact Hsound'|].
  destruct (snd (AddMessage ctx faults db agentID msg uuid now)) as [err|]; [exact Hc|].
  destruct Hc as (row & Hmsgs & Hrow & Hnew & Hsid & Hcase).
  exists row. split; [exact Hmsgs|]. split; [exact Hsid|]. split; [|exact Hnew].
  apply pgMessageRow_inl in Hrow as (_ & _ & _ & Hseq & _).
  cbn [buildMessage cm_SequenceNum] in Hseq. rewrite Hseq.
  pose proof (length_filter (fun r => col_session_id r = sessionID)
                (conversation_messages db)) as Hfl.
  destruct Hcase as [->|[Hempty Hnone]].
  - rewrite (maxSequenceNum_contiguous db sessionID Hcont).
    apply int64_small. unfold messagesOf, len in *. lia.
  - rewrite Hempty. unfold maxSequenceNum, sequenceNums. rewrite Hnone. reflexivity.
Qed.

Lemma AddMessage_contiguous (ctx : Context) (faults : Faults) (db : DB) (agentID : string)
    (msg : Message) (uuid : string) (now : Z) :
  storeSound db -> faults 2%nat = None ->
  len (conversation_messages db) < 9223372036854775807 ->
  storeSound (fst (AddMessage ctx faults db agentID msg uuid now)) /\
  len (conversation_messages (fst (AddMessage ctx faults db agentID msg uuid now)))
    <= len (conversation_messages db) + 1.
Proof.
  intros Hdb Hmax Hbound.
  destruct (AddMessage_numbers ctx faults db agentID msg uuid now Hdb Hmax Hbound)
    as [Hsound Hc].
  destruct Hdb as [Hcont _].
  destruct (snd (AddMessage ctx faults db agentID msg uuid now)) as [err|].
  - split; [|rewrite Hc; lia]. split; [|exact Hsound].
    intros sid. unfold sequenceNums, messagesOf. rewrite Hc. apply (Hcont sid).
  - destruct Hc as (row & Hmsgs & _ & Hseq & _).
    split; [|rewrite Hmsgs; unfold len; rewrite length_app; simpl; lia].
    split; [|exact Hsound]. intros sid. unfold sequenceNums, messagesOf, len.
    rewrite Hmsgs, filter_app, fmap_app, length_app, filter_cons, filter_nil.
    destruct (decide (col_session_id row = sid)) as [<-|Hother].
    + fold (messagesOf (col_session_id row) db).
      fold (sequenceNums (col_session_id row) db). rewrite (Hcont (col_session_id row)).
      cbn [length fmap list_fmap]. unfold len.
      replace (length (messagesOf (col_session_id row) db) + 1)%nat
        with (S (length (messagesOf (col_session_id row) db))) by lia.
      rewrite seqZ_S. f_equal. f_equal. rewrite Hseq. unfold len. lia.
    + cbn [length fmap list_fmap]. rewrite app_nil_r, Nat.add_0_r. apply (Hcont sid).
Qed.

Lemma addMessages_contiguous (calls : list Append) (db : DB) :
  storeSound db -> Forall maxQueryAnswered calls ->
  len (conversation_messages db) + len calls < 9223372036854775808 ->
  storeSound (addMessages db calls) /\
  len (conversation_messages (addMessages db calls))
    <= len (conversation_messages db) + len calls.
Proof.
  revert db. induction calls as [|c calls IH]; intros db Hdb Hmax Hbound.
  - split; [exact Hdb | unfold len; simpl; lia].
  - apply Forall_cons in Hmax as [Hc Hmax]. unfold len in Hbound. cbn [length] in Hbound.
    destruct (AddMessage_contiguous (ap_ctx c) (ap_faults c) db (ap_agentID c) (ap_msg c)
                (ap_uuid c) (ap_now c) Hdb Hc) as [Hdb' Hlen'];
      [unfold len; lia|].
    unfold addMessages in *. cbn [foldl]. unfold runAppend at 2 4.
    destruct (IH _ Hdb' Hmax) as [Hfinal Hlen]; [unfold len in *; lia|].
    split; [exact Hfinal|]. unfold len in *. cbn [length]. lia.
Qed.

Lemma storeSound_emptyDB : storeSound emptyDB.
Proof.
  split; [intros sid; reflexivity|]. split; constructor.
Qed.

Ltac step_call Hp :=
  cbv beta iota zeta delta
    [stepCall call_args call_at ap_ctx ap_faults ap_agentID ap_msg ap_uuid ap_now];
  rewrite ?Hp.

(** The statements of a call, run with nothing in between, are
    [AddMessage]. *)
Lemma stepCall_sequential (db : DB) (a : Append) :
  let '(db1, c1) := stepCall db (startCall a) in
  let '(db2, c2) := stepCall db1 c1 in
  let '(db3, c3) := stepCall db2 c2 in
  db3 = fst (runAppend db a) /\ call_at c3 = Finished (snd (runAppend db a)).
Proof.
  destruct a as [ctx faults agentID msg uuid now].
  unfold startCall, runAppend, AddMessage.
  destruct (parseAgentID agentID) as [deviceID sessionID] eqn:Hp.
  step_call Hp.
  destruct (ensureSession ctx faults db sessionID deviceID agentID now) as [db1 [err|]].
  - repeat step_call Hp. cbn [fst snd]. auto.
  - repeat step_call Hp.
    destruct (createMessage _ _ _ _) as [db' [e|]]; cbn [fst snd]; auto.
Qed.

(** C4, as the code has it.  From the empty store, after any sequence of
    calls of [AddMessage] that run one after the other and whose query
    for the maximum is answered by connection and server (the other
    statements may fail, and the context may end at any statement), the
    sequence numbers of every session are 1, 2, ..., n in insertion
    order.  A further such call on a session whose key fits the column
    stores nothing when it returns an error, and when it returns none it
    has given its row the session's maximum plus one, which is 1 for a
    session without messages. *)
Theorem sequential_appends_number_contiguously (calls : list Append) (sessionID : string) :
  Forall maxQueryAnswered calls ->
  len calls < 9223372036854775807 ->
  let db := addMessages emptyDB calls in
  sequenceNums sessionID db = seqZ 1 (len (messagesOf sessionID db)) /\
  maxSequenceNum sessionID db = len (messagesOf sessionID db) /\
  maxSequenceNum sessionID emptyDB = 0 /\
  forall ctx faults agentID msg uuid now,
    snd (parseAgentID agentID) = sessionID ->
    (charLength sessionID <= 64)%nat ->
    faults 2%nat = None ->
    sequenceNums sessionID (fst (AddMessage ctx faults db agentID msg uuid now)) =
    match snd (AddMessage ctx faults db agentID msg uuid now) with
    | None => sequenceNums sessionID db ++ [maxSequenceNum sessionID db + 1]
    | Some _ => sequenceNums sessionID db
    end.
Proof.
  intros Hmax Hbound db.
  destruct (addMessages_contiguous calls emptyDB storeSound_emptyDB Hmax) as [Hdb Hlen];
    [unfold len in *; simpl; lia|].
  fold db in Hdb, Hlen. pose proof Hdb as [Hcont _].
  split; [apply Hcont|]. split; [now apply maxSequenceNum_contiguous|].
  split; [reflexivity|].
  intros ctx faults agentID msg uuid now Hsid Hfits Hfault.
  destruct (AddMessage_numbers ctx faults db agentID msg uuid now Hdb Hfault) as [_ Hc];
    [unfold len in *; simpl in Hlen; lia|].
  rewrite Hsid in Hc. unfold sequenceNums at 1, messagesOf at 1.
  destruct (snd (AddMessage ctx faults db agentID msg uuid now)) as [err|].
  - now rewrite Hc.
  - destruct Hc as (row & -> & Hrowsid & Hseq & _).
    rewrite (pgVarchar_fits 64 sessionID Hfits) in Hrowsid. injection Hrowsid as Hrowsid.
    rewrite filter_app, fmap_app, filter_cons, filter_nil.
    destruct (decide (col_session_id row = sessionID)) as [_|Hne]; [|congruence].
    cbn [fmap list_fmap]. rewrite Hseq, <- Hrowsid.
    now rewrite (maxSequenceNum_contiguous db sessionID Hcont).
Qed.

Lemma sequential_appends_number_contiguously_witness :
  sequenceNums "s1"
    (fst (AddMessage background noFaults
            (addMessages emptyDB
               [mkAppend background noFaults "dev:s1" (mkMessage User "hello" [] [] "")
                  "id-1" 10;
                mkAppend (Some 3%nat) noFaults "dev:s1" (mkMessage User "lost" [] [] "")
                  "id-0" 10;
                mkAppend background noFaults "dev:s2" (mkMessage User "hi" [] [] "")
                  "id-2" 11;
                mkAppend background noFaults "dev:s1"
                  (mkMessage Assistant "hello, how can I help?" [] [] "") "id-3" 12])
            "dev:s1" (mkMessage User "weather?" [] [] "") "id-4" 13))
  = [1; 2; 3].
Proof.
  pose proof (sequential_appends_number_contiguously
                [mkAppend background noFaults "dev:s1" (mkMessage User "hello" [] [] "")
                   "id-1" 10;
                 mkAppend (Some 3%nat) noFaults "dev:s1" (mkMessage User "lost" [] [] "")
                   "id-0" 10;
                 mkAppend background noFaults "dev:s2" (mkMessage User "hi" [] [] "")
                   "id-2" 11;
                 mkAppend background noFaults "dev:s1"
                   (mkMessage Assistant "hello, how can I help?" [] [] "") "id-3" 12]
                "s1") as H.
  destruct H as (_ & _ & _ & H).
  - repeat constructor.
  - vm_compute. reflexivity.
  - rewrite (H background noFaults "dev:s1" (mkMessage User "weather?" [] [] "") "id-4" 13
               eq_refl ltac:(vm_compute; lia) eq_refl).
    vm_compute. reflexivity.
Defined.

(** C4 as stated fails for calls that overlap: nothing serializes the
    read of the maximum and the insert, so two calls on one session can
    both read the same maximum and both store sequence number 1. *)
Lemma overlapping_appends_duplicate_sequence_num :
  let a := mkAppend background noFaults "dev:s1" (mkMessage User "hello" [] [] "")
             "id-1" 10 in
  let b := mkAppend background noFaults "dev:s1"
             (mkMessage Assistant "hello, how can I help?" [] [] "") "id-2" 11 in
  let run := runSchedule emptyDB [startCall a; startCall b] [0; 1; 0; 1; 0; 1]%nat in
  call_at <$> snd run = [Finished None; Finished None] /\
  sequenceNums "s1" (fst run) = [1; 1] /\
  sequenceNums "s1" (fst run) <> seqZ 1 (len (messagesOf "s1" (fst run))) /\
  ~ NoDup (sequenceNums "s1" (fst run)).
Proof.
  intros a b run.
  assert (Hseq : sequenceNums "s1" (fst run) = [1; 1]) by (vm_compute; reflexivity).
  split; [vm_compute; reflexivity|]. split; [exact Hseq|]. split.
  - rewrite Hseq. vm_compute. discriminate.
  - rewrite Hseq. intros Hnd. apply NoDup_cons in Hnd as [Hnotin _].
    apply Hnotin. now apply list_elem_of_singleton.
Qed.

(** It fails as well, for calls that do not overlap, when the query for
    the maximum fails and the insert after it does not: the error of the
    query is not looked at, and the row is numbered 1 again. *)
Lemma failed_max_query_repeats_sequence_num :
  let lost : Faults := fun k => if (k =? 2)%nat then Some "connection reset" else None in
  let a := mkAppend background noFaults "dev:s1" (mkMessage User "hello" [] [] "")
             "id-1" 10 in
  let b := mkAppend background lost "dev:s1"
             (mkMessage Assistant "hello, how can I help?" [] [] "") "id-2" 11 in
  let db := addMessages emptyDB [a; b] in
  snd (runAppend emptyDB a) = None /\
  snd (runAppend (fst (runAppend emptyDB a)) b) = None /\
  sequenceNums "s1" db = [1; 1] /\
  sequenceNums "s1" db <> seqZ 1 (len (messagesOf "s1" db)).
Proof.
  intros lost a b db.
  split; [vm_compute; reflexivity|]. split; [vm_compute; reflexivity|].
  assert (Hseq : sequenceNums "s1" db = [1; 1]) by (vm_compute; reflexivity).
  split; [exact Hseq|]. rewrite Hseq. vm_compute. discriminate.
Qed.

Lemma AddMessage_ids_NoDup (ctx : Context) (faults : Faults) (db : DB) (agentID : string)
    (msg : Message) (uuid : string) (now : Z) :
  NoDup (messageIDs db) ->
  NoDup (messageIDs (fst (AddMessage ctx faults db agentID msg uuid now))).
Proof.
  intros Hnd. pose proof (AddMessage_cases ctx faults db agentID msg uuid now) as [_ Hc].
  cbn zeta in Hc. unfold messageIDs at 1.
  destruct (snd (AddMessage ctx faults db agentID msg uuid now)) as [err|].
  - now rewrite Hc.
  - destruct Hc as (_ & _ & row & _ & Hnew & ->). rewrite fmap_app.
    apply NoDup_app. split; [exact Hnd|]. split; [|apply NoDup_singleton].
    intros id Hid Hin. apply list_elem_of_singleton in Hin. subst id. now apply Hnew.
Qed.

Lemma addMessages_ids_NoDup (calls : list Append) (db : DB) :
  NoDup (messageIDs db) -> NoDup (messageIDs (addMessages db calls)).
Proof.
  revert db. induction calls as [|c calls IH]; intros db Hnd; [exact Hnd|].
  apply IH. now apply AddMessage_ids_NoDup.
Qed.

(** C7, as the code has it.  The id of a stored message is the UUID that
    the call generates, not something the caller passes in.  A call that
    returns no error has appended exactly one row, the row of the message
    it built under an id that was not stored, whatever the message and
    whether or not an equal message is stored already.  A call that
    returns an error has left the message table as it was.  The call
    returns no error exactly when [ensureSession] returns none, the
    insert is carried out, the columns take the values and the id is not
    stored yet; so a generated id that is stored already makes the call
    fail.  Ids stay unique in the table. *)
Theorem append_stores_one_row_per_generated_id (ctx : Context) (faults : Faults) (db : DB)
    (agentID : string) (msg : Message) (uuid : string) (now : Z) (calls : list Append) :
  let deviceID := fst (parseAgentID agentID) in
  let sessionID := snd (parseAgentID agentID) in
  let message :=
    buildMessage sessionID deviceID uuid (selectMaxSeq ctx faults sessionID db) msg now in
  let result := AddMessage ctx faults db agentID msg uuid now in
  match snd result with
  | None =>
      exists row,
        pgMessageRow message = inl row /\
        (col_message_id row ∉ messageIDs db) /\
        conversation_messages (fst result) = conversation_messages db ++ [row]
  | Some _ => conversation_messages (fst result) = conversation_messages db
  end /\
  (snd result = None <->
   snd (ensureSession ctx faults db sessionID deviceID agentID now) = None /\
   stmtError ctx faults 3 = None /\
   exists row, pgMessageRow message = inl row /\ (col_message_id row ∉ messageIDs db)) /\
  ((charLength uuid <= 64)%nat -> uuid ∈ messageIDs db -> snd result <> None) /\
  NoDup (messageIDs (addMessages emptyDB calls)).
Proof.
  intros deviceID sessionID message result.
  pose proof (AddMessage_cases ctx faults db agentID msg uuid now) as [_ Hc].
  cbn zeta in Hc. fold deviceID sessionID message result in Hc.
  assert (Hiff : snd result = None <->
                 snd (ensureSession ctx faults db sessionID deviceID agentID now) = None /\
                 stmtError ctx faults 3 = None /\
                 exists row, pgMessageRow message = inl row /\
                             (col_message_id row ∉ messageIDs db)).
  { split.
    - intros Hok. rewrite Hok in Hc. destruct Hc as (He & H3 & row & Hrow & Hnew & _).
      split; [exact He|]. split; [exact H3|]. now exists row.
    - intros (He & H3 & row & Hrow & Hnew).
      now apply (AddMessage_succeeds ctx faults db agentID msg uuid now row). }
  split; [|split; [exact Hiff|split]].
  - destruct (snd result) as [err|]; [exact Hc|].
    destruct Hc as (_ & _ & row & Hrow & Hnew & Hmsgs). now exists row.
  - intros Hfits Hstored Hok. apply Hiff in Hok as (_ & _ & row & Hrow & Hnew).
    apply pgMessageRow_inl in Hrow as (_ & _ & Hid & _).
    cbn [message buildMessage cm_MessageID] in Hid.
    rewrite (pgVarchar_fits 64 uuid Hfits) in Hid. injection Hid as Hid.
    apply Hnew. now rewrite <- Hid.
  - apply addMessages_ids_NoDup. apply NoDup_nil_2.
Qed.

Lemma append_stores_one_row_per_generated_id_witness :
  snd (AddMessage background noFaults emptyDB "dev:s1" (mkMessage User "hello" [] [] "")
         "2f1c7a52-6f0b-4c1e-9a3d-0c5b8e7d1a44" 10) = None /\
  snd (AddMessage (Some 0%nat) noFaults emptyDB "dev:s1" (mkMessage User "hello" [] [] "")
         "2f1c7a52-6f0b-4c1e-9a3d-0c5b8e7d1a44" 10) <> None.
Proof.
  destruct (append_stores_one_row_per_generated_id background noFaults emptyDB "dev:s1"
              (mkMessage User "hello" [] [] "") "2f1c7a52-6f0b-4c1e-9a3d-0c5b8e7d1a44" 10 [])
    as (_ & Hiff & _).
  destruct (append_stores_one_row_per_generated_id (Some 0%nat) noFaults emptyDB "dev:s1"
              (mkMessage User "hello" [] [] "") "2f1c7a52-6f0b-4c1e-9a3d-0c5b8e7d1a44" 10 [])
    as (_ & Hiff' & _).
  split.
  - apply Hiff. split; [vm_compute; reflexivity|]. split; [vm_compute; reflexivity|].
    eexists. split; [vm_compute; reflexivity|]. vm_compute. apply not_elem_of_nil.
  - intros Hok. apply Hiff' in Hok as [He _]. vm_compute in He. discriminate He.
Defined.

(** C7 as stated fails: the same message appended twice is stored twice,
    under two generated ids and two sequence numbers. *)
Lemma append_twice_stores_two_rows :
  let msg := mkMessage User "hello" [] [] "" in
  let once := fst (AddMessage background noFaults emptyDB "dev:s1" msg "id-1" 10) in
  let twice := fst (AddMessage background noFaults once "dev:s1" msg "id-2" 11) in
  col_content <$> conversation_messages once = ["hello"] /\
  col_content <$> conversation_messages twice = ["hello"; "hello"] /\
  col_message_id <$> conversation_messages twice = ["id-1"; "id-2"] /\
  col_sequence_num <$> conversation_messages twice = [1; 2] /\
  conversation_messages twice <> conversation_messages once.
Proof.
  intros msg once twice.
  split; [vm_compute; reflexivity|]. split; [vm_compute; reflexivity|].
  split; [vm_compute; reflexivity|]. split; [vm_compute; reflexivity|].
  intros Heq. apply (f_equal length) in Heq. vm_compute in Heq. discriminate Heq.
Qed.
(** ** The pacer *)

(** After the head of an iteration the clock has reached the scheduled
    instant of the next frame. *)
Lemma pacerWait_reaches (startTime frameDuration cacheFrameCount now totalFrames overSleep : Z) :
  0 <= overSleep ->
  startTime + (totalFrames - cacheFrameCount) * frameDuration
  <= snd (pacerWait startTime frameDuration cacheFrameCount now totalFrames overSleep)
  /\ now <= snd (pacerWait startTime frameDuration cacheFrameCount now totalFrames overSleep).
Proof.
  intros H. unfold pacerWait.
  destruct (Z.ltb_spec now (startTime + (totalFrames - cacheFrameCount) * frameDuration));
    simpl; lia.
Qed.

(** During the pre-roll the head of an iteration does not sleep. *)
Lemma pacerWait_preroll (startTime frameDuration cacheFrameCount now totalFrames overSleep : Z) :
  0 <= frameDuration -> startTime <= now -> totalFrames <= cacheFrameCount ->
  pacerWait startTime frameDuration cacheFrameCount now totalFrames overSleep = ([], now).
Proof.
  intros Hfd Hnow Hpre. unfold pacerWait.
  destruct (Z.ltb_spec now (startTime + (totalFrames - cacheFrameCount) * frameDuration));
    [nia | reflexivity].
Qed.

(** The schedule of the loop behind the [return]: frame [n] would be
    handed to the transport no earlier than
    [startTime + (n - cacheFrameCount) * frameDuration]. *)
Lemma flowControlLoop_paced (startTime frameDuration cacheFrameCount : Z)
    (steps : list PacerStep) (closeOverSleep closeWait now totalFrames : Z) :
  Forall stepDelaysOk steps ->
  Forall (fun '(n, sentAt, _) =>
            startTime + (n - cacheFrameCount) * frameDuration <= sentAt)
    (framesSent (fst (flowControlLoop startTime frameDuration cacheFrameCount steps
                        closeOverSleep closeWait now totalFrames))).
Proof.
  revert now totalFrames. induction steps as [|step rest IH]; intros now total Hok.
  - simpl. destruct (pacerWait _ _ _ _ _ _) as [slept now1] eqn:Hw.
    assert (Hs : framesSent slept = []).
    { unfold pacerWait in Hw. destruct (_ <? _); inversion Hw; reflexivity. }
    destruct (_ >? _); simpl; unfold framesSent in *;
      rewrite ?omap_app, ?Hs; simpl; constructor.
  - apply Forall_cons in Hok as [Hstep Hrest].
    destruct step as [frame overSleep recvWait sendTook sendOk|overSleep]; simpl.
    + destruct Hstep as (Ho & Hr & Ht).
      pose proof (pacerWait_reaches startTime frameDuration cacheFrameCount now total
                    overSleep Ho) as [Hreach _].
      destruct (pacerWait _ _ _ _ _ _) as [slept now1] eqn:Hw. simpl in Hreach.
      assert (Hs : framesSent slept = []).
      { unfold pacerWait in Hw. destruct (_ <? _); inversion Hw; reflexivity. }
      destruct sendOk.
      * specialize (IH (now1 + recvWait + sendTook) (total + 1) Hrest).
        destruct (flowControlLoop _ _ _ rest _ _ _ _) as [acts total'].
        simpl in *. unfold framesSent in *. rewrite omap_app, Hs. simpl.
        constructor; [lia | exact IH].
      * simpl. rewrite Hs. constructor.
    + destruct (pacerWait _ _ _ _ _ _) as [slept now1] eqn:Hw.
      assert (Hs : framesSent slept = []).
      { unfold pacerWait in Hw. destruct (_ <? _); inversion Hw; reflexivity. }
      simpl. rewrite Hs. constructor.
Qed.

(** C1, on the code as it is written.  [processFlowControl] returns
    before its loop: for every stream it hands no frame to the transport,
    sleeps for nothing and leaves the frame counter alone.  For a stream of
    eight frames of 20 ms that arrive at once, the loop behind the
    [return] would have sent seven frames at once, the eighth 20 ms later,
    and waited for the rest of the 160 ms after the close. *)
Theorem processFlowControl_sends_no_frame (FrameDuration cacheFrameCount : Z)
    (steps : list PacerStep) (closeOverSleep closeWait startTime totalFrames : Z) :
  let run := processFlowControl FrameDuration cacheFrameCount steps
               closeOverSleep closeWait startTime totalFrames in
  let burst := (fun i => TakeFrame [i] 0 0 0 true) <$> seqZ 0 8 in
  framesSent (fst run) = [] /\ sleeps (fst run) = [] /\ snd run = totalFrames /\
  framesSent (fst (processFlowControl 20 6 burst 0 0 0 0)) = [] /\
  (fun '(n, sentAt, _) => (n, sentAt))
    <$> framesSent (fst (processFlowControl_unreachable 20 6 burst 0 0 0 0)) =
    [(0, 0); (1, 0); (2, 0); (3, 0); (4, 0); (5, 0); (6, 0); (7, 20 * Millisecond)] /\
  sleeps (fst (processFlowControl_unreachable 20 6 burst 0 0 0 0)) =
    [20 * Millisecond; 20 * Millisecond; 120 * Millisecond].
Proof.
  intros run burst. repeat split; vm_compute; reflexivity.
Qed.

(* ===================================================================== *)
(** * Part II, continued: further properties of the code *)
(* ===================================================================== *)

(** ** getAlignedDuration *)

(** X1. For an elapsed time that is not negative and a frame duration of
    at least one millisecond whose sum stays below 2^63 nanoseconds,
    [getAlignedDuration] returns a whole number of (whole-millisecond)
    frame durations; it is the smallest such multiple that is not below
    the elapsed time cut to whole milliseconds, so it lies less than one
    millisecond below and less than one frame duration above the elapsed
    time.  (Beyond that bound the result wraps: see
    [getAlignedDuration_wraps].) *)
Theorem getAlignedDuration_rounds_up (elapsed frameDuration : Z) :
  0 <= elapsed -> Millisecond <= frameDuration ->
  elapsed + frameDuration < 9223372036854775808 ->
  exists aligned k,
    getAlignedDuration elapsed frameDuration = Some aligned /\
    aligned = k * (Milliseconds frameDuration * Millisecond) /\
    0 <= k /\
    Milliseconds elapsed * Millisecond <= aligned /\
    (k - 1) * (Milliseconds frameDuration * Millisecond)
      < Milliseconds elapsed * Millisecond /\
    elapsed - Millisecond < aligned < elapsed + frameDuration.
Proof.
  intros He Hf Hsum. unfold getAlignedDuration, Milliseconds, Millisecond in *.
  rewrite (Z.quot_div_nonneg elapsed 1000000), (Z.quot_div_nonneg frameDuration 1000000) by lia.
  assert (Hf1 : 1 <= frameDuration / 1000000)
    by (apply Z.div_le_lower_bound; lia).
  assert (He0 : 0 <= elapsed / 1000000) by (apply Z.div_pos; lia).
  destruct (Z.eqb_spec (frameDuration / 1000000) 0) as [?|_]; [lia|].
  pose proof (Z.mul_div_le elapsed 1000000 ltac:(lia)) as He1.
  pose proof (Z.mul_succ_div_gt elapsed 1000000 ltac:(lia)) as He2.
  pose proof (Z.mul_div_le frameDuration 1000000 ltac:(lia)) as Hf2.
  set (f := frameDuration / 1000000) in *. set (e := elapsed / 1000000) in *.
  rewrite (int64_small (e + f)) by lia. rewrite (int64_small (e + f - 1)) by lia.
  rewrite Z.quot_div_nonneg by lia.
  pose proof (Z.mul_div_le (e + f - 1) f ltac:(lia)) as Hq1.
  pose proof (Z.mul_succ_div_gt (e + f - 1) f ltac:(lia)) as Hq2.
  assert (0 <= (e + f - 1) / f) by (apply Z.div_pos; lia).
  set (q := (e + f - 1) / f) in *.
  assert (Hqf : q * f * 1000000 < elapsed + frameDuration).
  { clearbody q e f. nia. }
  assert (Hq0 : q <= q * f) by (clearbody q e f; nia).
  rewrite (int64_small q) by (clearbody q e f; nia).
  rewrite (int64_small (q * f)) by (clearbody q e f; nia).
  rewrite (int64_small (q * f * 1000000)) by (clearbody q e f; nia).
  exists (q * f * 1000000), q. clearbody q e f.
  split; [reflexivity|]. split; [lia|]. split; [lia|]. nia.
Qed.

Lemma getAlignedDuration_rounds_up_witness :
  exists aligned k,
    getAlignedDuration 20500000 20000000 = Some aligned /\
    aligned = k * (Milliseconds 20000000 * Millisecond) /\
    0 <= k /\
    Milliseconds 20500000 * Millisecond <= aligned /\
    (k - 1) * (Milliseconds 20000000 * Millisecond)
      < Milliseconds 20500000 * Millisecond /\
    20500000 - Millisecond < aligned < 20500000 + 20000000.
Proof.
  apply (getAlignedDuration_rounds_up 20500000 20000000); unfold Millisecond; lia.
Defined.

(** For an [elapsed] close to the largest duration (what [time.Since]
    returns for the zero time) the product with [time.Millisecond]
    leaves the range of [int64], and the result is negative. *)
Lemma getAlignedDuration_wraps :
  getAlignedDuration 9223372036854775807 20000000 = Some (-9223372036849551616).
Proof. vm_compute. reflexivity. Qed.

(** ** The sample conversions *)

Lemma int32_small (x : Z) : -2147483648 <= x < 2147483648 -> int32 x = x.
Proof. intros H. unfold int32. rewrite Z.mod_small by lia. lia. Qed.

Lemma int16_small (x : Z) : isInt16 x -> int16 x = x.
Proof. unfold isInt16. intros H. unfold int16. rewrite Z.mod_small by lia. lia. Qed.

Lemma sumZ_bounds (l : list Z) :
  Forall isInt16 l -> -32768 * len l <= sumZ l <= 32767 * len l.
Proof.
  unfold len. induction 1 as [|v l Hv _ IH]; simpl; [lia|].
  unfold isInt16 in Hv. lia.
Qed.

Lemma monoSum_sums (data : list Z) (i channels : Z) (n : nat) (c sum : Z) :
  Forall isInt16 data ->
  0 <= i * channels + c -> 0 <= c ->
  c + Z.of_nat n <= 65536 ->
  -32768 * c <= sum <= 32767 * c ->
  (Z.to_nat (i * channels + c) + n <= length data)%nat ->
  monoSum data i channels n c sum =
  Some (sum + sumZ (take n (drop (Z.to_nat (i * channels + c)) data))).
Proof.
  intros Hdata. revert c sum.
  induction n as [|n IH]; intros c sum Hidx Hc Hn Hsum Hlen; simpl.
  - unfold sumZ. simpl. f_equal. lia.
  - destruct (Z.leb_spec 0 (i * channels + c)) as [_|?]; [|lia].
    destruct (lookup_lt_is_Some_2 data (Z.to_nat (i * channels + c)) ltac:(lia))
      as [v Hv].
    rewrite Hv. erewrite drop_S by exact Hv. simpl.
    assert (Hv16 : isInt16 v).
    { eapply Forall_lookup_1; [exact Hdata | exact Hv]. }
    unfold isInt16 in Hv16.
    rewrite (int32_small v) by lia. rewrite int32_small by lia.
    assert (Hnext : Z.to_nat (i * channels + (c + 1)) = S (Z.to_nat (i * channels + c)))
      by lia.
    specialize (IH (c + 1) (sum + v)). rewrite Hnext in IH.
    rewrite IH by lia. f_equal. unfold sumZ. simpl. lia.
Qed.

Lemma frame_average_fits (frame : list Z) (channels : Z) :
  Forall isInt16 frame -> 0 < channels -> len frame = channels ->
  isInt16 (Z.quot (sumZ frame) channels).
Proof.
  intros Hf Hc Hlen. pose proof (sumZ_bounds frame Hf) as Hb. rewrite Hlen in Hb.
  unfold isInt16. split.
  - apply Z.quot_le_lower_bound; lia.
  - apply Z.quot_le_upper_bound; lia.
Qed.

Lemma frameOf_length (data : list Z) (channels i : Z) :
  0 <= i -> 0 < channels -> (i + 1) * channels <= len data ->
  len (frameOf data channels i) = channels.
Proof.
  intros Hi Hc Hlen. unfold frameOf, goSlice, len in *.
  rewrite length_take, length_drop. nia.
Qed.

Lemma monoLoop_averages (data : list Z) (channels : Z) (n : nat) (i : Z) :
  Forall isInt16 data ->
  0 < channels <= 65536 -> 0 <= i ->
  (i + Z.of_nat n) * channels <= len data ->
  monoLoop data channels n i =
  Some ((fun j => Z.quot (sumZ (frameOf data channels j)) channels)
          <$> seqZ i (Z.of_nat n)).
Proof.
  intros Hdata Hc. revert i. induction n as [|n IH]; intros i Hi Hlen.
  - reflexivity.
  - cbn [monoLoop].
    rewrite (monoSum_sums data i channels (Z.to_nat channels) 0 0 Hdata);
      try lia; [|unfold len in Hlen; nia].
    rewrite (int32_small channels) by lia.
    destruct (Z.eqb_spec channels 0) as [?|_]; [lia|].
    rewrite IH by lia.
    rewrite (seqZ_cons i (Z.of_nat (S n))) by lia. rewrite fmap_cons.
    replace (Z.pred (Z.of_nat (S n))) with (Z.of_nat n) by lia.
    replace (Z.succ i) with (i + 1) by lia.
    assert (Hframe : take (Z.to_nat channels) (drop (Z.to_nat (i * channels + 0)) data)
                     = frameOf data channels i).
    { unfold frameOf, goSlice. f_equal; [f_equal; lia | f_equal; lia]. }
    rewrite Hframe, Z.add_0_l. f_equal. f_equal.
    apply int16_small. apply frame_average_fits; [|lia|].
    + unfold frameOf, goSlice. apply Forall_take, Forall_drop, Hdata.
    + apply frameOf_length; lia.
Qed.

(** X2. For interleaved [int16] samples of 2 to 65536 channels,
    [convertToMono] does not panic and returns one sample per complete
    multi-channel sample position: the sum of the channels divided by
    their number (rounded towards zero).  Every output sample fits
    [int16], so neither the [int32] sum nor the final conversion wraps;
    samples of a trailing incomplete position are ignored. *)
Theorem convertToMono_averages_channels (data : list Z) (channels : Z) :
  Forall isInt16 data -> 1 < channels <= 65536 ->
  exists mono,
    convertToMono data channels = Some mono /\
    mono = (fun i => Z.quot (sumZ (frameOf data channels i)) channels)
             <$> seqZ 0 (len data / channels) /\
    len mono = len data / channels /\
    Forall isInt16 mono.
Proof.
  intros Hdata Hc. unfold convertToMono.
  destruct (Z.eqb_spec channels 1) as [?|_]; [lia|].
  destruct (Z.eqb_spec channels 0) as [?|_]; [lia|].
  assert (Hlen0 : 0 <= len data) by (unfold len; lia).
  rewrite Z.quot_div_nonneg by lia.
  assert (Hq : 0 <= len data / channels) by (apply Z.div_pos; lia).
  destruct (Z.ltb_spec (len data / channels) 0) as [?|_]; [lia|].
  pose proof (Z.mul_div_le (len data) channels ltac:(lia)) as Hle.
  pose proof (monoLoop_averages data channels (Z.to_nat (len data / channels)) 0
                Hdata ltac:(lia) ltac:(lia)) as Hloop.
  rewrite Z2Nat.id in Hloop by lia. rewrite Hloop by lia. eexists. split; [reflexivity|]. split; [reflexivity|].
  split.
  - unfold len at 1. rewrite length_fmap, length_seqZ. lia.
  - apply Forall_fmap, Forall_seqZ. intros i Hi. simpl.
    apply frame_average_fits; [|lia|].
    + unfold frameOf, goSlice. apply Forall_take, Forall_drop, Hdata.
    + apply frameOf_length; try lia.
      assert ((i + 1) <= len data / channels) by lia. nia.
Qed.

Lemma convertToMono_averages_channels_witness :
  exists mono,
    convertToMono [100; 200; -32768; -32768; 32767; 32766; 7] 2 = Some mono /\
    mono = [150; -32768; 32766].
Proof.
  destruct (convertToMono_averages_channels
              [100; 200; -32768; -32768; 32767; 32766; 7] 2) as (mono & H & Hm & _).
  - repeat constructor; unfold isInt16; lia.
  - lia.
  - exists mono. split; [exact H|]. rewrite Hm. vm_compute. reflexivity.
Defined.

(** The single-channel case returns the samples as they are, and zero
    channels divide by zero. *)
Lemma convertToMono_edge_cases (data : list Z) :
  convertToMono data 1 = Some data /\ convertToMono data 0 = None.
Proof. split; reflexivity. Qed.

Lemma int16_bytes_recombine (v : Z) :
  isInt16 v -> int16 (byte v + 256 * byte (Z.shiftr v 8)) = v.
Proof.
  unfold isInt16, int16, byte. intros H. rewrite Z.shiftr_div_pow2 by lia.
  change (2 ^ 8) with 256.
  replace (v mod 256 + 256 * (v / 256 mod 256)) with (v mod 65536).
  - destruct (Z.lt_ge_cases v 0) as [Hneg|Hpos].
    + replace (v mod 65536) with (v + 65536).
      * replace (v + 65536 + 32768) with (v + 32768 + 1 * 65536) by lia.
        rewrite Z.mod_add by lia. rewrite Z.mod_small by lia. lia.
      * apply Z.mod_unique with (q := -1); lia.
    + rewrite (Z.mod_small v) by lia. rewrite Z.mod_small by lia. lia.
  - change 65536 with (256 * 256). apply Z.rem_mul_r; lia.
Qed.

(** X3. [int16ToBytes] writes two bytes per sample, every one a byte
    value, low byte first; reading the pairs back little-endian returns
    the samples, so no two sample sequences share an encoding. *)
Theorem int16ToBytes_little_endian (data : list Z) :
  Forall isInt16 data ->
  length (int16ToBytes data) = (2 * length data)%nat /\
  Forall (fun b => 0 <= b < 256) (int16ToBytes data) /\
  bytesToInt16 (int16ToBytes data) = data.
Proof.
  unfold int16ToBytes. induction 1 as [|v data Hv _ (IHlen & IHbytes & IHback)].
  - repeat split; constructor.
  - cbn [mbind list_bind app]. split; [|split].
    + cbn [length]. rewrite IHlen. lia.
    + unfold byte. repeat constructor; try (apply Z.mod_pos_bound; lia). exact IHbytes.
    + cbn [bytesToInt16]. rewrite IHback, int16_bytes_recombine by exact Hv. reflexivity.
Qed.

Lemma int16ToBytes_little_endian_witness :
  int16ToBytes [1; -1; 256; -32768] = [1; 0; 255; 255; 0; 1; 0; 128] /\
  bytesToInt16 (int16ToBytes [1; -1; 256; -32768]) = [1; -1; 256; -32768].
Proof.
  split; [reflexivity|].
  apply (int16ToBytes_little_endian [1; -1; 256; -32768]).
  repeat constructor; unfold isInt16; lia.
Defined.

(** ** RecvAudio *)

Lemma recvAudioBurst_fills (buffer : Chan) (frames : list Frame) :
  (length (queue buffer) <= capacity buffer)%nat ->
  queue (fst (recvAudioBurst buffer frames)) =
    queue buffer ++ take (capacity buffer - length (queue buffer)) frames /\
  snd (recvAudioBurst buffer frames) =
    (fun k => bool_decide (length (queue buffer) + k < capacity buffer)%nat)
      <$> seq 0 (length frames).
Proof.
  revert buffer. induction frames as [|data rest IH]; intros buffer Hle.
  - simpl. rewrite take_nil, app_nil_r. auto.
  - cbn [recvAudioBurst]. unfold RecvAudio, trySend.
    destruct (Nat.ltb_spec (length (queue buffer)) (capacity buffer)) as [Hlt|Hge].
    + specialize (IH (mkChan (queue buffer ++ [data]) (capacity buffer) (closed buffer))).
      destruct (recvAudioBurst _ rest) as [buffer' oks].
      cbn [fst snd queue capacity] in *. rewrite length_app in IH. cbn [length] in IH.
      destruct IH as [IHq IHoks]; [lia|]. split.
      * rewrite IHq, <- app_assoc. cbn [app]. f_equal.
        destruct (capacity buffer - length (queue buffer))%nat as [|k] eqn:Hk; [lia|].
        cbn [take]. do 2 f_equal. lia.
      * cbn [length seq fmap list_fmap]. f_equal.
        -- rewrite bool_decide_true by lia. reflexivity.
        -- rewrite IHoks, <- fmap_S_seq, <- list_fmap_compose.
           apply list_fmap_ext. intros _ k _. cbn.
           apply bool_decide_ext. lia.
    + specialize (IH buffer Hle).
      destruct (recvAudioBurst buffer rest) as [buffer' oks].
      cbn [fst snd] in *. destruct IH as [IHq IHoks]. split.
      * rewrite IHq. replace (capacity buffer - length (queue buffer))%nat with 0%nat by lia.
        reflexivity.
      * cbn [length seq fmap list_fmap]. f_equal.
        -- rewrite bool_decide_false by lia. reflexivity.
        -- rewrite IHoks, <- fmap_S_seq, <- list_fmap_compose.
           apply list_fmap_ext. intros _ k _. cbn.
           apply bool_decide_ext. lia.
Qed.

(** X4. [RecvAudio] never blocks the transport reader: of a burst that
    nobody drains, exactly the first 100 frames are queued, in order, and
    reported as accepted; every later frame is dropped and reported as
    not accepted. *)
Theorem RecvAudio_keeps_first_hundred (frames : list Frame) :
  queue (fst (recvAudioBurst newOpusAudioBuffer frames)) = take 100 frames /\
  snd (recvAudioBurst newOpusAudioBuffer frames) =
    (fun k => bool_decide (k < 100)%nat) <$> seq 0 (length frames).
Proof.
  destruct (recvAudioBurst_fills newOpusAudioBuffer frames) as [Hq Hoks];
    [simpl; lia|].
  split; [exact Hq | exact Hoks].
Qed.

(** ** The tool-call-result node, further *)

Lemma branchLoop_skips_nil (input : list (option Message)) (hasToolCall hasToolResult : bool) :
  branchLoop (List.filter nonNil input) hasToolCall hasToolResult =
  branchLoop input hasToolCall hasToolResult.
Proof.
  revert hasToolCall hasToolResult.
  induction input as [|[msg|] rest IH]; intros c r; simpl; [reflexivity| |apply IH].
  destruct (isStopResult msg); [reflexivity | apply IH].
Qed.

(** X5. In [CreateLlmTtsGraph] the tool-call-result node only ever drops
    messages: what it returns is the input without the [nil] entries and
    without the tool results that carry a call id, in the same order.
    When the tool node hands it nothing but tool results with call ids,
    the node returns the empty list and the branch after it ends the run:
    the LLM node is not entered again. *)
Theorem tool_results_with_call_id_end_the_run {InvokableTool : Type}
    (processToolCallResult : string -> string -> InvokableTool -> string * bool)
    (mcpTools : gmap string (option InvokableTool)) (input : list (option Message)) :
  toolCallResultHandler processToolCallResult mcpTools input
    = List.filter passesThrough input /\
  ((forall o, o ∈ input -> passesThrough o = false) ->
   toolCallResultHandler processToolCallResult mcpTools input = [] /\
   afterToolCallResult (toolCallResultHandler processToolCallResult mcpTools input)
     = [END]).
Proof.
  rewrite toolCallResultHandler_passes_through. split; [reflexivity|].
  intros Hall.
  assert (Hnil : List.filter passesThrough input = []).
  { induction input as [|o rest IH]; [reflexivity|]. simpl.
    rewrite (Hall o) by (apply elem_of_cons; now left).
    apply IH. intros o' Ho'. apply Hall, elem_of_cons. now right. }
  rewrite Hnil. split; reflexivity.
Qed.

Lemma tool_results_with_call_id_end_the_run_witness :
  let results :=
    [Some (mkMessage Tool "sunny, 25 degrees" [] [] "call_1");
     Some (mkMessage Tool "ok" [] [] "call_2")] in
  toolCallResultHandler (fun (_ content : string) (_ : unit) => (content, false))
    (<["get_weather" := Some tt]> ∅) results = [] /\
  afterToolCallResult
    (toolCallResultHandler (fun (_ content : string) (_ : unit) => (content, false))
       (<["get_weather" := Some tt]> ∅) results) = [END].
Proof.
  intros results.
  apply (tool_results_with_call_id_end_the_run
           (fun (_ content : string) (_ : unit) => (content, false))
           (<["get_weather" := Some tt]> ∅) results).
  intros o Ho. unfold results in Ho.
  apply elem_of_cons in Ho as [->|Ho]; [reflexivity|].
  apply list_elem_of_singleton in Ho as ->. reflexivity.
Defined.

Lemma toolCallResultTransformLoop_without_calls {InvokableTool : Type}
    (processToolCallResult : string -> string -> InvokableTool -> string * bool)
    (mcpTools : gmap string (option InvokableTool))
    (input sent : list (option Message)) :
  (forall msg, Some msg ∈ input -> hasToolCalls msg = false) ->
  toolCallResultTransformLoop processToolCallResult mcpTools ∅ input sent =
  sent ++ List.filter nonNil input.
Proof.
  revert sent. induction input as [|[msg|] rest IH]; intros sent Hno; simpl.
  - now rewrite app_nil_r.
  - rewrite (Hno msg) by (apply elem_of_cons; now left).
    assert (Hrest : forall m, Some m ∈ rest -> hasToolCalls m = false).
    { intros m Hm. apply Hno, elem_of_cons. now right. }
    destruct (String.eqb (Role msg) Tool && negb (String.eqb (ToolCallID msg) ""));
      [rewrite lookup_empty|]; rewrite (IH _ Hrest), <- app_assoc; reflexivity.
  - apply IH. intros m Hm. apply Hno, elem_of_cons. now right.
Qed.

(** X6. In the earlier [RunEinoGraph] the tool-call-result node knows a
    tool call only from a message of its own input that carries tool
    calls.  When no input message carries any (the tool node emits tool
    results only), every message that is not [nil] is passed on
    unchanged and in order: no result is processed and none gets the
    [STOP] mark from the node, and the branch decides as it would on the
    input itself. *)
Theorem toolCallResultTransform_passes_results_on {InvokableTool : Type}
    (processToolCallResult : string -> string -> InvokableTool -> string * bool)
    (mcpTools : gmap string (option InvokableTool)) (input : list (option Message)) :
  (forall msg, Some msg ∈ input -> hasToolCalls msg = false) ->
  toolCallResultTransform processToolCallResult mcpTools input
    = List.filter nonNil input /\
  branchCondition (toolCallResultTransform processToolCallResult mcpTools input)
    = branchCondition input.
Proof.
  intros Hno. unfold toolCallResultTransform.
  rewrite (toolCallResultTransformLoop_without_calls _ _ _ _ Hno). simpl.
  split; [reflexivity|]. apply branchLoop_skips_nil.
Qed.

Lemma toolCallResultTransform_passes_results_on_witness :
  let results :=
    [Some (mkMessage Tool "playing" [] [] "call_1"); None;
     Some (mkMessage Tool "sunny" [] [] "call_2")] in
  toolCallResultTransform (fun (_ content : string) (_ : unit) => (content, true))
    (<["play_music" := Some tt]> ∅) results
    = [Some (mkMessage Tool "playing" [] [] "call_1");
       Some (mkMessage Tool "sunny" [] [] "call_2")] /\
  branchCondition
    (toolCallResultTransform (fun (_ content : string) (_ : unit) => (content, true))
       (<["play_music" := Some tt]> ∅) results) = NodeLLM.
Proof.
  intros results.
  destruct (toolCallResultTransform_passes_results_on
              (fun (_ content : string) (_ : unit) => (content, true))
              (<["play_music" := Some tt]> ∅) results) as [Hout Hbranch].
  - intros msg Hm. unfold results in Hm.
    apply elem_of_cons in Hm as [Hm|Hm]; [now inversion Hm|].
    apply elem_of_cons in Hm as [Hm|Hm]; [discriminate Hm|].
    apply list_elem_of_singleton in Hm. now inversion Hm.
  - split; [exact Hout|]. rewrite Hbranch. reflexivity.
Defined.

(** ** The stream branch and the collecting nodes *)

Lemma streamBranchLoop_decides (otherwise : string) (chunks : list (option Message))
    (ending : StreamEnd) (ctxDoneAfter : option nat) (hasToolCall : bool) :
  ctxAliveFor ctxDoneAfter (length chunks) ->
  streamBranchLoop otherwise chunks ending ctxDoneAfter hasToolCall =
  match ending with
  | EOF => (if hasToolCall || anyToolCallChunk chunks then NodeToolCall else otherwise,
            NoError)
  | RecvError err => ("", StreamError err)
  end.
Proof.
  revert ctxDoneAfter hasToolCall.
  induction chunks as [|msg rest IH]; intros ctx c Halive.
  - destruct ctx as [[|n]|]; simpl in *; try lia;
      rewrite orb_false_r; reflexivity.
  - assert (Hstep :
      streamBranchLoop otherwise (msg :: rest) ending ctx c =
      streamBranchLoop otherwise rest ending (Nat.pred <$> ctx)
        (match msg with
         | Some m => if hasToolCalls m then true else c
         | None => c
         end)).
    { destruct ctx as [[|n]|]; simpl in *; try lia; reflexivity. }
    rewrite Hstep, IH.
    + destruct ending; [|reflexivity]. simpl.
      destruct msg as [m|]; [destruct (hasToolCalls m)|]; destruct c; reflexivity.
    + destruct ctx as [n|]; simpl in *; [lia | exact I].
Qed.

(** X7. When the sentence stream ends in EOF and the context stays
    alive, the stream branch routes to the tool node exactly when some
    chunk of the stream carries tool calls, and to the collecting node
    otherwise; it decides only after the last chunk.  When the stream
    ends in an error the branch names no node and returns that error. *)
Theorem afterLlmSentenceBranch_routes (chunks : list (option Message))
    (ending : StreamEnd) (ctxDoneAfter : option nat) :
  ctxAliveFor ctxDoneAfter (length chunks) ->
  afterLlmSentenceBranchCondition chunks ending ctxDoneAfter =
  match ending with
  | EOF => (if anyToolCallChunk chunks then NodeToolCall else NodeLLMSentenceCollect,
            NoError)
  | RecvError err => ("", StreamError err)
  end.
Proof.
  intros Halive. unfold afterLlmSentenceBranchCondition.
  now rewrite streamBranchLoop_decides.
Qed.

Lemma afterLlmSentenceBranch_routes_witness :
  afterLlmSentenceBranchCondition
    [Some (mkMessage Assistant "One moment." [] [] ""); None;
     Some (mkMessage Assistant "" []
             [mkToolCall "call_1" "function" (mkFunctionCall "get_weather" "{}")] "")]
    EOF (Some 4%nat) = (NodeToolCall, NoError).
Proof.
  apply (afterLlmSentenceBranch_routes
           [Some (mkMessage Assistant "One moment." [] [] ""); None;
            Some (mkMessage Assistant "" []
                    [mkToolCall "call_1" "function" (mkFunctionCall "get_weather" "{}")] "")]
           EOF (Some 4%nat)).
  simpl. lia.
Defined.

Lemma collectLoop_collects (chunks : list (option Message)) (ending : StreamEnd)
    (ctxDoneAfter : option nat) (messages : list Message) :
  ctxAliveFor ctxDoneAfter (length chunks) ->
  collectLoop chunks ending ctxDoneAfter messages =
  (messages ++ omap id chunks,
   match ending with EOF => NoError | RecvError err => StreamError err end).
Proof.
  revert ctxDoneAfter messages.
  induction chunks as [|msg rest IH]; intros ctx messages Halive.
  - destruct ctx as [[|n]|]; simpl in *; try lia;
      rewrite app_nil_r; destruct ending; reflexivity.
  - assert (Hstep :
      collectLoop (msg :: rest) ending ctx messages =
      collectLoop rest ending (Nat.pred <$> ctx)
        (match msg with Some m => messages ++ [m] | None => messages end)).
    { destruct ctx as [[|n]|]; simpl in *; try lia; reflexivity. }
    rewrite Hstep, IH.
    + destruct msg as [m|]; simpl; [now rewrite <- app_assoc | reflexivity].
    + destruct ctx as [n|]; simpl in *; [lia | exact I].
Qed.

(** X8. While the context stays alive, [llmSentenceCollectHandler] and
    [mergeTransform] return every chunk of the stream that is not [nil],
    in stream order; when the stream ends in an error they still return
    what was read, together with the error. *)
Theorem collect_returns_all_sentences (chunks : list (option Message))
    (ending : StreamEnd) (ctxDoneAfter : option nat) :
  ctxAliveFor ctxDoneAfter (length chunks) ->
  llmSentenceCollectHandler chunks ending ctxDoneAfter =
    (omap id chunks,
     match ending with EOF => NoError | RecvError err => StreamError err end) /\
  mergeTransform chunks ending ctxDoneAfter =
    llmSentenceCollectHandler chunks ending ctxDoneAfter.
Proof.
  intros Halive. unfold mergeTransform, llmSentenceCollectHandler.
  rewrite collectLoop_collects by exact Halive. auto.
Qed.

Lemma collect_returns_all_sentences_witness :
  llmSentenceCollectHandler
    [Some (mkMessage Assistant "Hello." [] [] ""); None;
     Some (mkMessage Assistant "How can I help?" [] [] "")]
    (RecvError "connection reset") None
  = ([mkMessage Assistant "Hello." [] [] ""; mkMessage Assistant "How can I help?" [] [] ""],
     StreamError "connection reset").
Proof.
  apply (collect_returns_all_sentences
           [Some (mkMessage Assistant "Hello." [] [] ""); None;
            Some (mkMessage Assistant "How can I help?" [] [] "")]
           (RecvError "connection reset") None).
  exact I.
Defined.

(** ** The LLM node and the graph history *)

Lemma postHandlerLoop_extends_history (deltas : list Message) (ending : StreamEnd)
    (ctxDoneAfter : option nat) (pipe : list Message) (finalMsg : Message)
    (history : list Message) :
  exists extra,
    historyOf (postHandlerLoop deltas ending ctxDoneAfter pipe finalMsg history)
      = history ++ extra /\
    (length extra <= 1)%nat /\
    Forall (fun msg => Role msg = Assistant) extra.
Proof.
  revert ctxDoneAfter pipe finalMsg.
  induction deltas as [|msg rest IH]; intros ctx pipe finalMsg.
  - destruct ctx as [[|n]|]; simpl;
      try (exists []; rewrite app_nil_r; simpl; auto; fail);
      (destruct ending;
       [destruct (worthRecording finalMsg);
        [eexists [_]; simpl; repeat split; [lia | repeat constructor]
        |exists []; rewrite app_nil_r; simpl; auto]
       |exists []; rewrite app_nil_r; simpl; auto]).
  - destruct ctx as [[|n]|]; simpl;
      try (exists []; rewrite app_nil_r; simpl; auto; fail);
      (destruct (length pipe <? pipeCapacity)%nat;
       [apply IH | exists []; rewrite app_nil_r; simpl; auto]).
Qed.

(** X9. One pass through the LLM node never drops or reorders what the
    graph history holds.  The model is called with the old history
    followed by the node's input; afterwards the history is that same
    list, followed by at most one message, which has role assistant;
    whenever the post-handler does not return a reader (stream error,
    cancelled context, full pipe) nothing is added at all. *)
Theorem llmNode_only_extends_history (chatModel : list Message -> StreamReader)
    (in_ : list Message) (ctxDoneAfter : option nat) (history : list Message) :
  let '(input, result) := llmNode chatModel in_ ctxDoneAfter history in
  input = history ++ in_ /\
  (exists extra,
     historyOf result = history ++ in_ ++ extra /\
     (length extra <= 1)%nat /\
     Forall (fun msg => Role msg = Assistant) extra) /\
  ((forall reader h, result <> Returned reader h) ->
   historyOf result = history ++ in_).
Proof.
  unfold llmNode, statePreHandler. split; [reflexivity|]. split.
  - unfold streamStatePostHandler.
    destruct (postHandlerLoop_extends_history
                (chunks (chatModel (history ++ in_))) (ending (chatModel (history ++ in_)))
                ctxDoneAfter [] zeroMessage (history ++ in_)) as (extra & Hh & Hlen & Hrole).
    exists extra. rewrite Hh, <- app_assoc. auto.
  - apply post_handler_keeps_history_on_failure.
Qed.

Lemma llmNode_only_extends_history_witness :
  historyOf
    (snd (llmNode (fun _ => mkStreamReader [mkMessage Assistant "hi" [] [] ""]
                              (RecvError "timeout"))
            [mkMessage User "hello" [] [] ""] None []))
  = [mkMessage User "hello" [] [] ""].
Proof.
  pose proof (llmNode_only_extends_history
                (fun _ => mkStreamReader [mkMessage Assistant "hi" [] [] ""]
                            (RecvError "timeout"))
                [mkMessage User "hello" [] [] ""] None []) as H.
  remember (llmNode _ _ _ _) as node eqn:Hnode. destruct node as [input r].
  destruct H as (_ & _ & H). simpl. apply H.
  intros reader h Heq. subst r. vm_compute in Hnode. discriminate Hnode.
Defined.


(** ** The memory store, further *)

Lemma roundTrip_part (type text : string) :
  Unmarshal (Marshal (AMap [("type", AString type); ("text", AString text)])) =
  AMap [("text", AString (jsonString (jsonString text)));
        ("type", AString (jsonString (jsonString type)))].
Proof. reflexivity. Qed.

Lemma roundTrip_toolCall (id type name arguments : string) :
  Unmarshal (Marshal (AMap [("id", AString id); ("type", AString type);
                            ("function", AMap [("name", AString name);
                                               ("arguments", AString arguments)])])) =
  AMap [("function", AMap [("arguments", AString (jsonString (jsonString arguments)));
                           ("name", AString (jsonString (jsonString name)))]);
        ("id", AString (jsonString (jsonString id)));
        ("type", AString (jsonString (jsonString type)))].
Proof. reflexivity. Qed.

Lemma JSONBArray_Scan_Value (j : JSONBArray) :
  JSONBArray_Scan (JSONBArray_Value j) = Some (roundTrip <$> j).
Proof.
  destruct j as [|v j]; [reflexivity|]. cbn [JSONBArray_Value JSONBArray_Scan].
  f_equal. rewrite <- list_fmap_compose. reflexivity.
Qed.

(** The struct that [Find] fills from the row of a message. *)
Lemma scanRow_stored (m : ConversationMessage) (row : MessageRow) :
  pgMessageRow m = inl row ->
  scanRow row =
  Some (mkConversationMessage (col_session_id row) (col_device_id row) (col_message_id row)
          (cm_SequenceNum m) (col_role row) (cm_Content m) (roundTrip <$> cm_MultiContent m)
          (roundTrip <$> cm_ToolCalls m) (col_tool_call_id row) (cm_CreatedAt m)).
Proof.
  intros H. apply pgMessageRow_inl in H
    as (_ & _ & _ & Hseq & _ & Hcontent & Hmc & Htc & _ & Hat).
  unfold scanRow. rewrite Hmc, Htc, !JSONBArray_Scan_Value, Hseq, Hcontent, Hat.
  reflexivity.
Qed.

Lemma omap_cons_Some {A B : Type} (f : A -> option B) (x : A) (y : B) (l : list A) :
  f x = Some y -> omap f (x :: l) = y :: omap f l.
Proof.
  intros H.
  change (omap f (x :: l))
    with (match f x with Some y => y :: omap f l | None => omap f l end).
  now rewrite H.
Qed.

Lemma omap_cons_None {A B : Type} (f : A -> option B) (x : A) (l : list A) :
  f x = None -> omap f (x :: l) = omap f l.
Proof.
  intros H.
  change (omap f (x :: l))
    with (match f x with Some y => y :: omap f l | None => omap f l end).
  now rewrite H.
Qed.

Lemma decodePart_roundTrip (parts : list (string * string)) :
  omap decodePart (roundTrip <$> encodeMultiContent parts) = jsonParts parts.
Proof.
  induction parts as [|[type text] parts IH]; [reflexivity|].
  unfold encodeMultiContent, jsonParts in *. rewrite !fmap_cons. cbn [fst snd].
  rewrite (omap_cons_Some _ _ (jsonString type, jsonString text)); [now rewrite IH|].
  unfold roundTrip. rewrite roundTrip_part, !jsonString_idempotent. reflexivity.
Qed.

Lemma decodeToolCall_roundTrip (toolCalls : list ToolCall) :
  omap decodeToolCall (roundTrip <$> encodeToolCalls toolCalls) = jsonToolCalls toolCalls.
Proof.
  induction toolCalls as [|[id type [name arguments]] toolCalls IH]; [reflexivity|].
  unfold encodeToolCalls, jsonToolCalls in *. rewrite !fmap_cons.
  cbn [tc_ID tc_Type tc_Function fn_Name fn_Arguments].
  rewrite (omap_cons_Some _ _
             (mkToolCall (jsonString id) (jsonString type)
                (mkFunctionCall (jsonString name) (jsonString arguments))));
    [now rewrite IH|].
  unfold roundTrip. rewrite roundTrip_toolCall, !jsonString_idempotent. reflexivity.
Qed.

Lemma jsonParts_valid (parts : list (string * string)) :
  Forall validPart parts -> jsonParts parts = parts.
Proof.
  induction 1 as [|[type text] parts [Ht Hx] _ IH]; [reflexivity|].
  unfold jsonParts in *. rewrite fmap_cons, IH. cbn [fst snd] in *.
  now rewrite (jsonString_valid _ Ht), (jsonString_valid _ Hx).
Qed.

Lemma jsonToolCalls_valid (toolCalls : list ToolCall) :
  Forall validToolCall toolCalls -> jsonToolCalls toolCalls = toolCalls.
Proof.
  induction 1 as [|[id type [name arguments]] toolCalls (Hi & Ht & Hn & Ha) _ IH];
    [reflexivity|].
  unfold jsonToolCalls in *. rewrite fmap_cons, IH.
  cbn [tc_ID tc_Type tc_Function fn_Name fn_Arguments] in *.
  now rewrite (jsonString_valid _ Hi), (jsonString_valid _ Ht), (jsonString_valid _ Hn),
    (jsonString_valid _ Ha).
Qed.

(** X13. What [AddMessage] stores, [Find] and [convertToSchemaMessage]
    read back as follows.  The content returns as it is; role and
    tool-call id return as their [varchar] columns keep them; the type
    and text of every part and the id, type, function name and arguments
    of every tool call return in order, each string as [json.Marshal]
    writes it: with U+FFFD for every byte that is not part of well-formed
    UTF-8.  So a message whose role and tool-call id fit their columns and
    whose parts and tool calls are UTF-8 returns unchanged.  Elements of
    a column that are not objects are skipped. *)
Theorem convertToSchemaMessage_reads_back (sessionID deviceID uuid : string) (maxSeq : Z)
    (msg : Message) (now : Z) (row : MessageRow) (stored : ConversationMessage)
    (junk : Any) :
  pgMessageRow (buildMessage sessionID deviceID uuid maxSeq msg now) = inl row ->
  (exists read,
     scanRow row = Some read /\
     convertToSchemaMessage read =
       mkMessage (col_role row) (Content msg) (jsonParts (MultiContent msg))
         (jsonToolCalls (ToolCalls msg)) (col_tool_call_id row) /\
     ((charLength (Role msg) <= 20)%nat -> (charLength (ToolCallID msg) <= 64)%nat ->
      Forall validPart (MultiContent msg) -> Forall validToolCall (ToolCalls msg) ->
      convertToSchemaMessage read = msg)) /\
  ((forall m, junk <> AMap m) ->
   convertToSchemaMessage
     (mkConversationMessage (cm_SessionID stored) (cm_DeviceID stored) (cm_MessageID stored)
        (cm_SequenceNum stored) (cm_Role stored) (cm_Content stored)
        (junk :: cm_MultiContent stored) (cm_ToolCalls stored ++ [junk])
        (cm_ToolCallID stored) (cm_CreatedAt stored))
   = convertToSchemaMessage stored).
Proof.
  intros Hrow. split.
  - rewrite (scanRow_stored _ _ Hrow). eexists. split; [reflexivity|].
    unfold convertToSchemaMessage.
    cbn [buildMessage cm_Role cm_Content cm_MultiContent cm_ToolCalls cm_ToolCallID].
    rewrite decodePart_roundTrip, decodeToolCall_roundTrip. split; [reflexivity|].
    intros Hrole Hid Hparts Hcalls.
    apply pgMessageRow_inl in Hrow as (_ & _ & _ & _ & Hr & _ & _ & _ & Ht & _).
    cbn [buildMessage cm_Role cm_ToolCallID] in Hr, Ht.
    rewrite (pgVarchar_fits 20 _ Hrole) in Hr. rewrite (pgVarchar_fits 64 _ Hid) in Ht.
    injection Hr as <-. injection Ht as <-.
    rewrite (jsonParts_valid _ Hparts), (jsonToolCalls_valid _ Hcalls). now destruct msg.
  - intros Hjunk. unfold convertToSchemaMessage.
    cbn [cm_Role cm_Content cm_MultiContent cm_ToolCalls cm_ToolCallID].
    assert (Hp : decodePart junk = None)
      by (destruct junk; try reflexivity; now destruct (Hjunk m)).
    assert (Ht : decodeToolCall junk = None)
      by (destruct junk; try reflexivity; now destruct (Hjunk m)).
    rewrite omap_app, (omap_cons_None _ _ _ Hp), (omap_cons_None _ _ _ Ht).
    change (omap decodeToolCall []) with (@nil ToolCall). now rewrite app_nil_r.
Qed.

Lemma convertToSchemaMessage_reads_back_witness :
  let msg :=
    mkMessage Assistant "" [("text", "one moment")]
      [mkToolCall "call_1" "function" (mkFunctionCall "get_weather" "{}")] "" in
  exists row read,
    pgMessageRow (buildMessage "s1" "dev" "id-1" 0 msg 10) = inl row /\
    scanRow row = Some read /\
    convertToSchemaMessage read = msg.
Proof.
  intros msg.
  destruct (pgMessageRow (buildMessage "s1" "dev" "id-1" 0 msg 10)) as [row|e] eqn:Hrow;
    [|vm_compute in Hrow; discriminate Hrow].
  destruct (convertToSchemaMessage_reads_back "s1" "dev" "id-1" 0 msg 10 row
              (buildMessage "s1" "dev" "id-1" 0 msg 10) ANil Hrow)
    as [(read & Hscan & _ & Hsame) _].
  exists row, read. split; [reflexivity|]. split; [exact Hscan|].
  apply Hsame.
  - vm_compute. lia.
  - vm_compute. lia.
  - repeat constructor.
  - repeat constructor.
Defined.

(** A byte that is no UTF-8 does not return: the arguments [h 0xFF i] of
    a tool call are read back as [h U+FFFD i]. *)
Lemma invalid_bytes_read_back_replaced :
  let arguments := String "h" (String (ascii_of_nat 255) (String "i" "")) in
  let msg :=
    mkMessage Assistant "" []
      [mkToolCall "call_1" "function" (mkFunctionCall "get_weather" arguments)] "" in
  exists row read,
    pgMessageRow (buildMessage "s1" "dev" "id-1" 0 msg 10) = inl row /\
    scanRow row = Some read /\
    ToolCalls (convertToSchemaMessage read) =
      [mkToolCall "call_1" "function"
         (mkFunctionCall "get_weather" (String "h" (replacementCharacter +:+ "i")))] /\
    convertToSchemaMessage read <> msg.
Proof.
  intros arguments msg. eexists. eexists.
  split; [vm_compute; reflexivity|]. split; [vm_compute; reflexivity|].
  split; [vm_compute; reflexivity|]. vm_compute. discriminate.
Qed.

Lemma foldl_max_ge (rest : list Z) (a : Z) :
  a <= foldl Z.max a rest /\ Forall (fun x => x <= foldl Z.max a rest) rest.
Proof.
  revert a. induction rest as [|y rest IH]; intros a; simpl.
  - split; [lia | constructor].
  - destruct (IH (Z.max a y)) as [Hacc Hrest]. split; [lia|].
    constructor; [lia | exact Hrest].
Qed.

Lemma foldl_max_le (rest : list Z) (a bound : Z) :
  a <= bound -> Forall (fun x => x <= bound) rest -> foldl Z.max a rest <= bound.
Proof.
  revert a. induction rest as [|y rest IH]; intros a Ha Hrest; simpl; [exact Ha|].
  apply Forall_cons in Hrest as [Hy Hrest]. apply IH; [lia | exact Hrest].
Qed.

Lemma sqlMax_bounds (l : list Z) (bound : Z) :
  Forall (fun n => 1 <= n) l -> Forall (fun n => n <= bound) l -> 0 <= bound ->
  0 <= default 0 (sqlMax l) <= bound /\ Forall (fun x => x <= default 0 (sqlMax l)) l.
Proof.
  intros Hpos Hle Hb. destruct l as [|y rest]; simpl; [split; [lia | constructor]|].
  destruct (foldl_max_ge rest y) as [Hy Hrest].
  apply Forall_cons in Hpos as [Hy1 _]. apply Forall_cons in Hle as [Hyb Hle].
  pose proof (foldl_max_le rest y bound Hyb Hle).
  split; [lia|]. constructor; assumption.
Qed.

Lemma fmap_filter_filter_sublist {A B} (f : A -> B) (P Q : A -> Prop)
    `{!forall x, Decision (P x)} `{!forall x, Decision (Q x)} (l : list A) :
  f <$> filter P (filter Q l) `sublist_of` f <$> filter P l.
Proof.
  induction l as [|x l IH]; [constructor|].
  rewrite (filter_cons Q), (filter_cons P x l).
  destruct (decide (Q x)); [rewrite filter_cons|];
    destruct (decide (P x)); simpl; try assumption; now constructor.
Qed.

Lemma StronglySorted_sublist {A} (R : relation A) (l1 l2 : list A) :
  l1 `sublist_of` l2 -> StronglySorted R l2 -> StronglySorted R l1.
Proof.
  induction 1 as [|x l1 l2 Hsub IH|x l1 l2 Hsub IH]; intros Hs.
  - constructor.
  - apply StronglySorted_cons in Hs as [Hall Hs]. constructor; [now apply IH|].
    apply Forall_forall. intros y Hy.
    apply (Forall_forall (R x) l2); [exact Hall|]. eapply elem_of_sublist; eauto.
  - apply StronglySorted_cons in Hs as [_ Hs]. now apply IH.
Qed.

Lemma Forall_sublist_of {A} (P : A -> Prop) (l1 l2 : list A) :
  l1 `sublist_of` l2 -> Forall P l2 -> Forall P l1.
Proof.
  intros Hsub Hall. apply Forall_forall. intros x Hx.
  apply (Forall_forall P l2); [exact Hall|]. eapply elem_of_sublist; eauto.
Qed.

Lemma fmap_filter_sublist {A B} (f : A -> B) (Q : A -> Prop)
    `{!forall x, Decision (Q x)} (l : list A) :
  f <$> filter Q l `sublist_of` f <$> l.
Proof.
  induction l as [|x l IH]; [constructor|].
  rewrite filter_cons. destruct (decide (Q x)); simpl; now constructor.
Qed.

Lemma Forall_filter_of {A} (P Q : A -> Prop) `{!forall x, Decision (Q x)} (l : list A) :
  Forall P l -> Forall P (filter Q l).
Proof.
  intros Hall. apply Forall_forall. intros x Hx. apply list_elem_of_filter in Hx as [_ Hx].
  rewrite Forall_forall in Hall. now apply Hall.
Qed.

(** Deleting messages keeps the store, whatever happens to the other
    columns of the sessions. *)
Lemma storeKept_delete (bound : Z) (db db' : DB) (Q : MessageRow -> Prop)
    `{!forall row, Decision (Q row)} :
  storeKept bound db ->
  sessionIDs db' = sessionIDs db ->
  conversation_messages db' = filter Q (conversation_messages db) ->
  storeKept bound db'.
Proof.
  intros ((Hsorted & Hpos & Hids) & (Hlen & Hrows) & Hscan & Hbound) Hsess Hmsgs.
  split; [|split; [|split]].
  - repeat split.
    + intros sid. unfold sequenceNums, messagesOf. rewrite Hmsgs.
      eapply StronglySorted_sublist; [|apply (Hsorted sid)]. apply fmap_filter_filter_sublist.
    + intros sid. unfold sequenceNums, messagesOf. rewrite Hmsgs.
      eapply Forall_sublist_of; [|apply (Hpos sid)]. apply fmap_filter_filter_sublist.
    + eapply sublist_NoDup; [exact Hids|]. unfold messageIDs. rewrite Hmsgs.
      apply fmap_filter_sublist.
  - split; rewrite Hsess; [exact Hlen|]. rewrite Hmsgs. now apply Forall_filter_of.
  - unfold scannable. rewrite Hmsgs. now apply Forall_filter_of.
  - rewrite Hmsgs. now apply Forall_filter_of.
Qed.

Lemma storeKept_mono (bound bound' : Z) (db : DB) :
  bound <= bound' -> storeKept bound db -> storeKept bound' db.
Proof.
  intros Hle (Hw & Hs & Hscan & Hbound). repeat split; try assumption; try apply Hw.
  - apply Hs.
  - apply Hs.
  - eapply Forall_impl; [exact Hbound|]. intros row Hrow. simpl in *. lia.
Qed.

Lemma sequenceNums_bound (bound : Z) (db : DB) (sessionID : string) :
  Forall (fun row => col_sequence_num row <= bound) (conversation_messages db) ->
  Forall (fun n => n <= bound) (sequenceNums sessionID db).
Proof.
  intros H. unfold sequenceNums, messagesOf. apply Forall_fmap.
  now apply Forall_filter_of.
Qed.

Lemma AddMessage_storeKept (ctx : Context) (faults : Faults) (db : DB) (agentID : string)
    (msg : Message) (uuid : string) (now : Z) (bound : Z) :
  storeKept bound db -> faults 2%nat = None -> 0 <= bound < 9223372036854775807 ->
  storeKept (bound + 1) (fst (AddMessage ctx faults db agentID msg uuid now)).
Proof.
  intros ((Hsorted & Hpos & Hids) & Hsound & Hscan & Hbound) Hmax Hb.
  destruct (AddMessage_row ctx faults db agentID msg uuid now Hsound Hmax) as [Hsound' Hc].
  cbn zeta in Hc. set (sessionID := snd (parseAgentID agentID)) in *.
  destruct (snd (AddMessage ctx faults db agentID msg uuid now)) as [err|].
  { split; [|split; [exact Hsound'|split]].
    - repeat split; unfold sequenceNums, messagesOf, messageIDs; rewrite Hc;
        [apply Hsorted | apply Hpos | exact Hids].
    - unfold scannable. now rewrite Hc.
    - rewrite Hc. eapply Forall_impl; [exact Hbound|]. intros row Hrow. simpl in *. lia. }
  destruct Hc as (row & Hmsgs & Hrow & Hnew & Hsid & Hcase).
  pose proof (scanRow_stored _ _ Hrow) as Hread.
  apply pgMessageRow_inl in Hrow as (_ & _ & _ & Hseq & _).
  cbn [buildMessage cm_SequenceNum] in Hseq.
  destruct (sqlMax_bounds (sequenceNums sessionID db) bound (Hpos sessionID)
              (sequenceNums_bound bound db sessionID Hbound) ltac:(lia)) as [Hrange Hall].
  fold (maxSequenceNum sessionID db) in Hrange, Hall.
  rewrite int64_small in Hseq by lia.
  assert (Hnums : forall sid,
             sequenceNums sid (fst (AddMessage ctx faults db agentID msg uuid now)) =
             sequenceNums sid db
             ++ (if decide (col_session_id row = sid) then [col_sequence_num row] else [])).
  { intros sid. unfold sequenceNums, messagesOf.
    rewrite Hmsgs, filter_app, fmap_app, filter_cons, filter_nil.
    now destruct (decide (col_session_id row = sid)). }
  split; [|split; [exact Hsound'|split]].
  - repeat split.
    + intros sid. rewrite Hnums.
      destruct (decide (col_session_id row = sid)) as [<-|_];
        [|rewrite app_nil_r; apply Hsorted].
      destruct Hcase as [Heq|[Hempty _]].
      * rewrite Heq. apply StronglySorted_app_2; [|apply Hsorted|repeat constructor].
        intros x1 x2 Hx1 Hx2. apply list_elem_of_singleton in Hx2 as ->.
        rewrite Forall_forall in Hall. specialize (Hall x1 Hx1). lia.
      * unfold sequenceNums. rewrite Hempty. repeat constructor.
    + intros sid. rewrite Hnums. apply Forall_app. split; [apply Hpos|].
      destruct (decide _); [|constructor]. apply Forall_singleton. lia.
    + unfold messageIDs. rewrite Hmsgs, fmap_app. apply NoDup_app.
      split; [exact Hids|]. split; [|apply NoDup_singleton].
      intros id Hid Hin. apply list_elem_of_singleton in Hin. subst id. now apply Hnew.
  - unfold scannable. rewrite Hmsgs. apply Forall_app. split; [exact Hscan|].
    apply Forall_singleton. rewrite Hread. now eexists.
  - rewrite Hmsgs. apply Forall_app. split.
    + eapply Forall_impl; [exact Hbound|]. intros r Hr. simpl in *. lia.
    + apply Forall_singleton. lia.
Qed.

Lemma ResetMemory_cases (ctx : Context) (faults : Faults) (db : DB) (agentID : string) :
  let sessionID := snd (parseAgentID agentID) in
  let result := ResetMemory ctx faults db agentID in
  sessionIDs (fst result) = sessionIDs db /\
  match queryError ctx faults 0 [sessionID] with
  | Some e =>
      fst result = db /\
      snd result = Some (Errorf "failed to delete messages" (DbFailure e))
  | None =>
      conversation_messages (fst result) =
        filter (fun row => col_session_id row <> sessionID) (conversation_messages db) /\
      snd result =
        match queryError ctx faults 1 [sessionID] with
        | Some e => Some (Errorf "failed to update session status" (DbFailure e))
        | None => None
        end
  end.
Proof.
  unfold ResetMemory. cbn zeta.
  destruct (queryError ctx faults 0 [snd (parseAgentID agentID)]); [now split|].
  destruct (queryError ctx faults 1 [snd (parseAgentID agentID)]); [now split|].
  cbn [fst snd conversation_sessions conversation_messages]. split; [|now split].
  unfold sessionIDs. cbn [conversation_sessions]. rewrite <- list_fmap_compose.
  apply list_fmap_ext. intros i s _. cbn. now destruct (decide _).
Qed.

Lemma runMemoryOps_storeKept (AddDate : Z -> Z -> Z) (MessageRetentionDays : Z)
    (ops : list MemoryOp) (db : DB) (bound : Z) :
  storeKept bound db -> Forall opMaxQueryAnswered ops ->
  0 <= bound -> bound + len ops < 9223372036854775808 ->
  storeKept (bound + len ops) (runMemoryOps AddDate MessageRetentionDays db ops).
Proof.
  revert db bound. induction ops as [|op ops IH]; intros db bound Hdb Hops Hb Hlen.
  - unfold len. simpl. now rewrite Z.add_0_r.
  - apply Forall_cons in Hops as [Hop Hops]. unfold len in *. cbn [length] in *.
    unfold runMemoryOps in *. cbn [foldl].
    replace (bound + Z.of_nat (S (length ops))) with (bound + 1 + Z.of_nat (length ops))
      by lia.
    apply IH; [|exact Hops|lia|lia].
    destruct op as [a|ctx faults agentID|ctx faults now]; cbn [runMemoryOp].
    + apply AddMessage_storeKept; [exact Hdb | exact Hop | lia].
    + apply (storeKept_mono bound); [lia|].
      pose proof (ResetMemory_cases ctx faults db agentID) as [Hsess Hc]. cbn zeta in Hc.
      destruct (queryError ctx faults 0 [snd (parseAgentID agentID)]).
      * destruct Hc as [-> _]. exact Hdb.
      * destruct Hc as [Hmsgs _]. eapply storeKept_delete; eassumption.
    + apply (storeKept_mono bound); [lia|]. unfold CleanupOldMessages.
      destruct (_ <=? _); [exact Hdb|].
      destruct (stmtError ctx faults 0); [exact Hdb|].
      eapply storeKept_delete; [exact Hdb| |]; reflexivity.
Qed.

Lemma storeKept_emptyDB : storeKept 0 emptyDB.
Proof.
  repeat split; try (intros; simpl; constructor); constructor.
Qed.

Lemma insertBy_desc_last (row : MessageRow) (sorted : list MessageRow) :
  Forall (fun r => col_sequence_num row < col_sequence_num r) sorted ->
  insertBy sequenceDesc row sorted = sorted ++ [row].
Proof.
  induction 1 as [|r rest Hr _ IH]; simpl; [reflexivity|].
  unfold sequenceDesc at 1.
  destruct (Z.leb_spec (col_sequence_num r) (col_sequence_num row));
    [lia | now rewrite IH].
Qed.

Lemma orderBy_increasing (rows : list MessageRow) :
  StronglySorted Z.lt (col_sequence_num <$> rows) ->
  orderBy sequenceAsc rows = rows /\ orderBy sequenceDesc rows = reverse rows.
Proof.
  induction rows as [|row rows IH]; intros Hs; [split; reflexivity|].
  rewrite fmap_cons in Hs. apply StronglySorted_cons in Hs as [Hall Hs].
  destruct (IH Hs) as [IHasc IHdesc]. unfold orderBy in *. cbn [foldr].
  rewrite IHasc, IHdesc. split.
  - destruct rows as [|r rest]; [reflexivity|]. simpl.
    apply Forall_cons in Hall as [Hr _]. unfold sequenceAsc.
    destruct (Z.leb_spec (col_sequence_num row) (col_sequence_num r)); [reflexivity | lia].
  - rewrite reverse_cons. apply insertBy_desc_last.
    apply Forall_forall. intros r Hr. rewrite elem_of_reverse in Hr.
    rewrite Forall_forall in Hall. apply Hall. now apply list_elem_of_fmap_2.
Qed.

(** [Find] on rows that can be scanned returns their structs, in the
    order of the rows. *)
Lemma find_scans (ctx : Context) (faults : Faults) (param : string) (rows : list MessageRow) :
  Forall (fun row => is_Some (scanRow row)) rows ->
  match queryError ctx faults 0 [param] with
  | Some e => find ctx faults [param] rows = inr e
  | None =>
      exists messages,
        find ctx faults [param] rows = inl messages /\
        Forall2 (fun row m => scanRow row = Some m) rows messages
  end.
Proof.
  intros Hscan. unfold find. destruct (queryError ctx faults 0 [param]); [reflexivity|].
  destruct (mapM scanRow rows) as [messages|] eqn:Hm.
  - exists messages. split; [reflexivity|]. now apply mapM_Some.
  - exfalso. apply mapM_is_Some in Hscan. rewrite Hm in Hscan. now destruct Hscan.
Qed.

(** X10. However appends, resets and clean-ups follow one another (one
    at a time, fewer than 2^63 - 1 of them), whichever of their
    statements fail and whenever their contexts end, as long as
    connection and server answer the appends' queries for the maximum:
    the store stays well numbered.  In every session the sequence
    numbers grow strictly in insertion order and are at least 1, and no
    message id is stored twice.  [GetSessionMessages] therefore returns
    the rows of a session, scanned into structs, in the order in which
    they were appended, and returns the wrapped error of its statement
    when that fails. *)
Theorem store_stays_well_numbered (AddDate : Z -> Z -> Z) (MessageRetentionDays : Z)
    (ops : list MemoryOp) (sessionID : string) (ctx : Context) (faults : Faults) :
  Forall opMaxQueryAnswered ops ->
  len ops < 9223372036854775807 ->
  let db := runMemoryOps AddDate MessageRetentionDays emptyDB ops in
  StronglySorted Z.lt (sequenceNums sessionID db) /\
  Forall (fun n => 1 <= n) (sequenceNums sessionID db) /\
  NoDup (sequenceNums sessionID db) /\
  NoDup (messageIDs db) /\
  match queryError ctx faults 0 [sessionID] with
  | Some e =>
      GetSessionMessages ctx faults db sessionID =
        inr (Errorf "failed to get session messages" (DbFailure e))
  | None =>
      exists messages,
        GetSessionMessages ctx faults db sessionID = inl messages /\
        Forall2 (fun row m => scanRow row = Some m) (messagesOf sessionID db) messages
  end.
Proof.
  intros Hops Hlen db.
  destruct (runMemoryOps_storeKept AddDate MessageRetentionDays ops emptyDB 0
              storeKept_emptyDB Hops ltac:(lia) ltac:(lia))
    as ((Hsorted & Hpos & Hids) & _ & Hscan & _).
  fold db in Hsorted, Hpos, Hids, Hscan.
  split; [apply Hsorted|]. split; [apply Hpos|]. split; [|split; [exact Hids|]].
  - specialize (Hsorted sessionID).
    induction (sequenceNums sessionID db) as [|n l IH]; [constructor|].
    apply StronglySorted_cons in Hsorted as [Hall Hs]. constructor; [|now apply IH].
    intros Hin. rewrite Forall_forall in Hall. specialize (Hall n Hin). lia.
  - unfold GetSessionMessages.
    destruct (orderBy_increasing (messagesOf sessionID db) (Hsorted sessionID)) as [-> _].
    pose proof (find_scans ctx faults sessionID (messagesOf sessionID db)
                  (Forall_filter_of _ _ _ Hscan)) as Hfind.
    destruct (queryError ctx faults 0 [sessionID]); [now rewrite Hfind|].
    destruct Hfind as (messages & -> & Hall). now exists messages.
Qed.

Lemma store_stays_well_numbered_witness :
  let lost : Faults := fun k => if (k =? 3)%nat then Some "connection reset" else None in
  let db :=
    runMemoryOps (fun t days => t + days * 86400) 90 emptyDB
      [DoAddMessage (mkAppend background noFaults "dev:s1" (mkMessage User "hello" [] [] "")
                       "id-1" 10);
       DoAddMessage (mkAppend background lost "dev:s1" (mkMessage User "lost" [] [] "")
                       "id-2" 11);
       DoAddMessage (mkAppend background noFaults "dev:s1" (mkMessage Assistant "hi" [] [] "")
                       "id-3" 12);
       DoCleanupOldMessages background noFaults 7776011;
       DoAddMessage (mkAppend background noFaults "dev:s1"
                       (mkMessage User "weather?" [] [] "") "id-4" 7776012)] in
  sequenceNums "s1" db = [2; 3] /\ NoDup (messageIDs db).
Proof.
  intros lost db.
  destruct (store_stays_well_numbered (fun t days => t + days * 86400) 90
              [DoAddMessage (mkAppend background noFaults "dev:s1"
                               (mkMessage User "hello" [] [] "") "id-1" 10);
               DoAddMessage (mkAppend background lost "dev:s1"
                               (mkMessage User "lost" [] [] "") "id-2" 11);
               DoAddMessage (mkAppend background noFaults "dev:s1"
                               (mkMessage Assistant "hi" [] [] "") "id-3" 12);
               DoCleanupOldMessages background noFaults 7776011;
               DoAddMessage (mkAppend background noFaults "dev:s1"
                               (mkMessage User "weather?" [] [] "") "id-4" 7776012)]
              "s1" background noFaults)
    as (_ & _ & _ & Hids & _).
  - repeat constructor.
  - vm_compute. reflexivity.
  - split; [vm_compute; reflexivity | exact Hids].
Defined.

(** X11. For a positive [count] and a store as in X10, [GetMessages]
    returns the newest [count] messages of the session (all of them when
    there are fewer), oldest first, each scanned from its row and
    converted by [convertToSchemaMessage]; when its statement fails it
    returns the wrapped error and no message. *)
Theorem GetMessages_returns_newest_in_order
    (limitNotPositive : Z -> list MessageRow -> list MessageRow)
    (AddDate : Z -> Z -> Z) (MessageRetentionDays : Z)
    (ops : list MemoryOp) (ctx : Context) (faults : Faults) (agentID : string) (count : Z) :
  Forall opMaxQueryAnswered ops ->
  len ops < 9223372036854775807 ->
  0 < count ->
  let db := runMemoryOps AddDate MessageRetentionDays emptyDB ops in
  let sessionID := snd (parseAgentID agentID) in
  let stored := messagesOf sessionID db in
  match queryError ctx faults 0 [sessionID] with
  | Some e =>
      GetMessages limitNotPositive ctx faults db agentID count =
        inr (Errorf "failed to get messages" (DbFailure e))
  | None =>
      exists messages,
        Forall2 (fun row m => scanRow row = Some m)
          (drop (length stored - Z.to_nat count) stored) messages /\
        GetMessages limitNotPositive ctx faults db agentID count =
          inl (convertToSchemaMessage <$> messages)
  end.
Proof.
  intros Hops Hlen Hcount db sessionID stored. unfold GetMessages, sqlLimit.
  destruct (Z.ltb_spec 0 count) as [_|?]; [|lia].
  destruct (runMemoryOps_storeKept AddDate MessageRetentionDays ops emptyDB 0
              storeKept_emptyDB Hops ltac:(lia) ltac:(lia))
    as ((Hsorted & _ & _) & _ & Hscan & _).
  fold db in Hsorted, Hscan.
  destruct (orderBy_increasing stored (Hsorted _)) as [_ Hdesc].
  fold sessionID. fold stored. rewrite Hdesc, take_reverse.
  assert (Hrows : Forall (fun row => is_Some (scanRow row))
                    (reverse (drop (length stored - Z.to_nat count) stored))).
  { apply Forall_reverse. apply Forall_drop. now apply Forall_filter_of. }
  pose proof (find_scans ctx faults sessionID _ Hrows) as Hfind.
  destruct (queryError ctx faults 0 [sessionID]); [now rewrite Hfind|].
  destruct Hfind as (messages & -> & Hall). exists (reverse messages). split.
  - apply Forall2_reverse in Hall. now rewrite reverse_involutive in Hall.
  - now rewrite fmap_reverse.
Qed.

Lemma GetMessages_returns_newest_in_order_witness :
  let ops :=
    [DoAddMessage (mkAppend background noFaults "dev:s1" (mkMessage User "hello" [] [] "")
                     "id-1" 10);
     DoAddMessage (mkAppend background noFaults "dev:s1" (mkMessage Assistant "hi" [] [] "")
                     "id-2" 11);
     DoAddMessage (mkAppend background noFaults "dev:s1" (mkMessage User "weather?" [] [] "")
                     "id-3" 12)] in
  let db := runMemoryOps (fun t days => t + days * 86400) 90 emptyDB ops in
  exists messages,
    Forall2 (fun row m => scanRow row = Some m)
      (drop (length (messagesOf "s1" db) - Z.to_nat 2) (messagesOf "s1" db)) messages /\
    GetMessages (fun _ rows => rows) background noFaults db "dev:s1" 2 =
      inl (convertToSchemaMessage <$> messages).
Proof.
  intros ops db.
  apply (GetMessages_returns_newest_in_order (fun _ rows => rows)
           (fun t days => t + days * 86400) 90 ops background noFaults "dev:s1" 2).
  - repeat constructor.
  - vm_compute. reflexivity.
  - lia.
Defined.

(** The run of the witness, evaluated. *)
Lemma GetMessages_example :
  GetMessages (fun _ rows => rows) background noFaults
    (runMemoryOps (fun t days => t + days * 86400) 90 emptyDB
       [DoAddMessage (mkAppend background noFaults "dev:s1" (mkMessage User "hello" [] [] "")
                        "id-1" 10);
        DoAddMessage (mkAppend background noFaults "dev:s1" (mkMessage Assistant "hi" [] [] "")
                        "id-2" 11);
        DoAddMessage (mkAppend background noFaults "dev:s1"
                        (mkMessage User "weather?" [] [] "") "id-3" 12)])
    "dev:s1" 2
  = inl [mkMessage Assistant "hi" [] [] ""; mkMessage User "weather?" [] [] ""].
Proof. vm_compute. reflexivity. Qed.

(** X12. [ResetMemory] on the session that the agent id names.  When
    its delete fails nothing is changed and the wrapped error returns.
    When the delete is carried out the session has no messages afterwards
    and every other session keeps its own, whether or not the update of
    the status then fails; the call returns no error exactly when that
    update is carried out as well.  The next message appended to the
    session (its key fitting the column) is numbered 1 again when the
    append returns no error, and not stored when it returns one. *)
Theorem ResetMemory_restarts_numbering (ctx : Context) (faults : Faults) (db : DB)
    (agentID : string) (other : string) (ctx' : Context) (faults' : Faults) (msg : Message)
    (uuid : string) (now : Z) :
  let sessionID := snd (parseAgentID agentID) in
  let result := ResetMemory ctx faults db agentID in
  let next := AddMessage ctx' faults' (fst result) agentID msg uuid now in
  match queryError ctx faults 0 [sessionID] with
  | Some e =>
      fst result = db /\
      snd result = Some (Errorf "failed to delete messages" (DbFailure e))
  | None =>
      messagesOf sessionID (fst result) = [] /\
      (other <> sessionID -> messagesOf other (fst result) = messagesOf other db) /\
      (snd result = None <-> queryError ctx faults 1 [sessionID] = None) /\
      ((charLength sessionID <= 64)%nat ->
       sequenceNums sessionID (fst next) =
         match snd next with None => [1] | Some _ => [] end)
  end.
Proof.
  intros sessionID result next.
  pose proof (ResetMemory_cases ctx faults db agentID) as [_ Hc]. cbn zeta in Hc.
  fold sessionID result in Hc.
  destruct (queryError ctx faults 0 [sessionID]) as [e|]; [exact Hc|].
  destruct Hc as [Hmsgs Herr].
  assert (Hof : forall sid,
             messagesOf sid (fst result) =
             if decide (sid = sessionID) then [] else messagesOf sid db).
  { intros sid. unfold messagesOf. rewrite Hmsgs. clear Hmsgs.
    induction (conversation_messages db) as [|row rows IH].
    - now destruct (decide _).
    - rewrite (filter_cons _ row rows),
        (filter_cons (fun r => col_session_id r = sid) row rows).
      destruct (decide (col_session_id row <> sessionID)) as [Hne|Heq].
      + rewrite filter_cons.
        destruct (decide (col_session_id row = sid)) as [Hs|Hs];
          rewrite IH; destruct (decide (sid = sessionID)) as [Ht|Ht];
          try reflexivity; congruence.
      + assert (Hsame : col_session_id row = sessionID).
        { destruct (decide (col_session_id row = sessionID)); [assumption | contradiction]. }
        destruct (decide (col_session_id row = sid)) as [Hs|Hs];
          rewrite IH; destruct (decide (sid = sessionID)) as [Ht|Ht];
          try reflexivity; congruence. }
  assert (Hempty : messagesOf sessionID (fst result) = []).
  { rewrite Hof. now destruct (decide _). }
  split; [exact Hempty|]. split; [|split].
  - intros Hother. rewrite Hof. now destruct (decide _).
  - rewrite Herr. destruct (queryError ctx faults 1 [sessionID]); split; auto; discriminate.
  - intros Hfits.
    pose proof (AddMessage_cases ctx' faults' (fst result) agentID msg uuid now) as [_ Hn].
    cbn zeta in Hn. fold sessionID next in Hn. unfold sequenceNums at 1, messagesOf at 1.
    destruct (snd next) as [err|].
    + rewrite Hn. fold (messagesOf sessionID (fst result)). now rewrite Hempty.
    + destruct Hn as (_ & _ & row & Hrow & _ & ->).
      apply pgMessageRow_inl in Hrow as (Hsid & _ & _ & Hseq & _).
      cbn [buildMessage cm_SessionID cm_SequenceNum] in Hsid, Hseq.
      rewrite (pgVarchar_fits 64 sessionID Hfits) in Hsid. injection Hsid as Hsid.
      rewrite filter_app, fmap_app, filter_cons, filter_nil.
      fold (messagesOf sessionID (fst result)). rewrite Hempty.
      destruct (decide (col_session_id row = sessionID)) as [_|Hne]; [|congruence].
      cbn [fmap list_fmap app]. rewrite Hseq. f_equal.
      unfold selectMaxSeq, maxSequenceNum, sequenceNums. rewrite Hempty.
      now destruct (queryError ctx' faults' 2 [sessionID]).
Qed.

Lemma ResetMemory_restarts_numbering_witness :
  let db :=
    addMessages emptyDB
      [mkAppend background noFaults "dev:s1" (mkMessage User "hello" [] [] "") "id-1" 10;
       mkAppend background noFaults "dev:s2" (mkMessage User "hi" [] [] "") "id-2" 11] in
  messagesOf "s2" (fst (ResetMemory background noFaults db "dev:s1")) = messagesOf "s2" db.
Proof.
  intros db.
  pose proof (ResetMemory_restarts_numbering background noFaults db "dev:s1" "s2"
                background noFaults zeroMessage "" 0) as H.
  cbn zeta in H.
  change (queryError background noFaults 0 [snd (parseAgentID "dev:s1")])
    with (@None DbError) in H.
  destruct H as (_ & Hother & _). apply Hother. vm_compute. discriminate.
Defined.
(** ** SendAudioToMetaHuman *)

Section MetaHumanProperties.
Context {Decoder : Type}.
Variable decodeFrame : Decoder -> Frame -> Decoder * option (list Z).

Lemma writeExactBuffer_effect (pushed : list (list Z)) (audioBuffer : list Z) :
  metaBufferSize <= len audioBuffer ->
  writeExactBuffer pushed audioBuffer =
    (pushed ++ [take (Z.to_nat metaBufferSize) audioBuffer],
     drop (Z.to_nat metaBufferSize) audioBuffer) /\
  len (take (Z.to_nat metaBufferSize) audioBuffer) = metaBufferSize.
Proof.
  intros Hlen. unfold writeExactBuffer, goSlice.
  destruct (Z.leb_spec metaBufferSize (len audioBuffer)) as [_|?]; [|lia].
  rewrite Z.sub_0_r. cbn [Z.to_nat drop]. split; [reflexivity|].
  unfold len in *. rewrite length_take. unfold metaBufferSize in *. lia.
Qed.

Lemma metaHumanLoop_conserves (events : list MetaHumanEvent) (decoder : Decoder)
    (pushed0 : list (list Z)) (buffer0 : list Z) :
  let run := metaHumanLoop decodeFrame events decoder pushed0 buffer0 in
  concat (pushed run) ++ audioBuffer run
    = concat pushed0 ++ buffer0 ++ decodedBytes decodeFrame events decoder /\
  (metaReturned run = true -> metaError run = None -> audioBuffer run = []) /\
  (Forall (fun piece => piece <> []) pushed0 ->
   Forall (fun piece => piece <> []) (pushed run)) /\
  exactThenRest pushed0 (pushed run).
Proof.
  revert decoder pushed0 buffer0.
  induction events as [|ev rest IH]; intros decoder pushed0 buffer0.
  - simpl. rewrite app_nil_r. repeat split; try discriminate; auto.
    exists [], []. rewrite !app_nil_r. auto.
  - assert (Hflush :
      forall run,
        run = (let '(pushed', audioBuffer') := writeBuffer pushed0 buffer0 in
               mkMetaHumanRun pushed' audioBuffer' true None) ->
        concat (pushed run) ++ audioBuffer run = concat pushed0 ++ buffer0 ++ [] /\
        (metaReturned run = true -> metaError run = None -> audioBuffer run = []) /\
        (Forall (fun piece => piece <> []) pushed0 ->
         Forall (fun piece => piece <> []) (pushed run)) /\
        exactThenRest pushed0 (pushed run)).
    { intros run ->. unfold writeBuffer. destruct buffer0 as [|b buffer0]; simpl.
      - rewrite app_nil_r. repeat split; auto.
        exists [], []. rewrite !app_nil_r. auto.
      - rewrite concat_app. simpl. rewrite !app_nil_r. repeat split; auto.
        + intros Hne. apply Forall_app. split; [exact Hne|]. repeat constructor. discriminate.
        + exists [], [b :: buffer0]. simpl. auto. }
    destruct ev as [opusFrame| |]; [|apply Hflush; reflexivity|apply Hflush; reflexivity].
    cbn [metaHumanLoop decodedBytes].
    destruct (decodeFrame decoder opusFrame) as [decoder' [pcmBytes|]].
    + destruct (Z.leb_spec metaBufferSize (len (buffer0 ++ pcmBytes))) as [Hfull|Hroom].
      * destruct (writeExactBuffer_effect pushed0 (buffer0 ++ pcmBytes) Hfull) as [-> Hpiece].
        destruct (IH decoder'
                    (pushed0 ++ [take (Z.to_nat metaBufferSize) (buffer0 ++ pcmBytes)])
                    (drop (Z.to_nat metaBufferSize) (buffer0 ++ pcmBytes)))
          as (Hbytes & Hdone & Hne & (chunks & final & Hpushed & Hchunks & Hfinal)).
        split; [|split; [exact Hdone|split]].
        -- rewrite Hbytes, concat_app. simpl. rewrite app_nil_r, <- !app_assoc.
           f_equal. rewrite (app_assoc (take _ _)), take_drop, <- app_assoc. reflexivity.
        -- intros Hne0. apply Hne, Forall_app. split; [exact Hne0|].
           repeat constructor. intros Hempty. rewrite Hempty in Hpiece.
           unfold metaBufferSize in Hpiece. discriminate Hpiece.
        -- exists (take (Z.to_nat metaBufferSize) (buffer0 ++ pcmBytes) :: chunks), final.
           rewrite Hpushed, <- !app_assoc. simpl. repeat split; auto.
      * destruct (IH decoder' pushed0 (buffer0 ++ pcmBytes))
          as (Hbytes & Hdone & Hne & Hshape).
        split; [|split; [exact Hdone|split; [exact Hne | exact Hshape]]].
        rewrite Hbytes, <- !app_assoc. reflexivity.
    + simpl. rewrite app_nil_r. repeat split; try discriminate; auto.
      exists [], []. rewrite !app_nil_r. auto.
Qed.

(** X14. [SendAudioToMetaHuman] hands the decoded PCM to redis without
    loss, duplication or reordering: the pieces pushed so far, followed
    by what is still buffered, are exactly the bytes decoded so far.
    When the channel closes or the context ends the rest is flushed, so
    the pushes make up all of it; a decode failure returns at once and
    the buffered rest is never pushed.  No empty piece is pushed; every
    piece but the last has exactly 64000 bytes.  Without a redis client
    nothing is pushed. *)
Theorem metaHuman_pushes_all_decoded_audio (audioProcesser : Decoder)
    (events : list MetaHumanEvent) :
  let run := SendAudioToMetaHuman decodeFrame true (Some audioProcesser) events in
  concat (pushed run) ++ audioBuffer run = decodedBytes decodeFrame events audioProcesser /\
  (metaReturned run = true -> metaError run = None ->
   concat (pushed run) = decodedBytes decodeFrame events audioProcesser) /\
  Forall (fun piece => piece <> []) (pushed run) /\
  exactThenRest [] (pushed run) /\
  pushed (SendAudioToMetaHuman decodeFrame false (Some audioProcesser) events) = [].
Proof.
  intros run. subst run. unfold SendAudioToMetaHuman.
  destruct (metaHumanLoop_conserves events audioProcesser [] [])
    as (Hbytes & Hdone & Hne & Hshape).
  simpl in Hbytes. split; [exact Hbytes|]. split.
  - intros Hret Herr. rewrite <- Hbytes, (Hdone Hret Herr), app_nil_r. reflexivity.
  - split; [apply Hne; constructor|]. split; [exact Hshape | reflexivity].
Qed.
End MetaHumanProperties.

Lemma metaHuman_pushes_all_decoded_audio_witness :
  let decode (n : nat) (frame : Frame) := (S n, Some (frame ++ frame)) in
  let run :=
    SendAudioToMetaHuman decode true (Some 0%nat)
      [OpusFrameArrives [1; 2]; OpusFrameArrives [3]; MetaChanClosed] in
  concat (pushed run) = [1; 2; 1; 2; 3; 3].
Proof.
  intros decode run.
  destruct (metaHuman_pushes_all_decoded_audio decode 0%nat
              [OpusFrameArrives [1; 2]; OpusFrameArrives [3]; MetaChanClosed])
    as (_ & Hall & _).
  apply Hall; reflexivity.
Defined.

(** ** The audio collector *)

Lemma collect_buffers (arrivals : list AudioArrival) (c : AudioCollector) :
  userEnabled c = true -> ttsEnabled c = true ->
  collect c arrivals =
  mkAudioCollector (userAudioData c ++ userBytes arrivals) true
    (ttsAudioData c ++ ttsBytes arrivals) true (ac_deviceID c) (ac_sessionID c).
Proof.
  revert c. induction arrivals as [|a rest IH]; intros c Hu Ht.
  - unfold userBytes, ttsBytes. simpl. rewrite !app_nil_r. destruct c; simpl in *. congruence.
  - unfold collect in *. cbn [foldl].
    destruct a as [data|data]; [unfold AddUserAudio | unfold AddTTSAudio];
      rewrite ?Hu, ?Ht; cbn [negb orb];
      (destruct (Z.eqb_spec (len data) 0) as [Hz|Hz];
       [assert (data = []) as -> by (destruct data; [reflexivity | unfold len in Hz; simpl in Hz; lia]);
        rewrite IH by assumption; unfold userBytes, ttsBytes; cbn [mbind list_bind app];
        reflexivity
       |rewrite IH by reflexivity; cbn [userAudioData ttsAudioData ac_deviceID ac_sessionID];
        unfold userBytes, ttsBytes; cbn [mbind list_bind app];
        rewrite <- ?app_assoc; reflexivity]).
Qed.

(** X15. The collector keeps the user audio and the TTS audio apart and
    hands each out exactly once.  After any interleaving of arrivals,
    [SaveUserAudio] publishes one event whose data is the user audio in
    order of arrival (and none when there is no such audio), the device,
    session and message id, type opus and source user; a second save
    right after publishes nothing; the TTS audio is untouched and is
    published by [SaveTTSAudio] in the same way. *)
Theorem collector_drains_each_source_once (deviceID sessionID : string)
    (arrivals : list AudioArrival) (messageID : string) (sampleRate channels : Z) :
  let c := collect (NewAudioCollector deviceID sessionID) arrivals in
  let c1 := fst (SaveUserAudio c messageID sampleRate channels) in
  snd (SaveUserAudio c messageID sampleRate channels) =
    match userBytes arrivals with
    | [] => None
    | data => Some (mkAudioSaveEvent deviceID sessionID messageID data "opus" "user"
                      sampleRate channels)
    end /\
  snd (SaveUserAudio c1 messageID sampleRate channels) = None /\
  snd (SaveTTSAudio c1 messageID sampleRate channels) =
    match ttsBytes arrivals with
    | [] => None
    | data => Some (mkAudioSaveEvent deviceID sessionID messageID data "opus" "tts"
                      sampleRate channels)
    end /\
  userAudioData (fst (SaveTTSAudio c1 messageID sampleRate channels)) = [] /\
  ttsAudioData (fst (SaveTTSAudio c1 messageID sampleRate channels)) = [].
Proof.
  intros c c1. subst c1 c.
  rewrite (collect_buffers arrivals (NewAudioCollector deviceID sessionID) eq_refl eq_refl).
  unfold SaveUserAudio, SaveTTSAudio, GetUserAudio, GetTTSAudio. simpl.
  destruct (userBytes arrivals) as [|u us]; destruct (ttsBytes arrivals) as [|t ts];
    simpl; repeat split; try reflexivity;
    unfold len; simpl;
    repeat match goal with
           | |- context [Z.pos ?p =? 0] => change (Z.pos p =? 0) with false
           end; try reflexivity.
Qed.

(** ** The VAD resource pool *)

Lemma AcquireVAD_sound (p : VADResourcePool) :
  poolSound p ->
  poolSound (fst (AcquireVAD p)) /\
  poolInstances (fst (AcquireVAD p)) = poolInstances p /\
  GetAvailableCount (fst (AcquireVAD p)) + GetActiveCount (fst (AcquireVAD p))
    = GetAvailableCount p + GetActiveCount p.
Proof.
  intros (Hinit & free & Hfree & Hnd & Hdisj & Hcap).
  unfold AcquireVAD. rewrite Hinit, Hfree. cbn [negb].
  destruct free as [|vad rest].
  - cbn [fst]. repeat split; auto. exists []. auto.
  - cbn [fst]. apply NoDup_cons in Hnd as [Hvad Hrest].
    assert (Hnew : vad ∉ allocatedVADs p) by (apply Hdisj; apply elem_of_cons; now left).
    assert (Hsize : size ({[vad]} ∪ allocatedVADs p) = S (size (allocatedVADs p))).
    { rewrite size_union by set_solver. rewrite size_singleton. lia. }
    split; [|split].
    + split; [reflexivity|]. exists rest. cbn. split; [reflexivity|]. split; [exact Hrest|].
      split.
      * intros v Hv Hin. apply elem_of_union in Hin as [Hin|Hin].
        -- apply elem_of_singleton in Hin. subst v. contradiction.
        -- apply (Hdisj v); [apply elem_of_cons; now right | exact Hin].
      * rewrite Hsize. simpl in Hcap. lia.
    + unfold poolInstances. rewrite Hfree. cbn [availableVADs allocatedVADs].
      unfold default, from_option, id. apply set_eq. intros v.
      rewrite !elem_of_union, !elem_of_list_to_set, elem_of_cons, elem_of_singleton. tauto.
    + unfold GetAvailableCount, GetActiveCount, len. rewrite Hfree. cbn [availableVADs allocatedVADs].
      rewrite Hsize. simpl length. lia.
Qed.

Lemma ReleaseVAD_sound (p : VADResourcePool) (vad : option VADInstance) :
  poolSound p ->
  poolSound (ReleaseVAD p vad) /\
  poolInstances (ReleaseVAD p vad) = poolInstances p /\
  GetAvailableCount (ReleaseVAD p vad) + GetActiveCount (ReleaseVAD p vad)
    = GetAvailableCount p + GetActiveCount p.
Proof.
  intros Hp. pose proof Hp as (Hinit & free & Hfree & Hnd & Hdisj & Hcap).
  destruct vad as [vad|]; [|split; [exact Hp | split; reflexivity]].
  unfold ReleaseVAD. rewrite Hinit. cbn [negb].
  destruct (decide (vad ∈ allocatedVADs p)) as [Hin|Hout];
    [|split; [exact Hp | split; reflexivity]].
  rewrite Hfree.
  assert (Hsize : size (allocatedVADs p) = S (size (allocatedVADs p ∖ {[vad]}))).
  { rewrite size_difference by set_solver. rewrite size_singleton.
    assert (size (allocatedVADs p) <> 0)%nat; [|lia].
    intros Hz. apply size_empty_inv in Hz. set_solver. }
  assert (Hnotfree : vad ∉ free).
  { intros Hf. apply (Hdisj vad Hf Hin). }
  destruct (Nat.ltb_spec (length free) (availableCap p)) as [_|Hfull]; [|lia].
  split; [|split].
  - split; [reflexivity|]. exists (free ++ [vad]). cbn. split; [reflexivity|]. split.
    + apply NoDup_app. split; [exact Hnd|]. split; [|apply NoDup_singleton].
      intros v Hv Hv'. apply list_elem_of_singleton in Hv'. subst v. contradiction.
    + split.
      * intros v Hv. apply elem_of_app in Hv as [Hv|Hv].
        -- specialize (Hdisj v Hv). rewrite elem_of_difference. tauto.
        -- apply list_elem_of_singleton in Hv. subst v.
           rewrite elem_of_difference, elem_of_singleton. tauto.
      * rewrite length_app. simpl. lia.
  - unfold poolInstances. rewrite Hfree. cbn [availableVADs allocatedVADs].
    unfold default, from_option, id. apply set_eq. intros v.
    rewrite !elem_of_union, !elem_of_list_to_set, elem_of_app, list_elem_of_singleton,
      elem_of_difference, elem_of_singleton.
    destruct (decide (v = vad)) as [->|Hneq]; tauto.
  - unfold GetAvailableCount, GetActiveCount, len. rewrite Hfree.
    cbn [availableVADs allocatedVADs]. rewrite length_app. simpl length. lia.
Qed.

(** X16. A pool that is initialized with every instance once and a
    channel with room for all of them stays that way under any sequence
    of acquisitions and releases: no instance is lost, none is both free
    and handed out or free twice, and free plus handed-out instances stay
    the same in number.  Releasing an instance a second time, or one the
    pool never handed out, changes nothing.  An acquisition times out
    exactly when no instance is free. *)
Theorem pool_keeps_its_instances (p : VADResourcePool) (ops : list PoolOp)
    (vad : option VADInstance) :
  poolSound p ->
  let p' := runPoolOps p ops in
  poolSound p' /\
  poolInstances p' = poolInstances p /\
  GetAvailableCount p' + GetActiveCount p' = GetAvailableCount p + GetActiveCount p /\
  ReleaseVAD (ReleaseVAD p' vad) vad = ReleaseVAD p' vad /\
  (snd (AcquireVAD p') = inr AcquireTimedOut <-> GetAvailableCount p' = 0).
Proof.
  intros Hp p'. subst p'.
  assert (Hrun : poolSound (runPoolOps p ops) /\
                 poolInstances (runPoolOps p ops) = poolInstances p /\
                 GetAvailableCount (runPoolOps p ops) + GetActiveCount (runPoolOps p ops)
                 = GetAvailableCount p + GetActiveCount p).
  { revert p Hp. induction ops as [|op ops IH]; intros p Hp;
      [split; [exact Hp | split; reflexivity]|].
    unfold runPoolOps in *. cbn [foldl].
    assert (Hstep : poolSound (runPoolOp p op) /\
                    poolInstances (runPoolOp p op) = poolInstances p /\
                    GetAvailableCount (runPoolOp p op) + GetActiveCount (runPoolOp p op)
                    = GetAvailableCount p + GetActiveCount p).
    { destruct op as [|v]; [apply AcquireVAD_sound | apply ReleaseVAD_sound]; exact Hp. }
    destruct Hstep as (Hs & Hi & Hc). destruct (IH _ Hs) as (Hs' & Hi' & Hc').
    split; [exact Hs'|]. split; congruence. }
  destruct Hrun as (Hs & Hi & Hc). split; [exact Hs|]. split; [exact Hi|].
  split; [exact Hc|]. set (q := runPoolOps p ops) in *.
  pose proof Hs as (Hinit & free & Hfree & Hnd & Hdisj & Hcap). split.
  - destruct vad as [v|]; [|reflexivity].
    destruct (decide (v ∈ allocatedVADs q)) as [Hin|Hout].
    + assert (Hgone : v ∉ allocatedVADs (ReleaseVAD q (Some v))).
      { unfold ReleaseVAD. rewrite Hinit. cbn [negb].
        destruct (decide (v ∈ allocatedVADs q)); [|contradiction].
        rewrite Hfree.
        destruct (_ <? _)%nat; cbn [allocatedVADs];
          rewrite elem_of_difference, elem_of_singleton; tauto. }
      assert (Hinit' : pool_initialized (ReleaseVAD q (Some v)) = true)
        by (destruct (ReleaseVAD_sound q (Some v) Hs) as ((H & _) & _); exact H).
      unfold ReleaseVAD at 1. rewrite Hinit'. cbn [negb].
      destruct (decide (v ∈ allocatedVADs (ReleaseVAD q (Some v)))); [contradiction | reflexivity].
    + assert (Hsame : ReleaseVAD q (Some v) = q).
      { unfold ReleaseVAD. rewrite Hinit. cbn [negb].
        destruct (decide (v ∈ allocatedVADs q)); [contradiction | reflexivity]. }
      now rewrite !Hsame.
  - unfold AcquireVAD, GetAvailableCount, len. rewrite Hinit, Hfree. cbn [negb].
    destruct free as [|v rest]; cbn; split; intros H; try reflexivity; try discriminate; lia.
Qed.

Lemma pool_keeps_its_instances_witness :
  let p := mkPool (Some [1; 2; 3]%nat) 3 ∅ 3 true in
  let p' := runPoolOps p [Acquire; Acquire; Release (Some 1%nat); Release (Some 1%nat);
                          Release (Some 7%nat); Acquire] in
  availableVADs p' = Some [1]%nat /\
  GetAvailableCount p' + GetActiveCount p' = 3.
Proof.
  intros p p'.
  assert (Hsound : poolSound p).
  { unfold p, poolSound. cbn [pool_initialized availableVADs allocatedVADs availableCap].
    split; [reflexivity|]. exists [1; 2; 3]%nat. split; [reflexivity|].
    split; [apply (bool_decide_unpack _); vm_compute; exact I|].
    split; [intros v _; apply not_elem_of_empty|]. rewrite size_empty. simpl. lia. }
  destruct (pool_keeps_its_instances p
              [Acquire; Acquire; Release (Some 1%nat); Release (Some 1%nat);
               Release (Some 7%nat); Acquire] None Hsound) as (_ & _ & Hcount & _).
  split; [vm_compute; reflexivity|]. fold p' in Hcount. rewrite Hcount.
  unfold GetAvailableCount, GetActiveCount, p.
  cbn [availableVADs allocatedVADs]. rewrite size_empty. reflexivity.
Defined.

(** ** The pacer, further *)

Lemma pacerWait_actions (startTime frameDuration cacheFrameCount now totalFrames overSleep : Z) :
  framesSent (fst (pacerWait startTime frameDuration cacheFrameCount now totalFrames overSleep)) = [] /\
  Forall (fun d => 0 < d)
    (sleeps (fst (pacerWait startTime frameDuration cacheFrameCount now totalFrames overSleep))).
Proof.
  unfold pacerWait.
  destruct (Z.ltb_spec now (startTime + (totalFrames - cacheFrameCount) * frameDuration));
    simpl; split; try reflexivity; repeat constructor; lia.
Qed.

Lemma flowControlLoop_numbers (startTime frameDuration cacheFrameCount : Z)
    (steps : list PacerStep) (closeOverSleep closeWait now totalFrames : Z) :
  let run := flowControlLoop startTime frameDuration cacheFrameCount steps
               closeOverSleep closeWait now totalFrames in
  map (fun '(n, _, frame) => (n, frame)) (framesSent (fst run))
    = imap (fun i frame => (totalFrames + Z.of_nat i, frame)) (sentPrefix steps) /\
  snd run = totalFrames + len (sentPrefix steps) /\
  Forall (fun d => 0 < d) (sleeps (fst run)).
Proof.
  revert now totalFrames. induction steps as [|step rest IH]; intros now total.
  - cbn [flowControlLoop sentPrefix imap].
    destruct (pacerWait_actions startTime frameDuration cacheFrameCount now total closeOverSleep)
      as [Hsent Hsleeps].
    destruct (pacerWait _ _ _ _ _ _) as [slept now1]. cbn [fst] in *.
    destruct (Z.gtb_spec (total * frameDuration) (now1 + closeWait - startTime));
      cbn [fst snd]; unfold framesSent, sleeps, len in *; rewrite ?omap_app, ?Hsent;
      (split; [reflexivity|]); (split; [simpl; lia|]); auto.
    apply Forall_app. split; [exact Hsleeps|]. simpl. repeat constructor. lia.
  - destruct step as [frame overSleep recvWait sendTook sendOk|overSleep];
      cbn [flowControlLoop sentPrefix].
    + destruct (pacerWait_actions startTime frameDuration cacheFrameCount now total overSleep)
        as [Hsent Hsleeps].
      destruct (pacerWait _ _ _ _ _ _) as [slept now1]. cbn [fst] in *.
      destruct sendOk.
      * specialize (IH (now1 + recvWait + sendTook) (total + 1)).
        destruct (flowControlLoop _ _ _ rest _ _ _ _) as [acts total'].
        cbn [fst snd] in *. destruct IH as (Hnum & Htotal & Hpos).
        unfold framesSent, sleeps in *. rewrite !omap_app, Hsent. cbn [omap app map imap].
        split; [|split].
        -- simpl omap. cbn [map]. change (Z.of_nat 0) with 0. rewrite Z.add_0_r.
           apply (f_equal (cons (total, frame))). etransitivity; [exact Hnum|]. apply imap_ext. intros i frame' _.
           simpl. f_equal. lia.
        -- rewrite Htotal. unfold len. simpl length. lia.
        -- apply Forall_app. split; [exact Hsleeps | exact Hpos].
      * cbn [fst snd imap]. rewrite Hsent. split; [reflexivity|].
        split; [unfold len; simpl; lia | exact Hsleeps].
    + destruct (pacerWait_actions startTime frameDuration cacheFrameCount now total overSleep)
        as [Hsent Hsleeps].
      destruct (pacerWait _ _ _ _ _ _) as [slept now1]. cbn [fst snd imap] in *.
      rewrite Hsent. split; [reflexivity|]. split; [unfold len; simpl; lia | exact Hsleeps].
Qed.

(** X17. The loop written in [processFlowControl] behind the early
    return, had it been reached: it hands the frames to the transport in
    the order it receives them and numbers them consecutively from the
    counter it starts with, up to the first failed send or the end of the
    context; the counter grows by one per frame handed over; it only
    ever sleeps for a positive duration; and, when no delay of the
    environment is negative, frame [n] is handed over no earlier than
    [startTime + (n - cacheFrameCount) * frameDuration]. *)
Theorem pacer_loop_numbers_and_paces (startTime frameDuration cacheFrameCount : Z)
    (steps : list PacerStep) (closeOverSleep closeWait now totalFrames : Z) :
  Forall stepDelaysOk steps ->
  let run := flowControlLoop startTime frameDuration cacheFrameCount steps
               closeOverSleep closeWait now totalFrames in
  map (fun '(n, _, frame) => (n, frame)) (framesSent (fst run))
    = imap (fun i frame => (totalFrames + Z.of_nat i, frame)) (sentPrefix steps) /\
  snd run = totalFrames + len (sentPrefix steps) /\
  Forall (fun d => 0 < d) (sleeps (fst run)) /\
  Forall (fun '(n, sentAt, _) =>
            startTime + (n - cacheFrameCount) * frameDuration <= sentAt)
    (framesSent (fst run)).
Proof.
  intros Hok run. subst run.
  destruct (flowControlLoop_numbers startTime frameDuration cacheFrameCount steps
              closeOverSleep closeWait now totalFrames) as (Hnum & Htotal & Hpos).
  repeat split; auto. apply flowControlLoop_paced. exact Hok.
Qed.

Lemma pacer_loop_numbers_and_paces_witness :
  let run := flowControlLoop 0 20 1
               [TakeFrame [1] 0 3 1 true; TakeFrame [2] 0 0 1 true;
                TakeFrame [3] 2 0 1 false; TakeFrame [4] 0 0 1 true] 0 0 0 0 in
  map (fun '(n, _, frame) => (n, frame)) (framesSent (fst run)) = [(0, [1]); (1, [2])] /\
  snd run = 2.
Proof.
  intros run.
  destruct (pacer_loop_numbers_and_paces 0 20 1
              [TakeFrame [1] 0 3 1 true; TakeFrame [2] 0 0 1 true;
               TakeFrame [3] 2 0 1 false; TakeFrame [4] 0 0 1 true] 0 0 0 0)
    as (Hnum & Htotal & _).
  - repeat constructor; simpl; lia.
  - split; [exact Hnum | exact Htotal].
Defined.

(** ** SendTTSAudio, further *)

Lemma pacerDrops_app (lines more : list LogLine) :
  pacerDrops (lines ++ more) = (pacerDrops lines + pacerDrops more)%nat.
Proof. unfold pacerDrops. now rewrite omap_app, length_app. Qed.

Lemma ingestLoop_accounts (events : list IngestEvent) (st : Ingest) :
  (length (queue (flowControlChan st)) <= capacity (flowControlChan st))%nat ->
  (length (queue (metaAudioChan st)) <= capacity (metaAudioChan st))%nat ->
  let st' := ingestLoop events st in
  (length (queue (flowControlChan st')) + pacerDrops (logs st')
   = length (queue (flowControlChan st)) + pacerDrops (logs st)
     + length (framesRead events))%nat /\
  capacity (flowControlChan st') = capacity (flowControlChan st) /\
  capacity (metaAudioChan st') = capacity (metaAudioChan st) /\
  (length (queue (flowControlChan st')) <= capacity (flowControlChan st))%nat /\
  (length (queue (metaAudioChan st')) <= capacity (metaAudioChan st))%nat.
Proof.
  revert st. induction events as [|ev rest IH]; intros st Hflow Hmeta.
  - simpl. repeat split; lia.
  - destruct ev as [frame| | |]; cbn [ingestLoop framesRead].
    + destruct (dispatchFrame_effect st frame) as (Hf & Hm & Hl).
      destruct (trySend_queue (flowControlChan st) frame) as (Hfq & Hfc).
      destruct (trySend_queue (metaAudioChan st) frame) as (Hmq & Hmc).
      assert (Hflow' : (length (queue (flowControlChan (dispatchFrame st frame)))
                        <= capacity (flowControlChan (dispatchFrame st frame)))%nat).
      { rewrite Hf, Hfq, Hfc. unfold hasRoom.
        destruct (Nat.ltb_spec (length (queue (flowControlChan st)))
                    (capacity (flowControlChan st))); rewrite ?length_app; simpl; lia. }
      assert (Hmeta' : (length (queue (metaAudioChan (dispatchFrame st frame)))
                        <= capacity (metaAudioChan (dispatchFrame st frame)))%nat).
      { rewrite Hm, Hmq, Hmc. unfold hasRoom.
        destruct (Nat.ltb_spec (length (queue (metaAudioChan st)))
                    (capacity (metaAudioChan st))); rewrite ?length_app; simpl; lia. }
      destruct (IH _ Hflow' Hmeta') as (Hcount & Hcf & Hcm & Hlf & Hlm).
      rewrite Hf, Hfc in Hcf, Hlf. rewrite Hm, Hmc in Hcm, Hlm.
      split; [|repeat split; assumption].
      rewrite Hcount, Hf, Hfq, Hl, !pacerDrops_app. unfold hasRoom.
      destruct (length (queue (metaAudioChan st)) <? capacity (metaAudioChan st))%nat;
        destruct (length (queue (flowControlChan st)) <? capacity (flowControlChan st))%nat;
        rewrite ?length_app; simpl; unfold pacerDrops; simpl; lia.
    + simpl. rewrite pacerDrops_app. unfold pacerDrops at 2. simpl. repeat split; lia.
    + simpl. rewrite pacerDrops_app. unfold pacerDrops at 2. simpl. repeat split; lia.
    + assert (Hmeta' : (length (queue (fst (recvChan (metaAudioChan st))))
                        <= capacity (fst (recvChan (metaAudioChan st))))%nat
                       /\ capacity (fst (recvChan (metaAudioChan st)))
                          = capacity (metaAudioChan st)).
      { unfold recvChan. destruct (queue (metaAudioChan st)) eqn:Hq;
          simpl in *; rewrite ?Hq; simpl; lia. }
      destruct Hmeta' as [Hmeta' Hcap].
      destruct (IH (mkIngest (fst (recvChan (metaAudioChan st))) (flowControlChan st)
                      (logs st) (returned st)) Hflow Hmeta')
        as (Hcount & Hcf & Hcm & Hlf & Hlm).
      cbn [flowControlChan metaAudioChan logs] in *. rewrite Hcap in *.
      repeat split; assumption.
Qed.

Lemma ingestLoop_returns (events : list IngestEvent) (st : Ingest) :
  returned st = false ->
  closed (flowControlChan st) = false -> closed (metaAudioChan st) = false ->
  let st' := ingestLoop events st in
  if returned st'
  then closed (flowControlChan st') = true /\ closed (metaAudioChan st') = true /\
       (last (logs st') = Some DebugContextDone \/ last (logs st') = Some DebugAudioChanClosed)
  else closed (flowControlChan st') = false /\ closed (metaAudioChan st') = false.
Proof.
  revert st. induction events as [|ev rest IH]; intros st Hret Hcf Hcm.
  - simpl. rewrite Hret. auto.
  - destruct ev as [frame| | |]; cbn [ingestLoop].
    + apply IH.
      * unfold dispatchFrame. destruct (trySend (metaAudioChan st) frame).
        destruct (trySend (flowControlChan st) frame). exact Hret.
      * destruct (dispatchFrame_effect st frame) as (-> & _).
        unfold trySend. destruct (_ <? _)%nat; simpl; exact Hcf.
      * destruct (dispatchFrame_effect st frame) as (_ & -> & _).
        unfold trySend. destruct (_ <? _)%nat; simpl; exact Hcm.
    + simpl. rewrite last_snoc. auto.
    + simpl. rewrite last_snoc. auto.
    + apply IH; simpl; auto.
      unfold recvChan. destruct (queue (metaAudioChan st)); simpl; exact Hcm.
Qed.

(** X18. The main loop of [SendTTSAudio] accounts for every frame it
    reads: a frame is either queued for the pacer or reported by the
    warning that the pacer channel is full, so queued frames plus
    warnings equal the frames read.  Neither channel ever holds more
    than 1000 frames, whatever the digital-human goroutine takes out
    meanwhile.  The loop leaves both channels open while it runs; when
    it returns, both are closed and the last log line gives the reason
    (context done or audio channel closed). *)
Theorem ingest_accounts_for_every_frame (events : list IngestEvent) :
  let st := ingestLoop events ingestStart in
  (length (queue (flowControlChan st)) + pacerDrops (logs st)
   = length (framesRead events))%nat /\
  (length (queue (flowControlChan st)) <= 1000)%nat /\
  (length (queue (metaAudioChan st)) <= 1000)%nat /\
  (if returned st
   then closed (flowControlChan st) = true /\ closed (metaAudioChan st) = true /\
        (last (logs st) = Some DebugContextDone \/ last (logs st) = Some DebugAudioChanClosed)
   else closed (flowControlChan st) = false /\ closed (metaAudioChan st) = false).
Proof.
  intros st. subst st.
  destruct (ingestLoop_accounts events ingestStart) as (Hcount & _ & _ & Hf & Hm);
    [simpl; lia | simpl; lia |].
  split; [exact Hcount|]. split; [exact Hf|]. split; [exact Hm|].
  apply ingestLoop_returns; reflexivity.
Qed.
